(** * Shelf placement of the cutting-optimization front end

    A shallow embedding of the component state and of the functions
    [adicionarPeca] and [calcularArranjo] of the React component [App]
    (the shelf / FFDH strategy), of the [optimize-cutting] handler and the
    file handlers of the Electron main process, and of the configuration
    panel of the Electron front end, followed by the properties proved
    about them.

    Numbers.  The code computes on JavaScript numbers, which are doubles.
    The loops of [calcularArranjo] are embedded twice.  First on [Z] with
    exact sums: this is what the code computes as long as no sum is
    rounded, and it is where the geometry of the result is proved.  Then,
    in the module [Js], on the integers that are doubles, with every sum
    rounded to the nearest double as the code rounds it, and with
    [Number] reading the text fields in all the notations of a numeric
    literal; the claims are stated on this second embedding, the exact
    sums being a stated hypothesis where a claim needs them
    ([medidas_exatas]).  The only non-finite value the loops manipulate is
    the [Infinity] used for an unbounded roll; it is kept apart in the
    type [Limite].  Numbers with a fraction are outside both
    embeddings. *)

From Stdlib Require Import ZArith Lia Bool String Ascii.
From Stdlib Require Import Sorting.Sorted Sorting.Permutation.
From stdpp Require Import base list.

Local Open Scope Z_scope.

(** ** Data *)

(** An element of the state [pecas]: [{ largura, altura, quantidade }]. *)
Module Peca.
Record t : Type := mk { largura : Z; altura : Z; quantidade : Z }.
End Peca.

(** An element of [todasPecas]: [{ largura, altura }]. *)
Module Item.
Record t : Type := mk { largura : Z; altura : Z }.
End Item.

(** An element of [resultado] / [arranjo]: [{ x, y, largura, altura }]. *)
Module Posicao.
Record t : Type := mk { x : Z; y : Z; largura : Z; altura : Z }.
End Posicao.

(** The state [form]: the three text fields, as strings. *)
Module Form.
Record t : Type := mk { largura : string; altura : string; quantidade : string }.
End Form.

(** What [calcularArranjo] stores: [setArranjo(resultado)] and
    [setComprimentoUtilizado(comprimentoTotal)]. *)
Record Resultado : Type :=
  { arranjo : list Posicao.t; comprimentoUtilizado : Z }.

(** [comprimentoMax] is a number or [Infinity]. *)
Inductive Limite : Type :=
| Finito (n : Z)
| Infinity.

(** [v <= m] for a finite [v]. *)
Definition menor_ou_igual (v : Z) (m : Limite) : bool :=
  match m with
  | Finito n => v <=? n
  | Infinity => true
  end.

(** [v > m] for a finite [v]. *)
Definition maior (v : Z) (m : Limite) : bool :=
  match m with
  | Finito n => n <? v
  | Infinity => false
  end.

(** ** Strings

    [String.prototype.trim] on ASCII: the white space is the space and
    the characters 9 to 13. *)
Definition espaco (c : ascii) : bool :=
  let n := nat_of_ascii c in
  ((n =? 32) || ((9 <=? n) && (n <=? 13)))%nat.

Fixpoint trimStart (s : string) : string :=
  match s with
  | EmptyString => EmptyString
  | String c r => if espaco c then trimStart r else s
  end.

Fixpoint trimEnd (s : string) : string :=
  match s with
  | EmptyString => EmptyString
  | String c r =>
      match trimEnd r with
      | EmptyString => if espaco c then EmptyString else String c EmptyString
      | r' => String c r'
      end
  end.

Definition trim (s : string) : string := trimEnd (trimStart s).

(** ** [Number(s)], exact, on plain integer literals

    White space around the literal is ignored; the empty literal is [0];
    an optional sign followed by decimal digits is that integer, exactly;
    [None] for any other string.  This is [Number] on the texts an
    integer field holds, below 2^53; the module [Js] further down reads
    the other notations and rounds. *)

Definition digito (c : ascii) : option Z :=
  let n := nat_of_ascii c in
  if ((48 <=? n) && (n <=? 57))%nat then Some (Z.of_nat (n - 48)) else None.

Fixpoint digitos (s : string) (acc : Z) : option Z :=
  match s with
  | EmptyString => Some acc
  | String c r =>
      match digito c with
      | Some d => digitos r (10 * acc + d)
      | None => None
      end
  end.

Definition sem_sinal (s : string) : option Z :=
  match s with
  | EmptyString => None
  | _ => digitos s 0
  end.

Definition Number (s : string) : option Z :=
  match trim s with
  | EmptyString => Some 0
  | String "-"%char r => option_map Z.opp (sem_sinal r)
  | String "+"%char r => sem_sinal r
  | t => sem_sinal t
  end.

(** [!s] on a string: only the empty string is falsy. *)
Definition falsy (s : string) : bool :=
  match s with
  | EmptyString => true
  | _ => false
  end.

(** ** [adicionarPeca]

    Returns the new [pecas] and [form].  An early [return] leaves both
    unchanged.  [None] only when a field is not a plain integer literal.  The
    attributes [min={1}] and [required] of the three inputs are checked
    by the browser before the form is submitted; the function itself
    tests nothing but emptiness. *)
Definition adicionarPeca (form : Form.t) (pecas : list Peca.t)
  : option (list Peca.t * Form.t) :=
  if falsy (Form.largura form) || falsy (Form.altura form)
     || falsy (Form.quantidade form)
  then Some (pecas, form)
  else
    match Number (Form.largura form), Number (Form.altura form),
          Number (Form.quantidade form) with
    | Some l, Some a, Some q =>
        Some (pecas ++ [Peca.mk l a q], Form.mk EmptyString EmptyString EmptyString)
    | _, _, _ => None
    end.

(** ** Expansion: [pecas.flatMap(peca => Array(peca.quantidade).fill(...))]

    [Array(n)] throws a [RangeError] unless [n] is an integer with
    [0 <= n < 2^32]. *)
Definition Array_fill (n : Z) (v : Item.t) : option (list Item.t) :=
  if (0 <=? n) && (n <? 2 ^ 32) then Some (replicate (Z.to_nat n) v) else None.

Fixpoint expandir (pecas : list Peca.t) : option (list Item.t) :=
  match pecas with
  | [] => Some []
  | peca :: resto =>
      match Array_fill (Peca.quantidade peca)
                       (Item.mk (Peca.largura peca) (Peca.altura peca)) with
      | None => None
      | Some copias =>
          match expandir resto with
          | None => None
          | Some outras => Some (copias ++ outras)
          end
      end
  end.

(** ** Sorting: [todasPecas.sort((a, b) => b.altura - a.altura)]

    [Array.prototype.sort] is stable; with this comparator [a] stays
    before [b] unless [b] is strictly taller.  Any stable sort gives the
    same array; it is written here as an insertion sort. *)
Fixpoint inserir (a : Item.t) (l : list Item.t) : list Item.t :=
  match l with
  | [] => [a]
  | b :: r =>
      if Item.altura a <? Item.altura b then b :: inserir a r else a :: b :: r
  end.

Definition ordenar (l : list Item.t) : list Item.t := foldr inserir [] l.

(** ** The loops of [calcularArranjo], with exact sums *)

Record Estado : Type :=
  { todasPecas : list Item.t;
    resultado : list Posicao.t;
    y : Z;
    comprimentoTotal : Z }.

Section Laco.

Variable larguraRolo : Z.
Variable comprimentoMax : Limite.

(** The inner [while (i < todasPecas.length)]: one call per test of the
    loop condition.  [n] bounds the number of iterations; the caller
    passes more than [todasPecas.length - i], which is never used up
    ([preencher_varrer] below). *)
Fixpoint preencher (n : nat) (yy shelfAltura : Z) (i : nat) (x : Z)
    (todas : list Item.t) (res : list Posicao.t)
  : list Item.t * list Posicao.t :=
  match n with
  | O => (todas, res)
  | S n' =>
      match todas !! i with
      | None => (todas, res)
      | Some peca =>
          if x + Item.largura peca <=? larguraRolo then
            if menor_ou_igual (yy + shelfAltura) comprimentoMax then
              preencher n' yy shelfAltura i (x + Item.largura peca)
                (delete i todas)
                (res ++ [Posicao.mk x yy (Item.largura peca) (Item.altura peca)])
            else
              preencher n' yy shelfAltura (length todas) x todas res
          else
            preencher n' yy shelfAltura (S i) x todas res
      end
  end.

(** The body of the outer loop up to the [break] test. *)
Definition prateleira (s : Estado) (shelfAltura : Z) : Estado :=
  let '(todas, res) :=
    preencher (S (length (todasPecas s))) (y s) shelfAltura 0%nat 0
              (todasPecas s) (resultado s) in
  {| todasPecas := todas; resultado := res;
     y := y s; comprimentoTotal := comprimentoTotal s |}.

(** [y += shelfAltura; comprimentoTotal += shelfAltura]. *)
Definition avancar (s : Estado) (shelfAltura : Z) : Estado :=
  {| todasPecas := todasPecas s; resultado := resultado s;
     y := y s + shelfAltura;
     comprimentoTotal := comprimentoTotal s + shelfAltura |}.

(** The outer [while (todasPecas.length > 0)].  [None]: the loop is
    still running after [n] iterations. *)
Fixpoint laco (n : nat) (s : Estado) : option Estado :=
  match todasPecas s with
  | [] => Some s
  | primeira :: _ =>
      match n with
      | O => None
      | S n' =>
          let shelfAltura := Item.altura primeira in
          let s1 := prateleira s shelfAltura in
          if maior (y s + shelfAltura) comprimentoMax then Some s1
          else laco n' (avancar s1 shelfAltura)
      end
  end.

(** The heights of the shelves after which the loop went on (the ones
    added to [comprimentoTotal]), in order. *)
Fixpoint prateleiras (n : nat) (s : Estado) : list Z :=
  match todasPecas s with
  | [] => []
  | primeira :: _ =>
      match n with
      | O => []
      | S n' =>
          let shelfAltura := Item.altura primeira in
          let s1 := prateleira s shelfAltura in
          if maior (y s + shelfAltura) comprimentoMax then []
          else shelfAltura :: prateleiras n' (avancar s1 shelfAltura)
      end
  end.

End Laco.

(** [Number(comprimentoRolo) > 0 ? Number(comprimentoRolo) : Infinity],
    with the exact [Number] above: a text that is not a plain integer
    literal leaves the roll unbounded. *)
Definition comprimentoMax_de (comprimentoRolo : string) : Limite :=
  match Number comprimentoRolo with
  | Some n => if 0 <? n then Finito n else Infinity
  | None => Infinity
  end.

(** How a call of [calcularArranjo] ends. *)
Inductive Saida : Type :=
| RangeError
| Retorna (r : Resultado)
| EmCurso.

Definition estado_inicial (itens : list Item.t) : Estado :=
  {| todasPecas := ordenar itens; resultado := []; y := 0; comprimentoTotal := 0 |}.

Definition calcularArranjo (n : nat) (pecas : list Peca.t) (larguraRolo : Z)
    (comprimentoRolo : string) : Saida :=
  match expandir pecas with
  | None => RangeError
  | Some itens =>
      match laco larguraRolo (comprimentoMax_de comprimentoRolo) n
                 (estado_inicial itens) with
      | None => EmCurso
      | Some s =>
          Retorna {| arranjo := resultado s;
                     comprimentoUtilizado := comprimentoTotal s |}
      end
  end.

(** ** Auxiliary definitions for the proofs *)

(** The piece a placement was made from. *)
Definition item_de (p : Posicao.t) : Item.t :=
  Item.mk (Posicao.largura p) (Posicao.altura p).

(** The inner loop as a traversal of the part of [todasPecas] not yet
    scanned: the placements pushed and the pieces kept.  [cabe] is the
    value of the test [y + shelfAltura <= comprimentoMax]. *)
Fixpoint varrer (larguraRolo : Z) (cabe : bool) (yy x : Z) (l : list Item.t)
  : list Posicao.t * list Item.t :=
  match l with
  | [] => ([], [])
  | peca :: r =>
      if x + Item.largura peca <=? larguraRolo then
        if cabe then
          let '(c, k) := varrer larguraRolo cabe yy (x + Item.largura peca) r in
          (Posicao.mk x yy (Item.largura peca) (Item.altura peca) :: c, k)
        else ([], peca :: r)
      else
        let '(c, k) := varrer larguraRolo cabe yy x r in (c, peca :: k)
  end.

Definition soma (l : list Z) : Z := foldr Z.add 0 l.

(** Placements of one shelf: at height [yy], side by side from [x0],
    each ending within the roll width. *)
Fixpoint encadeadas (larguraRolo yy x0 : Z) (c : list Posicao.t) : Prop :=
  match c with
  | [] => True
  | p :: r =>
      Posicao.x p = x0 /\ Posicao.y p = yy
      /\ x0 + Posicao.largura p <= larguraRolo
      /\ encadeadas larguraRolo yy (x0 + Posicao.largura p) r
  end.

(** [resultado] as a stack of shelves of heights [hs]: shelf number [k]
    lies at the sum of the heights before it and holds pieces no taller
    than its height. *)
Inductive Empilhado (larguraRolo : Z) : list Z -> list Posicao.t -> Prop :=
| Emp_nil : Empilhado larguraRolo [] []
| Emp_snoc hs res h c :
    Empilhado larguraRolo hs res ->
    encadeadas larguraRolo (soma hs) 0 c ->
    Forall (fun p => Posicao.altura p <= h) c ->
    Empilhado larguraRolo (hs ++ [h]) (res ++ c).

Definition decrescente (l : list Item.t) : Prop :=
  StronglySorted (fun a b => Item.altura b <= Item.altura a) l.

(** The loop invariant: [itens] are the expanded pieces, [hs] the
    heights of the shelves closed so far. *)
Record Inv (larguraRolo : Z) (itens : list Item.t) (hs : list Z) (s : Estado)
  : Prop :=
  { inv_ordem : decrescente (todasPecas s);
    inv_perm : itens ≡ₚ (item_de <$> resultado s) ++ todasPecas s;
    inv_pilha : Empilhado larguraRolo hs (resultado s);
    inv_alturas : Forall (fun h => exists it, it ∈ itens /\ Item.altura it = h) hs;
    inv_y : y s = soma hs;
    inv_total : comprimentoTotal s = soma hs }.

(** Geometry: the overlap test of two placements. *)
Definition sobrepoe (a b : Posicao.t) : bool :=
  (Posicao.x a <? Posicao.x b + Posicao.largura b)
  && (Posicao.x b <? Posicao.x a + Posicao.largura a)
  && (Posicao.y a <? Posicao.y b + Posicao.altura b)
  && (Posicao.y b <? Posicao.y a + Posicao.altura a).

Definition pecas_positivas (pecas : list Peca.t) : Prop :=
  Forall (fun p => 0 < Peca.largura p /\ 0 < Peca.altura p) pecas.

(** Two placements in sequence: the first ends, in [y], where the
    second starts or before, or they share [y] and the first ends, in
    [x], where the second starts or before. *)
Definition separadas (a b : Posicao.t) : Prop :=
  Posicao.y a + Posicao.altura a <= Posicao.y b
  \/ (Posicao.y a = Posicao.y b
      /\ Posicao.x a + Posicao.largura a <= Posicao.x b).

(** A placement within the roll width and above [topo]. *)
Definition dentro (larguraRolo topo : Z) (p : Posicao.t) : Prop :=
  0 <= Posicao.x p /\ 0 <= Posicao.y p
  /\ Posicao.x p + Posicao.largura p <= larguraRolo
  /\ Posicao.y p + Posicao.altura p <= topo.

(** The order of the placements in [arranjo]: by [y], then by [x]. *)
Definition em_ordem (a b : Posicao.t) : Prop :=
  Posicao.y a < Posicao.y b
  \/ (Posicao.y a = Posicao.y b /\ Posicao.x a < Posicao.x b).

Definition pecas_nao_negativas (pecas : list Peca.t) : Prop :=
  Forall (fun p => 0 <= Peca.largura p /\ 0 <= Peca.altura p) pecas.

(** ** The reference procedure of the specification (section 4.3)

    Written from the words of the specification and of the claim that
    quotes it, in exact arithmetic, to be compared with
    [calcularArranjo]. *)

(** Expand the piece types in input order into quantity-many instances. *)
Definition ref_expandir (pecas : list Peca.t) : list Item.t :=
  flat_map (fun p => replicate (Z.to_nat (Peca.quantidade p))
                               (Item.mk (Peca.largura p) (Peca.altura p)))
           pecas.

(** Sort by height descending, ties broken by original input order: the
    instances are numbered, and [a] comes before [b] when it is taller,
    or as tall with a smaller number. *)
Fixpoint numerar (k : nat) (l : list Item.t) : list (nat * Item.t) :=
  match l with
  | [] => []
  | a :: r => (k, a) :: numerar (S k) r
  end.

Definition ref_antes (a b : nat * Item.t) : bool :=
  (Item.altura (snd b) <? Item.altura (snd a))
  || ((Item.altura (snd a) =? Item.altura (snd b)) && (fst a <? fst b)%nat).

Fixpoint ref_inserir (a : nat * Item.t) (l : list (nat * Item.t))
  : list (nat * Item.t) :=
  match l with
  | [] => [a]
  | b :: r => if ref_antes a b then a :: b :: r else b :: ref_inserir a r
  end.

Definition ref_ordenar (l : list Item.t) : list Item.t :=
  snd <$> foldr ref_inserir [] (numerar 0 l).

(** The height of the tallest instance of [a :: r]. *)
Definition ref_mais_alta (a : Item.t) (r : list Item.t) : Z :=
  foldr (fun it m => Z.max (Item.altura it) m) (Item.altura a) r.

(** The shelves.  [h] is the stock height of the request, 0 for a stock
    of unbounded length; the sums are exact. *)

(** Within the length bound. *)
Definition ref_cabe (h v : Z) : bool := (h =? 0) || (v <=? h).

(** Scan the instances in order: place an instance at (x-cursor, shelf-y)
    exactly when it fits within the stock width and within the length
    bound; otherwise skip it and go on with the later ones. *)
Fixpoint ref_varrer (larguraRolo h yy x : Z) (l : list Item.t)
  : list Posicao.t * list Item.t :=
  match l with
  | [] => ([], [])
  | it :: r =>
      if (x + Item.largura it <=? larguraRolo)
         && ref_cabe h (yy + Item.altura it)
      then
        let '(c, k) := ref_varrer larguraRolo h yy (x + Item.largura it) r in
        (Posicao.mk x yy (Item.largura it) (Item.altura it) :: c, k)
      else
        let '(c, k) := ref_varrer larguraRolo h yy x r in (c, it :: k)
  end.

(** As the claim words it: shelf after shelf, each as high as the tallest
    remaining instance, until every instance is placed.  The result is
    what the first [n] shelves have placed. *)
Fixpoint ref_sem_parada (larguraRolo h : Z) (n : nat) (yy : Z)
    (colocadas : list Posicao.t) (l : list Item.t) : list Posicao.t :=
  match l with
  | [] => colocadas
  | a :: r =>
      match n with
      | O => colocadas
      | S n' =>
          let altura := ref_mais_alta a r in
          let '(c, k) := ref_varrer larguraRolo h yy 0 l in
          ref_sem_parada larguraRolo h n' (yy + altura) (colocadas ++ c) k
      end
  end.

(** With one more rule: a shelf is opened only if it fits within the
    length bound; otherwise the procedure stops with what is placed.
    [None]: more than [n] shelves. *)
Fixpoint ref_prateleiras (larguraRolo h : Z) (n : nat) (yy : Z)
    (colocadas : list Posicao.t) (l : list Item.t)
  : option (list Posicao.t) :=
  match l with
  | [] => Some colocadas
  | a :: r =>
      match n with
      | O => None
      | S n' =>
          let altura := ref_mais_alta a r in
          if ref_cabe h (yy + altura) then
            let '(c, k) := ref_varrer larguraRolo h yy 0 l in
            ref_prateleiras larguraRolo h n' (yy + altura) (colocadas ++ c) k
          else Some colocadas
      end
  end.

Definition referencia_sem_parada (n : nat) (pecas : list Peca.t)
    (larguraRolo h : Z) : list Posicao.t :=
  ref_sem_parada larguraRolo h n 0 [] (ref_ordenar (ref_expandir pecas)).

Definition referencia (n : nat) (pecas : list Peca.t) (larguraRolo h : Z)
  : option (list Posicao.t) :=
  ref_prateleiras larguraRolo h n 0 [] (ref_ordenar (ref_expandir pecas)).

(** ** The [optimize-cutting] handler of the Electron main process

    The handler spawns the Python process and returns a promise; what
    happens next is driven by events: chunks on stdout and stderr, the
    [close] of the process, and the callback of the 30-second timer.  A
    promise is settled once: later calls of [resolve] and [reject] are
    without effect.  The request [config] is only written to a file for
    the Python process; its [time_limit] is not read here.  The removal
    of that file by the [close] listener, in a [try] whose [catch] only
    logs, has no effect on the promise and is not part of the state. *)

Inductive Evento : Type :=
| Stdout (data : string)
| Stderr (data : string)
| Close (code : option Z)
| Timeout.

Definition dados (e : Evento) : bool :=
  match e with
  | Stdout _ | Stderr _ => true
  | Close _ | Timeout => false
  end.

(** [split('\n')] and [startsWith], on ASCII. *)
Fixpoint split_linhas (s : string) : list string :=
  match s with
  | EmptyString => [EmptyString]
  | String c r =>
      if (nat_of_ascii c =? 10)%nat then EmptyString :: split_linhas r
      else
        match split_linhas r with
        | [] => [String c EmptyString]
        | l :: ls => String c l :: ls
        end
  end.

Definition startsWith_chave_ou_colchete (s : string) : bool :=
  match s with
  | String c _ => ((nat_of_ascii c =? 123) || (nat_of_ascii c =? 91))%nat
  | EmptyString => false
  end.

Section Handler.

(** [JSON.parse] ([None]: it throws) and the truthiness of its value. *)
Variable Json : Type.
Variable JSON_parse : string -> option Json.
Variable truthy : Json -> bool.

Inductive Promessa : Type :=
| Pendente
| Resolvida (jsonResult : Json)
| Rejeitada (message : string).

Record Processo : Type :=
  { result : string;
    error : string;
    timeout : bool;      (* the timer is armed *)
    killed : bool;       (* [pythonProcess.kill()] was called *)
    promessa : Promessa }.

Definition resolve (j : Json) (p : Processo) : Processo :=
  match promessa p with
  | Pendente =>
      {| result := result p; error := error p; timeout := timeout p;
         killed := killed p;
         promessa := Resolvida j |}
  | _ => p
  end.

Definition reject (m : string) (p : Processo) : Processo :=
  match promessa p with
  | Pendente =>
      {| result := result p; error := error p; timeout := timeout p;
         killed := killed p;
         promessa := Rejeitada m |}
  | _ => p
  end.

(** The [for] loop over the lines of the output. *)
Fixpoint procurar (lines : list string) : option Json :=
  match lines with
  | [] => None
  | l :: resto =>
      let line := trim l in
      if startsWith_chave_ou_colchete line then
        match JSON_parse line with
        | Some j => Some j
        | None => procurar resto
        end
      else procurar resto
  end.

Definition analisar (res : string) : option Json :=
  let lines := split_linhas (trim res) in
  match JSON_parse (trim res) with
  | Some j => Some j
  | None => procurar lines
  end.

(** The [close] listener. *)
Definition ao_fechar (code : option Z) (p : Processo) : Processo :=
  let p1 := {| result := result p; error := error p; timeout := false;
               killed := killed p; promessa := promessa p |} in
  match code with
  | Some 0 =>
      match analisar (result p1) with
      | Some j =>
          if truthy j then resolve j p1
          else reject "Não foi possível processar o resultado do Python" p1
      | None => reject "Não foi possível processar o resultado do Python" p1
      end
  | _ => reject ("Erro no Python: " ++ error p1) p1
  end.

(** The callback of [setTimeout(..., 30000)]. *)
Definition ao_expirar (p : Processo) : Processo :=
  if timeout p then
    reject "Timeout: Python process demorou muito para responder"
           {| result := result p; error := error p; timeout := false;
              killed := true; promessa := promessa p |}
  else p.

Definition reagir (p : Processo) (e : Evento) : Processo :=
  match e with
  | Stdout data =>
      {| result := result p ++ data; error := error p; timeout := timeout p;
         killed := killed p;
         promessa := promessa p |}
  | Stderr data =>
      {| result := result p; error := error p ++ data; timeout := timeout p;
         killed := killed p;
         promessa := promessa p |}
  | Close code => ao_fechar code p
  | Timeout => ao_expirar p
  end.

(** After [spawn]: nothing received, timer armed, promise pending. *)
Definition processo_inicial : Processo :=
  {| result := EmptyString; error := EmptyString; timeout := true;
     killed := false; promessa := Pendente |}.

(** The handler: [existe] is [fs.existsSync(pythonScript)]; the result
    is the state of the promise after the events. *)
Definition optimize_cutting (existe : bool) (pythonScript : string)
    (eventos : list Evento) : Promessa :=
  if existe then promessa (fold_left reagir eventos processo_inicial)
  else Rejeitada ("Erro ao executar otimização: "
                  ++ "Script Python não encontrado: " ++ pythonScript).

End Handler.

(** ** The rest of the component [App] (shelf version)

    [handleChange]: [setForm({ ...form, [e.target.name]: e.target.value })].
    The three inputs are named [largura], [altura] and [quantidade]; a
    key of another name is read by nothing. *)
Definition handleChange (name value : string) (form : Form.t) : Form.t :=
  if String.eqb name "largura" then
    Form.mk value (Form.altura form) (Form.quantidade form)
  else if String.eqb name "altura" then
    Form.mk (Form.largura form) value (Form.quantidade form)
  else if String.eqb name "quantidade" then
    Form.mk (Form.largura form) (Form.altura form) value
  else form.

(** The hue of the placement number [idx]: [(idx * 47) % 360]. *)
Definition matiz (idx : Z) : Z := (idx * 47) mod 360.

(** The area covered by a list of placements. *)
Definition area_total (l : list Posicao.t) : Z :=
  soma ((fun p => Posicao.largura p * Posicao.altura p) <$> l).

(** ** Reading a sequence of events of the handler *)

(** What the process wrote on stdout, and on stderr, in order. *)
Fixpoint stdout_de (eventos : list Evento) : string :=
  match eventos with
  | [] => EmptyString
  | Stdout data :: r => (data ++ stdout_de r)%string
  | _ :: r => stdout_de r
  end.

Fixpoint stderr_de (eventos : list Evento) : string :=
  match eventos with
  | [] => EmptyString
  | Stderr data :: r => (data ++ stderr_de r)%string
  | _ :: r => stderr_de r
  end.

(** The timer callback runs before any [close]. *)
Fixpoint expira_primeiro (eventos : list Evento) : bool :=
  match eventos with
  | [] => false
  | Timeout :: _ => true
  | Close _ :: _ => false
  | _ :: r => expira_primeiro r
  end.

(** ** The file handlers of the main process: [save-config],
    [load-config] and [export-results]

    The file system is a map from paths to contents.  [filePath] is what
    the save dialog returns ([None] or the empty string when nothing was
    chosen), [filePaths] what the open dialog returns. *)

Definition Fs : Type := string -> option string.

Inductive Resposta (Json : Type) : Type :=
| Sucesso (filePath : string)
| SucessoConfig (config : Json) (filePath : string)
| Falha (error : string).

Section Arquivos.

(** [JSON.stringify(v, null, 2)]; [JSON.parse], with the message of the
    error it throws; when the system makes a write fail, the message of
    the error thrown and what is then found at the path (the file may
    have been created or truncated before the failure, or left as it
    was); the message of the error of reading a path that does not
    exist. *)
Variable Json : Type.
Variable JSON_stringify : Json -> string.
Variable JSON_parse : string -> Json + string.
Variable recusa : Fs -> string -> option (string * option string).
Variable ausente : string -> string.

(** The file system after the call, and the message of the error thrown,
    if any. *)
Definition writeFileSync (fs : Fs) (path data : string) : Fs * option string :=
  match recusa fs path with
  | Some (message, resto) =>
      (fun q => if String.eqb q path then resto else fs q, Some message)
  | None => (fun q => if String.eqb q path then Some data else fs q, None)
  end.

Definition readFileSync (fs : Fs) (path : string) : string + string :=
  match fs path with
  | Some data => inl data
  | None => inr (ausente path)
  end.

Definition save_config (filePath : option string) (config : Json) (fs : Fs)
  : Fs * Resposta Json :=
  match filePath with
  | Some path =>
      if falsy path then (fs, Falha Json "Nenhum arquivo selecionado")
      else
        match writeFileSync fs path (JSON_stringify config) with
        | (fs', None) => (fs', Sucesso Json path)
        | (fs', Some message) => (fs', Falha Json message)
        end
  | None => (fs, Falha Json "Nenhum arquivo selecionado")
  end.

Definition export_results (filePath : option string) (results : Json) (fs : Fs)
  : Fs * Resposta Json :=
  match filePath with
  | Some path =>
      if falsy path then (fs, Falha Json "Nenhum arquivo selecionado")
      else
        match writeFileSync fs path (JSON_stringify results) with
        | (fs', None) => (fs', Sucesso Json path)
        | (fs', Some message) => (fs', Falha Json message)
        end
  | None => (fs, Falha Json "Nenhum arquivo selecionado")
  end.

Definition load_config (filePaths : option (list string)) (fs : Fs)
  : Resposta Json :=
  match filePaths with
  | Some (path :: _) =>
      match readFileSync fs path with
      | inl configData =>
          match JSON_parse configData with
          | inl config => SucessoConfig Json config path
          | inr message => Falha Json message
          end
      | inr message => Falha Json message
      end
  | _ => Falha Json "Nenhum arquivo selecionado"
  end.

End Arquivos.

(** ** The component [App] of the Electron front end

    A piece is the array [[width, height, quantity, allow_rotation,
    description]]; [updatePiece] takes a value of any of the three types
    and stores it as it is. *)

Inductive Valor : Type :=
| VNumber (n : Z)
| VBoolean (b : bool)
| VString (s : string).

Definition Piece : Type := (Valor * Valor * Valor * Valor * Valor)%type.

Module Config.
Record t : Type :=
  mk { stock_width : Z; stock_height : Z; pieces : list Piece; time_limit : Z }.
End Config.

(** The state [config] at start. *)
Definition config_inicial : Config.t :=
  Config.mk 1000 800
    [(VNumber 200, VNumber 300, VNumber 2, VBoolean true,
      VString "Prancha Grande");
     (VNumber 150, VNumber 200, VNumber 3, VBoolean true,
      VString "Prancha Média")]
    60.

Definition addPiece (prev : Config.t) : Config.t :=
  Config.mk (Config.stock_width prev) (Config.stock_height prev)
    (Config.pieces prev
     ++ [(VNumber 100, VNumber 100, VNumber 1, VBoolean true,
          VString "Nova Peça")])
    (Config.time_limit prev).

(** [prev.pieces.filter((_, i) => i !== index)]. *)
Definition removePiece (index : nat) (prev : Config.t) : Config.t :=
  Config.mk (Config.stock_width prev) (Config.stock_height prev)
    (delete index (Config.pieces prev))
    (Config.time_limit prev).

Definition updatePiece (index : nat) (field : Z) (value : Valor)
    (prev : Config.t) : Config.t :=
  Config.mk (Config.stock_width prev) (Config.stock_height prev)
    (imap (fun i piece =>
             if (i =? index)%nat then
               let '(p0, p1, p2, p3, p4) := piece in
               (if field =? 0 then value else p0,
                if field =? 1 then value else p1,
                if field =? 2 then value else p2,
                if field =? 3 then value else p3,
                if field =? 4 then value else p4)
             else piece)
          (Config.pieces prev))
    (Config.time_limit prev).

(** [parseInt(s)] with no radix: leading white space is skipped, then
    an optional sign, then [0x] or [0X] announces hexadecimal digits;
    the longest run of digits is read and what follows is ignored;
    [None] is [NaN] (no digit). *)
Definition digito_hex (c : ascii) : option Z :=
  let n := nat_of_ascii c in
  if ((48 <=? n) && (n <=? 57))%nat then Some (Z.of_nat (n - 48))
  else if ((97 <=? n) && (n <=? 102))%nat then Some (Z.of_nat (n - 87))
  else if ((65 <=? n) && (n <=? 70))%nat then Some (Z.of_nat (n - 55))
  else None.

Fixpoint ler_digitos (radix : Z) (digit : ascii -> option Z) (s : string)
    (lido : option Z) : option Z :=
  match s with
  | EmptyString => lido
  | String c r =>
      match digit c with
      | Some d =>
          ler_digitos radix digit r
            (Some (radix * (match lido with Some v => v | None => 0 end) + d))
      | None => lido
      end
  end.

Definition parseInt_sem_sinal (s : string) : option Z :=
  match s with
  | String "0"%char (String "x"%char r)
  | String "0"%char (String "X"%char r) => ler_digitos 16 digito_hex r None
  | _ => ler_digitos 10 digito s None
  end.

Definition parseInt (s : string) : option Z :=
  match trimStart s with
  | String "-"%char r => option_map Z.opp (parseInt_sem_sinal r)
  | String "+"%char r => parseInt_sem_sinal r
  | t => parseInt_sem_sinal t
  end.

(** [parseInt(s) || d]: [NaN] and [0] are falsy. *)
Definition parseInt_ou (s : string) (d : Z) : Z :=
  match parseInt s with
  | Some n => if n =? 0 then d else n
  | None => d
  end.

(** What the user does on the configuration panel, with the [onChange]
    and [onClick] handlers of the inputs and buttons.  The button
    Carregar Config runs [handleLoadConfig]: [loadResult] is the reply
    of [load-config], whose configuration, on success, replaces the
    state as it is.  (A file holding JSON of another shape than
    [CuttingConfig] is outside the type [Config.t].) *)
Inductive Acao : Type :=
| MudaStockWidth (value : string)
| MudaStockHeight (value : string)
| MudaWidth (index : nat) (value : string)
| MudaHeight (index : nat) (value : string)
| MudaQuantity (index : nat) (value : string)
| MudaRotation (index : nat) (checked : bool)
| MudaDescription (index : nat) (value : string)
| ClicaRemovePiece (index : nat)
| ClicaAddPiece
| MudaTimeLimit (value : string)
| ClicaCarregarConfig (loadResult : Resposta Config.t).

Definition aplicar (prev : Config.t) (a : Acao) : Config.t :=
  match a with
  | MudaStockWidth value =>
      Config.mk (parseInt_ou value 0) (Config.stock_height prev)
                (Config.pieces prev) (Config.time_limit prev)
  | MudaStockHeight value =>
      Config.mk (Config.stock_width prev) (parseInt_ou value 0)
                (Config.pieces prev) (Config.time_limit prev)
  | MudaWidth index value =>
      updatePiece index 0 (VNumber (parseInt_ou value 0)) prev
  | MudaHeight index value =>
      updatePiece index 1 (VNumber (parseInt_ou value 0)) prev
  | MudaQuantity index value =>
      updatePiece index 2 (VNumber (parseInt_ou value 0)) prev
  | MudaRotation index checked => updatePiece index 3 (VBoolean checked) prev
  | MudaDescription index value => updatePiece index 4 (VString value) prev
  | ClicaRemovePiece index => removePiece index prev
  | ClicaAddPiece => addPiece prev
  | MudaTimeLimit value =>
      Config.mk (Config.stock_width prev) (Config.stock_height prev)
                (Config.pieces prev) (parseInt_ou value 60)
  | ClicaCarregarConfig loadResult =>
      match loadResult with
      | SucessoConfig _ config _ => config
      | _ => prev
      end
  end.

(** The actions that edit the configuration in place: all but the
    loading of a file. *)
Definition edicao (a : Acao) : bool :=
  match a with
  | ClicaCarregarConfig _ => false
  | _ => true
  end.

(** A piece as the interface [CuttingConfig] declares it. *)
Definition bem_tipada (piece : Piece) : Prop :=
  match piece with
  | (VNumber _, VNumber _, VNumber _, VBoolean _, VString _) => True
  | _ => False
  end.

(** The states [result], [loading] and [error], and [handleOptimize]
    once the promise of [optimizeCutting] is in the state [resposta]
    ([Pendente]: the [await] is not over).  [mensagem] is the message of
    the error with which [invoke] rejects, given the one of the main
    process. *)
Module Tela.
Record t (Json : Type) : Type :=
  mk { result : option Json; loading : bool; error : option string }.
End Tela.

Definition handleOptimize {Json : Type} (isElectron : bool)
    (mensagem : string -> string) (resposta : Promessa Json)
    (tela : Tela.t Json) : Tela.t Json :=
  if isElectron then
    match resposta with
    | Pendente _ => Tela.mk Json None true None
    | Resolvida _ optimizationResult =>
        Tela.mk Json (Some optimizationResult) false None
    | Rejeitada _ message =>
        Tela.mk Json None false (Some (mensagem message))
    end
  else
    Tela.mk Json None false
            (Some "Esta aplicação deve ser executada no Electron"%string).

(** ** The arithmetic of the code: doubles

    [calcularArranjo] and [adicionarPeca] once more, on the numbers the
    code computes with.  A number is an integer that is a double; [None]
    and [ForaDoModelo] stand for what is outside: a fraction, [NaN],
    [Infinity], a magnitude beyond 2^900. *)

Module Js.

(** The double nearest to an integer, ties to the even mantissa: integers
    up to 2^53 in magnitude are doubles; a larger one keeps the 53 leading
    bits of its magnitude. *)
Definition arredondar (z : Z) : Z :=
  let a := Z.abs z in
  if a <=? 2 ^ 53 then z
  else
    let ulp := 2 ^ (Z.log2 a - 52) in
    let q := a / ulp in
    let r := a mod ulp in
    let q' := if 2 * r <? ulp then q
              else if ulp <? 2 * r then q + 1
              else if Z.even q then q else q + 1 in
    Z.sgn z * (q' * ulp).

(** [a + b] on doubles. *)
Definition mais (a b : Z) : Z := arredondar (a + b).

(** An integer that is a double, of a magnitude for which no sum of the
    loops overflows. *)
Definition numero (v : Z) : bool :=
  (arredondar v =? v) && (Z.abs v <=? 2 ^ 900).

(** A digit of the radix (2, 8, 10 or 16). *)
Definition digito_de (radix : Z) (c : ascii) : option Z :=
  match digito_hex c with
  | Some d => if d <? radix then Some d else None
  | None => None
  end.

(** The digits of the radix at the head of [s]: the value read after
    [acc], how many were read after [k], and what follows. *)
Fixpoint ler (radix : Z) (s : string) (acc : Z) (k : nat) : Z * nat * string :=
  match s with
  | EmptyString => (acc, k, s)
  | String c r =>
      match digito_de radix c with
      | Some d => ler radix r (radix * acc + d) (S k)
      | None => (acc, k, s)
      end
  end.

(** [0x], [0o] and [0b] literals: digits of the radix to the end. *)
Definition literal_de_base (radix : Z) (s : string) : option Z :=
  match ler radix s 0 0 with
  | (v, S _, EmptyString) => Some v
  | _ => None
  end.

(** The exponent part, empty or [e] or [E], an optional sign and decimal
    digits to the end. *)
Definition expoente (s : string) : option Z :=
  match s with
  | EmptyString => Some 0
  | String c r =>
      if ((nat_of_ascii c =? 101) || (nat_of_ascii c =? 69))%nat then
        match r with
        | String "-"%char r' =>
            match ler 10 r' 0 0 with
            | (v, S _, EmptyString) => Some (- v)
            | _ => None
            end
        | String "+"%char r' =>
            match ler 10 r' 0 0 with
            | (v, S _, EmptyString) => Some v
            | _ => None
            end
        | _ =>
            match ler 10 r 0 0 with
            | (v, S _, EmptyString) => Some v
            | _ => None
            end
        end
      else None
  end.

(** [m * 10^k] when it is an integer ([None] also for an exponent
    beyond 400 in magnitude, unless [m] is 0). *)
Definition escalar (m k : Z) : option Z :=
  if m =? 0 then Some 0
  else if 0 <=? k then
    if k <=? 400 then Some (m * 10 ^ k) else None
  else if - k <=? 400 then
    if m mod 10 ^ (- k) =? 0 then Some (m / 10 ^ (- k)) else None
  else None.

(** An unsigned decimal literal: digits, an optional point and digits
    (with a digit on one side of the point at least), an optional
    exponent. *)
Definition decimal (s : string) : option Z :=
  let '(m1, k1, r1) := ler 10 s 0 0 in
  match r1 with
  | String "."%char r =>
      let '(m2, k2, r2) := ler 10 r m1 0 in
      match (k1 + k2)%nat, expoente r2 with
      | S _, Some e => escalar m2 (e - Z.of_nat k2)
      | _, _ => None
      end
  | _ =>
      match k1, expoente r1 with
      | S _, Some e => escalar m1 e
      | _, _ => None
      end
  end.

(** The value of a numeric literal, when it is an integer: the empty
    literal, a literal of radix 16, 8 or 2 (unsigned), or a decimal
    literal with an optional sign. *)
Definition literal (t : string) : option Z :=
  match t with
  | EmptyString => Some 0
  | String "0"%char (String "x"%char r)
  | String "0"%char (String "X"%char r) => literal_de_base 16 r
  | String "0"%char (String "o"%char r)
  | String "0"%char (String "O"%char r) => literal_de_base 8 r
  | String "0"%char (String "b"%char r)
  | String "0"%char (String "B"%char r) => literal_de_base 2 r
  | String "-"%char r => option_map Z.opp (decimal r)
  | String "+"%char r => decimal r
  | _ => decimal t
  end.

(** [Number(s)], when its value is an integer of magnitude at most
    2^900: white space around the literal is ignored, and the result is
    the double nearest to the value of the literal.  [None]: the string
    is read as [NaN], as [Infinity], as a number with a fraction or as a
    larger number (or is written with an exponent beyond 400); these are
    outside the model. *)
Definition Number (s : string) : option Z :=
  match literal (trim s) with
  | Some v => if Z.abs v <=? 2 ^ 900 then Some (arredondar v) else None
  | None => None
  end.

(** [adicionarPeca].  [None]: a field is read as a value outside the
    model. *)
Definition adicionarPeca (form : Form.t) (pecas : list Peca.t)
  : option (list Peca.t * Form.t) :=
  if falsy (Form.largura form) || falsy (Form.altura form)
     || falsy (Form.quantidade form)
  then Some (pecas, form)
  else
    match Number (Form.largura form), Number (Form.altura form),
          Number (Form.quantidade form) with
    | Some l, Some a, Some q =>
        Some (pecas ++ [Peca.mk l a q], Form.mk EmptyString EmptyString EmptyString)
    | _, _, _ => None
    end.

Section Laco.

Variable larguraRolo : Z.
Variable comprimentoMax : Limite.

(** The inner [while (i < todasPecas.length)], as above, with the sums
    [x + peca.largura] and [y + shelfAltura] on doubles. *)
Fixpoint preencher (n : nat) (yy shelfAltura : Z) (i : nat) (x : Z)
    (todas : list Item.t) (res : list Posicao.t)
  : list Item.t * list Posicao.t :=
  match n with
  | O => (todas, res)
  | S n' =>
      match todas !! i with
      | None => (todas, res)
      | Some peca =>
          if mais x (Item.largura peca) <=? larguraRolo then
            if menor_ou_igual (mais yy shelfAltura) comprimentoMax then
              preencher n' yy shelfAltura i (mais x (Item.largura peca))
                (delete i todas)
                (res ++ [Posicao.mk x yy (Item.largura peca) (Item.altura peca)])
            else
              preencher n' yy shelfAltura (length todas) x todas res
          else
            preencher n' yy shelfAltura (S i) x todas res
      end
  end.

(** The body of the outer loop up to the [break] test. *)
Definition prateleira (s : Estado) (shelfAltura : Z) : Estado :=
  let '(todas, res) :=
    preencher (S (length (todasPecas s))) (y s) shelfAltura 0%nat 0
              (todasPecas s) (resultado s) in
  {| todasPecas := todas; resultado := res;
     y := y s; comprimentoTotal := comprimentoTotal s |}.

(** [y += shelfAltura; comprimentoTotal += shelfAltura]. *)
Definition avancar (s : Estado) (shelfAltura : Z) : Estado :=
  {| todasPecas := todasPecas s; resultado := resultado s;
     y := mais (y s) shelfAltura;
     comprimentoTotal := mais (comprimentoTotal s) shelfAltura |}.

(** The outer [while (todasPecas.length > 0)].  [None]: the loop is
    still running after [n] iterations. *)
Fixpoint laco (n : nat) (s : Estado) : option Estado :=
  match todasPecas s with
  | [] => Some s
  | primeira :: _ =>
      match n with
      | O => None
      | S n' =>
          let shelfAltura := Item.altura primeira in
          let s1 := prateleira s shelfAltura in
          if maior (mais (y s) shelfAltura) comprimentoMax then Some s1
          else laco n' (avancar s1 shelfAltura)
      end
  end.

(** The heights of the shelves after which the loop went on, in
    order. *)
Fixpoint prateleiras (n : nat) (s : Estado) : list Z :=
  match todasPecas s with
  | [] => []
  | primeira :: _ =>
      match n with
      | O => []
      | S n' =>
          let shelfAltura := Item.altura primeira in
          let s1 := prateleira s shelfAltura in
          if maior (mais (y s) shelfAltura) comprimentoMax then []
          else shelfAltura :: prateleiras n' (avancar s1 shelfAltura)
      end
  end.

End Laco.

(** [Number(comprimentoRolo) > 0 ? Number(comprimentoRolo) : Infinity],
    when the text is read as a number of the model. *)
Definition comprimentoMax_de (comprimentoRolo : string) : option Limite :=
  match Number comprimentoRolo with
  | Some n => Some (if 0 <? n then Finito n else Infinity)
  | None => None
  end.

(** The roll width and the sizes of the instances are numbers of the
    model. *)
Definition modelado (itens : list Item.t) (larguraRolo : Z) : bool :=
  numero larguraRolo
  && forallb (fun it => numero (Item.largura it) && numero (Item.altura it))
             itens.

(** How a call of [calcularArranjo] ends: the [RangeError] of the
    expansion, what it stores, still in the loop after [n] shelves, or
    an input outside the model. *)
Inductive Saida : Type :=
| RangeError
| Retorna (r : Resultado)
| EmCurso
| ForaDoModelo.

Definition calcularArranjo (n : nat) (pecas : list Peca.t) (larguraRolo : Z)
    (comprimentoRolo : string) : Saida :=
  match expandir pecas with
  | None => RangeError
  | Some itens =>
      match comprimentoMax_de comprimentoRolo with
      | None => ForaDoModelo
      | Some comprimentoMax =>
          if modelado itens larguraRolo then
            match laco larguraRolo comprimentoMax n (estado_inicial itens) with
            | None => EmCurso
            | Some s =>
                Retorna {| arranjo := resultado s;
                           comprimentoUtilizado := comprimentoTotal s |}
            end
          else ForaDoModelo
      end
  end.

(** The inner loop as a traversal of the part of [todasPecas] not yet
    scanned, for the proofs. *)
Fixpoint varrer (larguraRolo : Z) (cabe : bool) (yy x : Z) (l : list Item.t)
  : list Posicao.t * list Item.t :=
  match l with
  | [] => ([], [])
  | peca :: r =>
      if mais x (Item.largura peca) <=? larguraRolo then
        if cabe then
          let '(c, k) := varrer larguraRolo cabe yy (mais x (Item.largura peca)) r in
          (Posicao.mk x yy (Item.largura peca) (Item.altura peca) :: c, k)
        else ([], peca :: r)
      else
        let '(c, k) := varrer larguraRolo cabe yy x r in (c, peca :: k)
  end.

End Js.

(** The invariant of the outer loop that no arithmetic is needed for. *)
Record InvJ (itens : list Item.t) (s : Estado) : Prop :=
  { invj_ordem : decrescente (todasPecas s);
    invj_perm : itens ≡ₚ (item_de <$> resultado s) ++ todasPecas s;
    invj_y : y s = comprimentoTotal s }.

(** The sum of the heights of all the instances requested. *)
Definition altura_total (pecas : list Peca.t) : Z :=
  soma ((fun p => Peca.quantidade p * Peca.altura p) <$> pecas).

(** Sizes on which the sums of the loops are exact: widths and heights
    are integers from 0 to 2^53, the roll width is below 2^53 in
    magnitude, the roll length is read as an integer below 2^53 and, when
    it does not bound the roll, the heights of all the instances add up
    to 2^53 at most. *)
Definition medidas_exatas (pecas : list Peca.t) (larguraRolo : Z)
    (comprimentoRolo : string) : Prop :=
  Forall (fun p => 0 <= Peca.largura p <= 2 ^ 53
                   /\ 0 <= Peca.altura p <= 2 ^ 53) pecas
  /\ - 2 ^ 53 <= larguraRolo < 2 ^ 53
  /\ exists c, Js.Number comprimentoRolo = Some c
               /\ c < 2 ^ 53
               /\ (c <= 0 -> altura_total pecas <= 2 ^ 53).

(** A length bound that is exact in the comparisons. *)
Definition limite_exato (m : Limite) : Prop :=
  match m with
  | Finito b => b < 2 ^ 53
  | Infinity => True
  end.

(** A state of the outer loop from which every sum computed is exact. *)
Record Exato (larguraRolo : Z) (comprimentoMax : Limite) (s : Estado) : Prop :=
  { ex_largura : larguraRolo < 2 ^ 53;
    ex_y : 0 <= y s;
    ex_total : y s = comprimentoTotal s;
    ex_pecas : Forall (fun it => 0 <= Item.largura it /\ 0 <= Item.altura it)
                      (todasPecas s);
    ex_limite : match comprimentoMax with
                | Finito b => b < 2 ^ 53
                | Infinity =>
                    y s + soma (Item.altura <$> todasPecas s) <= 2 ^ 53
                end }.

(** Sizes and roll width that are doubles of the model. *)
Definition medidas_modeladas (pecas : list Peca.t) (larguraRolo : Z) : Prop :=
  Js.numero larguraRolo = true
  /\ Forall (fun p => Js.numero (Peca.largura p) = true
                      /\ Js.numero (Peca.altura p) = true) pecas.

(** The placements of a call of [calcularArranjo], when it returns. *)
Definition colocacoes (s : Js.Saida) : option (list Posicao.t) :=
  match s with
  | Js.Retorna r => Some (arranjo r)
  | _ => None
  end.

(** * Properties

    The loops with exact sums come first; then the loops on doubles, how
    the two agree, and the claims about the shelf placement; then the
    handler of the main process; then further properties of the code. *)

(** ** The inner loop *)

Section Varrer.

Variable larguraRolo : Z.
Variable comprimentoMax : Limite.

Lemma preencher_varrer n yy h i x todas res :
  (length todas - i < n)%nat ->
  preencher larguraRolo comprimentoMax n yy h i x todas res
  = let '(c, k) :=
      varrer larguraRolo (menor_ou_igual (yy + h) comprimentoMax) yy x
             (drop i todas) in
    (take i todas ++ k, res ++ c).
Proof.
  revert i x todas res.
  induction n as [|n IH]; intros i x todas res Hn; [lia|].
  cbn [preencher].
  destruct (todas !! i) as [peca|] eqn:Hi.
  - pose proof (lookup_lt_Some _ _ _ Hi) as Hlt.
    rewrite (drop_S _ _ _ Hi). cbn [varrer].
    destruct (x + Item.largura peca <=? larguraRolo).
    + destruct (menor_ou_igual (yy + h) comprimentoMax) eqn:Hc.
      * rewrite IH by (rewrite length_delete by eauto; lia).
        rewrite delete_take_drop.
        rewrite drop_app_length' by (rewrite length_take; lia).
        rewrite take_app_length' by (rewrite length_take; lia).
        destruct (varrer _ _ _ _ _) as [c k].
        by rewrite <- app_assoc.
      * rewrite IH by lia.
        rewrite drop_all, firstn_all. cbn.
        rewrite !app_nil_r. f_equal.
        rewrite <- (take_drop i todas) at 1.
        by rewrite (drop_S _ _ _ Hi).
    + rewrite IH by lia.
      destruct (varrer _ _ _ _ _) as [c k].
      rewrite (take_S_r _ _ _ Hi). by rewrite <- app_assoc.
  - apply lookup_ge_None in Hi.
    rewrite drop_ge, take_ge by lia. cbn. by rewrite !app_nil_r.
Qed.

Lemma prateleira_varrer s h :
  prateleira larguraRolo comprimentoMax s h
  = let '(c, k) :=
      varrer larguraRolo (menor_ou_igual (y s + h) comprimentoMax) (y s) 0
             (todasPecas s) in
    {| todasPecas := k; resultado := resultado s ++ c;
       y := y s; comprimentoTotal := comprimentoTotal s |}.
Proof.
  unfold prateleira. rewrite preencher_varrer by lia.
  rewrite drop_0. cbn. by destruct (varrer _ _ _ _ _).
Qed.

End Varrer.

Section VarrerFatos.

Variable larguraRolo : Z.

Lemma varrer_nao_cabe yy x l :
  varrer larguraRolo false yy x l = ([], l).
Proof.
  revert x. induction l as [|peca r IH]; intros x; cbn; [done|].
  destruct (x + Item.largura peca <=? larguraRolo); [done|].
  by rewrite IH.
Qed.

Lemma varrer_perm cabe yy x l c k :
  varrer larguraRolo cabe yy x l = (c, k) ->
  l ≡ₚ (item_de <$> c) ++ k.
Proof.
  revert x c k. induction l as [|[w h] r IH]; intros x c k; cbn.
  - by intros [= <- <-].
  - destruct (x + w <=? larguraRolo).
    + destruct cabe.
      * destruct (varrer _ _ _ _ _) as [c' k'] eqn:E.
        intros [= <- <-]. cbn. unfold item_de at 1. cbn.
        constructor. by eapply IH.
      * by intros [= <- <-].
    + destruct (varrer _ _ _ _ _) as [c' k'] eqn:E.
      intros [= <- <-]. rewrite <- Permutation_middle.
      constructor. by eapply IH.
Qed.

Lemma varrer_sublist cabe yy x l c k :
  varrer larguraRolo cabe yy x l = (c, k) -> sublist k l.
Proof.
  revert x c k. induction l as [|peca r IH]; intros x c k; cbn.
  - by intros [= <- <-].
  - destruct (x + Item.largura peca <=? larguraRolo).
    + destruct cabe.
      * destruct (varrer _ _ _ _ _) as [c' k'] eqn:E.
        intros [= <- <-]. apply sublist_cons. by eapply IH.
      * by intros [= <- <-].
    + destruct (varrer _ _ _ _ _) as [c' k'] eqn:E.
      intros [= <- <-]. apply sublist_skip. by eapply IH.
Qed.

Lemma varrer_encadeadas cabe yy x l c k :
  varrer larguraRolo cabe yy x l = (c, k) ->
  encadeadas larguraRolo yy x c.
Proof.
  revert x c k. induction l as [|peca r IH]; intros x c k; cbn.
  - by intros [= <- <-].
  - destruct (x + Item.largura peca <=? larguraRolo) eqn:Hw.
    + destruct cabe.
      * destruct (varrer _ _ _ _ _) as [c' k'] eqn:E.
        intros [= <- <-]. cbn. apply Z.leb_le in Hw.
        repeat split; [done|]. by eapply IH.
      * by intros [= <- <-].
    + destruct (varrer _ _ _ _ _) as [c' k'] eqn:E.
      intros [= <- <-]. by eapply IH.
Qed.

Lemma varrer_altura cabe yy x l c k h :
  varrer larguraRolo cabe yy x l = (c, k) ->
  Forall (fun it => Item.altura it <= h) l ->
  Forall (fun p => Posicao.altura p <= h) c.
Proof.
  intros E Hl. apply varrer_perm in E.
  rewrite E in Hl. apply Forall_app in Hl as [Hc _].
  by rewrite Forall_fmap in Hc.
Qed.

(** The first piece of a shelf that fits the length is placed when it
    fits the width: the list of pieces gets shorter. *)
Lemma varrer_coloca yy peca r :
  0 + Item.largura peca <= larguraRolo ->
  (length (snd (varrer larguraRolo true yy 0 (peca :: r))) <= length r)%nat.
Proof.
  intros Hw. cbn [varrer].
  apply Z.leb_le in Hw. rewrite Hw.
  destruct (varrer _ _ _ _ _) as [c k] eqn:E. cbn.
  apply varrer_sublist in E. by apply sublist_length.
Qed.

End VarrerFatos.

Lemma decrescente_sublist k l : sublist k l -> decrescente l -> decrescente k.
Proof.
  unfold decrescente. intros Hs Hl. revert k Hs.
  induction Hl as [|a l Hl IH Ha]; intros k Hs.
  - apply sublist_nil_r in Hs as ->. constructor.
  - apply sublist_cons_r in Hs as [Hs|(k' & -> & Hs)]; [by apply IH|].
    constructor; [by apply IH|].
    eapply Forall_forall. intros b Hb.
    eapply (proj1 (Forall_forall _ _) Ha). by eapply elem_of_sublist.
Qed.

Lemma decrescente_cabeca a l :
  decrescente (a :: l) -> Forall (fun it => Item.altura it <= Item.altura a) (a :: l).
Proof.
  intros H. apply StronglySorted_inv in H as [_ H].
  constructor; [lia|done].
Qed.

Lemma soma_app l h : soma (l ++ [h]) = soma l + h.
Proof. unfold soma. induction l as [|a l IH]; cbn; lia. Qed.

Lemma encadeadas_y larguraRolo yy x0 c :
  encadeadas larguraRolo yy x0 c -> Forall (fun p => Posicao.y p = yy) c.
Proof.
  revert x0. induction c as [|p c IH]; intros x0; cbn; [constructor|].
  intros (_ & Hy & _ & Hc). constructor; [done|]. by eapply IH.
Qed.

Lemma menor_ou_igual_mono v w m :
  v <= w -> menor_ou_igual w m = true -> menor_ou_igual v m = true.
Proof. destruct m; cbn; [|done]. lia. Qed.

(** ** Sorting *)

Lemma inserir_perm a l : inserir a l ≡ₚ a :: l.
Proof.
  induction l as [|b r IH]; cbn; [done|].
  destruct (Item.altura a <? Item.altura b); [|done].
  rewrite IH. apply perm_swap.
Qed.

Lemma ordenar_perm l : ordenar l ≡ₚ l.
Proof.
  induction l as [|a l IH]; cbn; [done|].
  fold (ordenar l). by rewrite inserir_perm, IH.
Qed.

Lemma inserir_decrescente a l : decrescente l -> decrescente (inserir a l).
Proof.
  unfold decrescente. induction 1 as [|b r Hr IH Hb]; cbn.
  - repeat constructor.
  - destruct (Item.altura a <? Item.altura b) eqn:E.
    + apply Z.ltb_lt in E. constructor; [done|].
      rewrite inserir_perm. constructor; [lia|done].
    + apply Z.ltb_ge in E. constructor; [by constructor|].
      constructor; [done|].
      eapply Forall_impl; [exact Hb|]. cbn. intros; lia.
Qed.

Lemma ordenar_decrescente l : decrescente (ordenar l).
Proof.
  induction l as [|a l IH]; cbn; [constructor|].
  by apply inserir_decrescente.
Qed.

(** ** The outer loop keeps the invariant *)

Lemma menor_ou_igual_maior v m : menor_ou_igual v m = negb (maior v m).
Proof. destruct m; cbn; [|done]. lia. Qed.

Section Invariante.

Variable larguraRolo : Z.
Variable comprimentoMax : Limite.
Variable itens : list Item.t.

Lemma inv_inicial : Inv larguraRolo itens [] (estado_inicial itens).
Proof.
  split; cbn.
  - apply ordenar_decrescente.
  - by rewrite ordenar_perm.
  - constructor.
  - constructor.
  - done.
  - done.
Qed.

Lemma prateleira_parou s peca :
  maior (y s + Item.altura peca) comprimentoMax = true ->
  prateleira larguraRolo comprimentoMax s (Item.altura peca) = s.
Proof.
  intros Hm. rewrite prateleira_varrer.
  rewrite menor_ou_igual_maior, Hm. cbn [negb].
  rewrite varrer_nao_cabe, app_nil_r. by destruct s.
Qed.

Lemma inv_seguiu hs s peca r :
  Inv larguraRolo itens hs s ->
  todasPecas s = peca :: r ->
  maior (y s + Item.altura peca) comprimentoMax = false ->
  Inv larguraRolo itens (hs ++ [Item.altura peca])
      (avancar (prateleira larguraRolo comprimentoMax s (Item.altura peca))
               (Item.altura peca)).
Proof.
  intros [Ho Hp He Ha Hy Ht] Hs Hm. rewrite prateleira_varrer.
  destruct (varrer _ _ _ _ _) as [c k] eqn:E.
  split; unfold avancar; cbn.
  - eapply decrescente_sublist; [|exact Ho]. by eapply varrer_sublist.
  - rewrite Hp. apply varrer_perm in E. rewrite E.
    rewrite fmap_app. by rewrite <- app_assoc.
  - constructor; [done| |].
    + rewrite <- Hy. by eapply varrer_encadeadas.
    + eapply varrer_altura; [exact E|].
      rewrite Hs. apply decrescente_cabeca. by rewrite <- Hs.
  - apply Forall_app. split; [done|].
    constructor; [|done]. exists peca. split; [|done].
    rewrite Hp, Hs. apply elem_of_app. right. by left.
  - rewrite soma_app. lia.
  - rewrite soma_app. lia.
Qed.

Lemma laco_inv n s s' hs :
  Inv larguraRolo itens hs s ->
  laco larguraRolo comprimentoMax n s = Some s' ->
  Inv larguraRolo itens (hs ++ prateleiras larguraRolo comprimentoMax n s) s'.
Proof.
  revert s hs. induction n as [|n IH]; intros s hs HI; cbn.
  - destruct (todasPecas s); [|done].
    intros [= <-]. by rewrite app_nil_r.
  - destruct (todasPecas s) as [|peca r] eqn:Hs.
    { intros [= <-]. by rewrite app_nil_r. }
    destruct (maior (y s + Item.altura peca) comprimentoMax) eqn:Hm.
    + intros [= <-]. rewrite app_nil_r.
      by rewrite prateleira_parou.
    + intros Hl. apply (IH _ (hs ++ [Item.altura peca])) in Hl.
      * by rewrite <- app_assoc in Hl.
      * by eapply inv_seguiu.
Qed.

End Invariante.

(** ** Geometry of a stack of shelves *)

Lemma StronglySorted_app_intro {A} (R : A -> A -> Prop) l1 l2 :
  StronglySorted R l1 -> StronglySorted R l2 ->
  (forall a b, a ∈ l1 -> b ∈ l2 -> R a b) ->
  StronglySorted R (l1 ++ l2).
Proof.
  intros H1 H2 H. induction H1 as [|a l1 H1 IH Ha]; cbn; [done|].
  constructor.
  - apply IH. intros a' b Ha' Hb. apply H; [by right|done].
  - apply Forall_app. split; [done|].
    apply Forall_forall. intros b Hb. apply H; [by left|done].
Qed.

Lemma StronglySorted_lookup {A} (R : A -> A -> Prop) l i j a b :
  StronglySorted R l -> (i < j)%nat ->
  l !! i = Some a -> l !! j = Some b -> R a b.
Proof.
  intros H. revert i j. induction H as [|c l H IH Hc]; intros i j Hij Hi Hj.
  - done.
  - destruct j as [|j]; [lia|]. cbn in Hj.
    destruct i as [|i]; cbn in Hi.
    + injection Hi as ->.
      eapply (proj1 (Forall_forall _ _) Hc). by eapply list_elem_of_lookup_2.
    + eapply (IH i j); [lia|done..].
Qed.

Section Geometria.

Variable larguraRolo : Z.

Lemma encadeadas_fatos yy x0 c :
  encadeadas larguraRolo yy x0 c ->
  Forall (fun p => 0 <= Posicao.largura p) c ->
  Forall (fun p => x0 <= Posicao.x p /\ Posicao.y p = yy
                   /\ Posicao.x p + Posicao.largura p <= larguraRolo) c
  /\ StronglySorted
       (fun a b => Posicao.y a = Posicao.y b
                   /\ Posicao.x a + Posicao.largura a <= Posicao.x b) c.
Proof.
  revert x0. induction c as [|p c IH]; intros x0; cbn.
  - intros _ _. split; constructor.
  - intros (Hx & Hy & Hw & Hc) Hpos.
    apply Forall_cons in Hpos as [Hp Hpos].
    destruct (IH _ Hc Hpos) as [IH1 IH2]. split.
    + constructor; [lia|].
      eapply Forall_impl; [exact IH1|]. cbn. intros; lia.
    + constructor; [done|].
      eapply Forall_impl; [exact IH1|]. cbn. intros; lia.
Qed.

Lemma Empilhado_geometria hs res :
  Empilhado larguraRolo hs res ->
  Forall (fun p => 0 <= Posicao.largura p) res ->
  Forall (fun h => 0 <= h) hs ->
  0 <= soma hs
  /\ Forall (dentro larguraRolo (soma hs)) res
  /\ StronglySorted separadas res.
Proof.
  induction 1 as [|hs res h c He IH Hc Hh]; intros Hw Hpos.
  - cbn. repeat split; [lia|constructor..].
  - apply Forall_app in Hw as [Hw1 Hw2].
    apply Forall_app in Hpos as [Hpos1 Hpos2].
    apply Forall_cons in Hpos2 as [Hh0 _].
    destruct (IH Hw1 Hpos1) as (Hs & Hd & Ho).
    destruct (encadeadas_fatos _ _ _ Hc Hw2) as [Hc1 Hc2].
    rewrite soma_app. split; [lia|]. split.
    + apply Forall_app. split.
      * eapply Forall_impl; [exact Hd|]. unfold dentro. intros; lia.
      * apply Forall_forall. intros p Hp. unfold dentro.
        pose proof (proj1 (Forall_forall _ _) Hc1 p Hp).
        pose proof (proj1 (Forall_forall _ _) Hh p Hp). cbn in *. lia.
    + apply StronglySorted_app_intro.
      * done.
      * clear -Hc2. induction Hc2 as [|a c Hc2 IH Ha]; constructor; [done|].
        eapply Forall_impl; [exact Ha|]. intros b Hb. by right.
      * intros a b Ha Hb. left.
        pose proof (proj1 (Forall_forall _ _) Hd a Ha) as Hda.
        pose proof (proj1 (Forall_forall _ _) Hc1 b Hb) as Hcb.
        unfold dentro in Hda. cbn in Hcb. lia.
Qed.

End Geometria.

(** ** From the pieces entered to the loop *)

Lemma Array_fill_elem n v l it :
  Array_fill n v = Some l -> it ∈ l -> it = v /\ 0 < n.
Proof.
  unfold Array_fill.
  destruct ((0 <=? n) && (n <? 2 ^ 32)) eqn:E; [|done].
  intros [= <-] Hin. apply elem_of_replicate in Hin as [-> Hn].
  split; [done|]. lia.
Qed.

Lemma expandir_elem pecas itens it :
  expandir pecas = Some itens -> it ∈ itens ->
  exists p, p ∈ pecas /\ 0 < Peca.quantidade p
            /\ Item.largura it = Peca.largura p
            /\ Item.altura it = Peca.altura p.
Proof.
  revert itens. induction pecas as [|p pecas IH]; intros itens; cbn.
  - intros [= <-] Hin. by apply elem_of_nil in Hin.
  - destruct (Array_fill _ _) as [copias|] eqn:Ea; [|done].
    destruct (expandir pecas) as [outras|]; [|done].
    intros [= <-] Hin. apply elem_of_app in Hin as [Hin|Hin].
    + destruct (Array_fill_elem _ _ _ _ Ea Hin) as [-> Hq].
      exists p. repeat split; [by left|done].
    + destruct (IH _ eq_refl Hin) as (q & Hq & ?).
      exists q. split; [by right|done].
Qed.

Lemma expandir_positivas pecas itens :
  pecas_positivas pecas -> expandir pecas = Some itens ->
  Forall (fun it => 0 < Item.largura it /\ 0 < Item.altura it) itens.
Proof.
  intros Hp He. apply Forall_forall. intros it Hin.
  destruct (expandir_elem _ _ _ He Hin) as (p & Hin' & _ & -> & ->).
  exact (proj1 (Forall_forall _ _) Hp p Hin').
Qed.

Lemma inv_itens (P : Z -> Z -> Prop) larguraRolo itens hs s :
  Inv larguraRolo itens hs s ->
  Forall (fun it => P (Item.largura it) (Item.altura it)) itens ->
  Forall (fun p => P (Posicao.largura p) (Posicao.altura p)) (resultado s)
  /\ Forall (fun h => exists w, P w h) hs.
Proof.
  intros [_ Hp _ Ha _ _] Hi. split.
  - rewrite Hp in Hi. apply Forall_app in Hi as [Hi _].
    by rewrite Forall_fmap in Hi.
  - eapply Forall_impl; [exact Ha|]. cbn. intros h (it & Hin & <-).
    exists (Item.largura it).
    exact (proj1 (Forall_forall _ _) Hi it Hin).
Qed.

Lemma expandir_nao_negativas pecas itens :
  pecas_nao_negativas pecas -> expandir pecas = Some itens ->
  Forall (fun it => 0 <= Item.largura it /\ 0 <= Item.altura it) itens.
Proof.
  intros Hp He. apply Forall_forall. intros it Hin.
  destruct (expandir_elem _ _ _ He Hin) as (p & Hin' & _ & -> & ->).
  exact (proj1 (Forall_forall _ _) Hp p Hin').
Qed.

Lemma positivas_nao_negativas pecas :
  pecas_positivas pecas -> pecas_nao_negativas pecas.
Proof.
  unfold pecas_positivas, pecas_nao_negativas. intros H.
  eapply Forall_impl; [exact H|]. cbn. intros; lia.
Qed.

Lemma inv_geometria larguraRolo itens hs s :
  Inv larguraRolo itens hs s ->
  Forall (fun it => 0 <= Item.largura it /\ 0 <= Item.altura it) itens ->
  Forall (dentro larguraRolo (comprimentoTotal s)) (resultado s)
  /\ StronglySorted separadas (resultado s).
Proof.
  intros HI Hi.
  destruct (inv_itens (fun w h => 0 <= w /\ 0 <= h) _ _ _ _ HI Hi) as [Hw Hh].
  destruct HI as [_ _ He _ _ Ht]. rewrite Ht.
  apply Empilhado_geometria.
  - done.
  - eapply Forall_impl; [exact Hw|]. cbn. intros; lia.
  - eapply Forall_impl; [exact Hh|]. cbn. intros h [w ?]; lia.
Qed.

Lemma separadas_sobrepoe a b :
  separadas a b -> sobrepoe a b = false /\ sobrepoe b a = false.
Proof.
  unfold separadas, sobrepoe. intros H.
  split; apply not_true_is_false; rewrite !andb_true_iff, !Z.ltb_lt; lia.
Qed.

(** ** The length bound *)


(** ** The consumed length *)

Lemma Empilhado_topo larguraRolo hs res :
  Empilhado larguraRolo hs res ->
  Forall (fun h => 0 <= h) hs ->
  0 <= soma hs
  /\ Forall (fun p => Posicao.y p + Posicao.altura p <= soma hs) res.
Proof.
  induction 1 as [|hs res h c He IH Hc Hh]; intros Hpos.
  - split; [done|constructor].
  - apply Forall_app in Hpos as [Hpos1 Hpos2].
    apply Forall_cons in Hpos2 as [Hh0 _].
    destruct (IH Hpos1) as [Hs Ht]. rewrite soma_app.
    split; [lia|]. apply Forall_app. split.
    + eapply Forall_impl; [exact Ht|]. cbn. intros; lia.
    + apply encadeadas_y in Hc. apply Forall_forall. intros p Hp.
      pose proof (proj1 (Forall_forall _ _) Hc p Hp) as Hy.
      pose proof (proj1 (Forall_forall _ _) Hh p Hp) as Ha.
      cbn in Hy, Ha. lia.
Qed.

(** ** The order of the placements *)

Lemma separadas_em_ordem a b :
  0 < Posicao.largura a -> 0 < Posicao.altura a ->
  separadas a b -> em_ordem a b.
Proof. unfold separadas, em_ordem. lia. Qed.

Lemma StronglySorted_forte {A} (P : A -> Prop) (R R' : A -> A -> Prop) l :
  (forall a b, P a -> R a b -> R' a b) ->
  Forall P l -> StronglySorted R l -> StronglySorted R' l.
Proof.
  intros H HP HS. induction HS as [|a l HS IH Ha]; [constructor|].
  apply Forall_cons in HP as [Pa HP].
  constructor; [by apply IH|].
  eapply Forall_impl; [exact Ha|]. intros b. by apply H.
Qed.

(** ** Every instance is placed or left over *)


(** ** Termination *)

Lemma expandir_Some pecas :
  Forall (fun p => 0 <= Peca.quantidade p < 2 ^ 32) pecas ->
  exists itens, expandir pecas = Some itens.
Proof.
  induction 1 as [|p pecas Hp _ [outras IH]]; cbn; [by eexists|].
  unfold Array_fill.
  destruct ((0 <=? Peca.quantidade p) && (Peca.quantidade p <? 2 ^ 32)) eqn:E.
  - rewrite IH. by eexists.
  - apply andb_false_iff in E as [E|E]; lia.
Qed.

(** With a finite bound and pieces of positive height, [y] grows by at
    least 1 at every shelf that does not stop the loop. *)
Lemma laco_termina_limitado larguraRolo b n s :
  Forall (fun it => 0 < Item.altura it) (todasPecas s) ->
  b - y s < Z.of_nat n ->
  exists s', laco larguraRolo (Finito b) (S n) s = Some s'.
Proof.
  revert s. induction n as [|n IH]; intros s Hpos Hn.
  - cbn. destruct (todasPecas s) as [|peca r] eqn:E; [by eexists|].
    apply Forall_cons in Hpos as [Hp _].
    destruct (b <? y s + Item.altura peca) eqn:Hm; [by eexists|]. lia.
  - cbn [laco]. destruct (todasPecas s) as [|peca r] eqn:E; [by eexists|].
    pose proof Hpos as Hpos'. apply Forall_cons in Hpos' as [Hp _].
    cbn [maior].
    destruct (b <? y s + Item.altura peca) eqn:Hm; [by eexists|].
    apply IH.
    + rewrite prateleira_varrer.
      destruct (varrer _ _ _ _ _) as [c k] eqn:Ev. cbn.
      apply varrer_sublist in Ev. rewrite E in Ev.
      eapply Forall_forall. intros it Hin.
      eapply (proj1 (Forall_forall _ _) Hpos). by eapply elem_of_sublist.
    + rewrite prateleira_varrer. destruct (varrer _ _ _ _ _). cbn. lia.
Qed.

(** When every piece fits the roll width, every shelf that does not stop
    the loop takes at least its first piece: as many shelves as pieces
    are enough, bounded roll or not. *)
Lemma laco_termina_cabem larguraRolo comprimentoMax n s :
  Forall (fun it => Item.largura it <= larguraRolo) (todasPecas s) ->
  (length (todasPecas s) <= n)%nat ->
  exists s', laco larguraRolo comprimentoMax n s = Some s'.
Proof.
  revert s. induction n as [|n IH]; intros s Hw Hn.
  - cbn. destruct (todasPecas s); [by eexists|cbn in Hn; lia].
  - cbn [laco]. destruct (todasPecas s) as [|peca r] eqn:E; [by eexists|].
    destruct (maior (y s + Item.altura peca) comprimentoMax) eqn:Hm;
      [by eexists|].
    pose proof Hw as Hw'. apply Forall_cons in Hw' as [Hp _].
    pose proof (varrer_coloca larguraRolo (y s) peca r ltac:(lia)) as Hk.
    apply IH.
    + rewrite prateleira_varrer, menor_ou_igual_maior, Hm, E. cbn [negb].
      destruct (varrer _ _ _ _ _) as [c k] eqn:Ev. cbn.
      apply varrer_sublist in Ev.
      eapply Forall_forall. intros it Hin.
      eapply (proj1 (Forall_forall _ _) Hw). by eapply elem_of_sublist.
    + rewrite prateleira_varrer, menor_ou_igual_maior, Hm, E. cbn [negb].
      destruct (varrer _ _ _ _ _) as [c k] eqn:Ev. cbn in *. lia.
Qed.

(** X28. When every piece fits the roll width (and the quantities can
    be expanded), [calcularArranjo] returns, whether the roll is bounded
    or not. *)
Theorem calcularArranjo_termina_cabem pecas larguraRolo comprimentoRolo :
  Forall (fun p => Peca.largura p <= larguraRolo) pecas ->
  Forall (fun p => 0 <= Peca.quantidade p < 2 ^ 32) pecas ->
  exists n r, calcularArranjo n pecas larguraRolo comprimentoRolo = Retorna r.
Proof.
  intros Hw Hq. destruct (expandir_Some _ Hq) as [itens He].
  destruct (laco_termina_cabem larguraRolo (comprimentoMax_de comprimentoRolo)
              (length itens) (estado_inicial itens)) as [s Hs].
  - cbn. rewrite ordenar_perm. apply Forall_forall. intros it Hit.
    destruct (expandir_elem _ _ _ He Hit) as (p & Hp & _ & -> & _).
    exact (proj1 (Forall_forall _ _) Hw p Hp).
  - cbn. by rewrite ordenar_perm.
  - exists (length itens). eexists. unfold calcularArranjo.
    by rewrite He, Hs.
Qed.

Lemma calcularArranjo_termina_cabem_witness :
  exists n r, calcularArranjo n [Peca.mk 600 400 1] 1200 "0" = Retorna r.
Proof.
  apply (calcularArranjo_termina_cabem [Peca.mk 600 400 1] 1200 "0");
    repeat constructor; cbn; lia.
Defined.

(** Without a length bound, a piece wider than the roll is scanned again
    on every shelf and never leaves [todasPecas]. *)
Lemma varrer_larga larguraRolo cabe yy x l peca :
  0 <= x ->
  Forall (fun it => 0 <= Item.largura it) l ->
  peca ∈ l -> larguraRolo < Item.largura peca ->
  peca ∈ snd (varrer larguraRolo cabe yy x l).
Proof.
  intros Hx Hl Hin Hw. revert x Hx.
  induction Hl as [|it l Hit Hl IH]; intros x Hx.
  - by apply elem_of_nil in Hin.
  - cbn [varrer].
    destruct (x + Item.largura it <=? larguraRolo) eqn:E.
    + apply Z.leb_le in E.
      apply elem_of_cons in Hin as [->|Hin]; [lia|].
      destruct cabe; [|by right].
      specialize (IH Hin (x + Item.largura it) ltac:(lia)).
      by destruct (varrer _ _ _ _ _).
    + apply elem_of_cons in Hin as [->|Hin].
      * destruct (varrer _ _ _ _ _). by left.
      * specialize (IH Hin x Hx).
        destruct (varrer _ _ _ _ _). by right.
Qed.

Lemma laco_nao_termina larguraRolo n s peca :
  Forall (fun it => 0 <= Item.largura it) (todasPecas s) ->
  peca ∈ todasPecas s -> larguraRolo < Item.largura peca ->
  laco larguraRolo Infinity n s = None.
Proof.
  revert s. induction n as [|n IH]; intros s Hl Hin Hw; cbn.
  - destruct (todasPecas s); [by apply elem_of_nil in Hin|done].
  - destruct (todasPecas s) as [|primeira r] eqn:E;
      [by apply elem_of_nil in Hin|].
    pose proof (varrer_larga larguraRolo true (y s) 0 (primeira :: r) peca
                  ltac:(lia) Hl Hin Hw) as Hk.
    apply IH; [| |done].
    + rewrite prateleira_varrer. cbn [menor_ou_igual]. rewrite E.
      destruct (varrer _ _ _ _ _) as [c k] eqn:Ev. cbn.
      apply varrer_sublist in Ev.
      eapply Forall_forall. intros it Hit.
      eapply (proj1 (Forall_forall _ _) Hl). by eapply elem_of_sublist.
    + rewrite prateleira_varrer. cbn [menor_ou_igual]. rewrite E.
      by destruct (varrer _ _ _ _ _).
Qed.

(** ** The strategy and the reference procedure *)

Lemma ref_expandir_expandir pecas :
  Forall (fun p => 0 <= Peca.quantidade p < 2 ^ 32) pecas ->
  expandir pecas = Some (ref_expandir pecas).
Proof.
  induction 1 as [|p pecas Hp _ IH]; cbn; [done|].
  unfold Array_fill.
  destruct ((0 <=? Peca.quantidade p) && (Peca.quantidade p <? 2 ^ 32)) eqn:E.
  - by rewrite IH.
  - apply andb_false_iff in E as [E|E]; lia.
Qed.

Lemma ref_inserir_perm a l : ref_inserir a l ≡ₚ a :: l.
Proof.
  induction l as [|b r IH]; cbn; [done|].
  destruct (ref_antes a b); [done|].
  rewrite IH. apply perm_swap.
Qed.

Lemma numerar_indices k l : Forall (fun b => (k <= fst b)%nat) (numerar k l).
Proof.
  revert k. induction l as [|a l IH]; intros k; cbn; constructor; [done|].
  eapply Forall_impl; [apply (IH (S k))|]. cbn. intros; lia.
Qed.

Lemma ref_inserir_inserir k a l :
  Forall (fun b => (k < fst b)%nat) l ->
  snd <$> ref_inserir (k, a) l = inserir a (snd <$> l).
Proof.
  induction 1 as [|[j b] l Hj _ IH]; [done|].
  cbn [ref_inserir]. unfold ref_antes. cbn [fst snd] in *.
  apply Nat.ltb_lt in Hj. rewrite Hj, andb_true_r.
  rewrite fmap_cons. cbn [snd inserir].
  destruct (Item.altura a <? Item.altura b) eqn:E.
  - apply Z.ltb_lt in E.
    replace (Item.altura b <? Item.altura a) with false by lia.
    replace (Item.altura a =? Item.altura b) with false by lia.
    cbn [orb]. rewrite fmap_cons. by rewrite IH.
  - apply Z.ltb_ge in E.
    replace ((Item.altura b <? Item.altura a)
             || (Item.altura a =? Item.altura b)) with true; [done|].
    symmetry. apply orb_true_iff. lia.
Qed.

(** The comparator sort, being stable, is the sort by height descending
    with ties broken by input order. *)
Lemma ref_ordenar_ordenar l : ref_ordenar l = ordenar l.
Proof.
  unfold ref_ordenar. generalize 0%nat.
  induction l as [|a l IH]; intros k; cbn; [done|].
  rewrite ref_inserir_inserir.
  - by rewrite IH.
  - assert (foldr ref_inserir [] (numerar (S k) l) ≡ₚ numerar (S k) l) as ->.
    { generalize (numerar (S k) l). intros L.
      induction L as [|b L IHL]; cbn; [done|].
      by rewrite ref_inserir_perm, IHL. }
    eapply Forall_impl; [apply numerar_indices|]. cbn. intros; lia.
Qed.

Lemma ref_mais_alta_cabeca a r :
  decrescente (a :: r) -> ref_mais_alta a r = Item.altura a.
Proof.
  intros H. apply decrescente_cabeca in H. apply Forall_cons in H as [_ H].
  unfold ref_mais_alta. induction H as [|b r Hb _ IH]; cbn; [done|].
  rewrite IH. lia.
Qed.

(** ** No validation of the pieces *)

Lemma expandir_None pecas :
  expandir pecas = None <->
  Exists (fun p => Peca.quantidade p < 0 \/ 2 ^ 32 <= Peca.quantidade p) pecas.
Proof.
  induction pecas as [|p pecas IH]; cbn.
  - split; [done|]. intros H. by apply Exists_nil in H.
  - rewrite Exists_cons. unfold Array_fill.
    destruct ((0 <=? Peca.quantidade p) && (Peca.quantidade p <? 2 ^ 32)) eqn:E.
    + apply andb_true_iff in E as [E1 E2].
      destruct (expandir pecas) as [outras|].
      * split; [done|]. intros [H|H]; [lia|]. by apply IH in H.
      * split; [intros _; right; by apply IH|done].
    + split; [intros _; left|done].
      apply andb_false_iff in E as [E|E]; lia.
Qed.

(** * The shelf placement on doubles *)

(** ** Rounding *)

Lemma arredondar_exato z :
  - 2 ^ 53 <= z <= 2 ^ 53 -> Js.arredondar z = z.
Proof.
  intros H. unfold Js.arredondar.
  destruct (Z.abs z <=? 2 ^ 53) eqn:E; [done|].
  apply Z.leb_gt in E. lia.
Qed.

Lemma arredondar_grande z :
  2 ^ 53 < z -> 2 ^ 53 <= Js.arredondar z.
Proof.
  intros H. unfold Js.arredondar.
  rewrite Z.abs_eq by lia.
  destruct (z <=? 2 ^ 53) eqn:E; [apply Z.leb_le in E; lia|].
  rewrite Z.sgn_pos by lia.
  assert (53 <= Z.log2 z) as Hl by (apply Z.log2_le_pow2; lia).
  set (e := Z.log2 z - 52).
  assert (0 < 2 ^ e) as Hu by (apply Z.pow_pos_nonneg; lia).
  assert (2 ^ 52 * 2 ^ e <= z) as Hz.
  { rewrite <- Z.pow_add_r by lia.
    replace (52 + e) with (Z.log2 z) by lia.
    apply Z.log2_spec. lia. }
  assert (2 ^ 52 <= z / 2 ^ e) as Hq
    by (apply Z.div_le_lower_bound; lia).
  assert (2 <= 2 ^ e) as Hu2.
  { change 2 with (2 ^ 1) at 1. apply Z.pow_le_mono_r; lia. }
  set (q := z / 2 ^ e) in *.
  assert (2 ^ 53 <= q * 2 ^ e) as Hb by nia.
  destruct (2 * (z mod 2 ^ e) <? 2 ^ e); [lia|].
  destruct (2 ^ e <? 2 * (z mod 2 ^ e)); [nia|].
  destruct (Z.even q); [lia|nia].
Qed.

(** A comparison with a number below 2^53 is not changed by the
    rounding of the other side. *)
Lemma arredondar_leb v w :
  - 2 ^ 53 <= v -> w < 2 ^ 53 ->
  (Js.arredondar v <=? w) = (v <=? w).
Proof.
  intros Hv Hw. destruct (Z_le_gt_dec v (2 ^ 53)) as [H|H].
  - by rewrite arredondar_exato by lia.
  - pose proof (arredondar_grande v ltac:(lia)). lia.
Qed.

Lemma arredondar_ltb v w :
  - 2 ^ 53 <= v -> w < 2 ^ 53 ->
  (w <? Js.arredondar v) = (w <? v).
Proof.
  intros Hv Hw. destruct (Z_le_gt_dec v (2 ^ 53)) as [H|H].
  - by rewrite arredondar_exato by lia.
  - pose proof (arredondar_grande v ltac:(lia)). lia.
Qed.

Lemma menor_ou_igual_arredondar v m :
  - 2 ^ 53 <= v -> limite_exato m ->
  menor_ou_igual (Js.arredondar v) m = menor_ou_igual v m.
Proof. destruct m; cbn; [|done]. intros. by apply arredondar_leb. Qed.

Lemma maior_arredondar v m :
  - 2 ^ 53 <= v -> limite_exato m ->
  maior (Js.arredondar v) m = maior v m.
Proof. destruct m; cbn; [|done]. intros. by apply arredondar_ltb. Qed.

Lemma numero_exato v : - 2 ^ 53 <= v <= 2 ^ 53 -> Js.numero v = true.
Proof.
  intros H. unfold Js.numero. rewrite arredondar_exato by done.
  apply andb_true_iff. split; [lia|].
  apply Z.leb_le.
  assert (2 ^ 53 <= 2 ^ 900) by (apply Z.pow_le_mono_r; lia). lia.
Qed.

Lemma mais_zero v : Js.numero v = true -> Js.mais 0 v = v.
Proof.
  unfold Js.numero, Js.mais. intros H.
  apply andb_true_iff in H as [H _]. apply Z.eqb_eq in H.
  by rewrite Z.add_0_l.
Qed.

(** ** The inner loop, on doubles *)

Section JsVarrer.

Variable larguraRolo : Z.
Variable comprimentoMax : Limite.

Lemma js_preencher_varrer n yy h i x todas res :
  (length todas - i < n)%nat ->
  Js.preencher larguraRolo comprimentoMax n yy h i x todas res
  = let '(c, k) :=
      Js.varrer larguraRolo (menor_ou_igual (Js.mais yy h) comprimentoMax) yy x
                (drop i todas) in
    (take i todas ++ k, res ++ c).
Proof.
  revert i x todas res.
  induction n as [|n IH]; intros i x todas res Hn; [lia|].
  cbn [Js.preencher].
  destruct (todas !! i) as [peca|] eqn:Hi.
  - pose proof (lookup_lt_Some _ _ _ Hi) as Hlt.
    rewrite (drop_S _ _ _ Hi). cbn [Js.varrer].
    destruct (Js.mais x (Item.largura peca) <=? larguraRolo).
    + destruct (menor_ou_igual (Js.mais yy h) comprimentoMax) eqn:Hc.
      * rewrite IH by (rewrite length_delete by eauto; lia).
        rewrite delete_take_drop.
        rewrite drop_app_length' by (rewrite length_take; lia).
        rewrite take_app_length' by (rewrite length_take; lia).
        destruct (Js.varrer _ _ _ _ _) as [c k].
        by rewrite <- app_assoc.
      * rewrite IH by lia.
        rewrite drop_all, firstn_all. cbn.
        rewrite !app_nil_r. f_equal.
        rewrite <- (take_drop i todas) at 1.
        by rewrite (drop_S _ _ _ Hi).
    + rewrite IH by lia.
      destruct (Js.varrer _ _ _ _ _) as [c k].
      rewrite (take_S_r _ _ _ Hi). by rewrite <- app_assoc.
  - apply lookup_ge_None in Hi.
    rewrite drop_ge, take_ge by lia. cbn. by rewrite !app_nil_r.
Qed.

Lemma js_prateleira_varrer s h :
  Js.prateleira larguraRolo comprimentoMax s h
  = let '(c, k) :=
      Js.varrer larguraRolo (menor_ou_igual (Js.mais (y s) h) comprimentoMax)
                (y s) 0 (todasPecas s) in
    {| todasPecas := k; resultado := resultado s ++ c;
       y := y s; comprimentoTotal := comprimentoTotal s |}.
Proof.
  unfold Js.prateleira. rewrite js_preencher_varrer by lia.
  rewrite drop_0. cbn. by destruct (Js.varrer _ _ _ _ _).
Qed.

End JsVarrer.

Section JsVarrerFatos.

Variable larguraRolo : Z.

Lemma js_varrer_nao_cabe yy x l :
  Js.varrer larguraRolo false yy x l = ([], l).
Proof.
  revert x. induction l as [|peca r IH]; intros x; cbn; [done|].
  destruct (Js.mais x (Item.largura peca) <=? larguraRolo); [done|].
  by rewrite IH.
Qed.

Lemma js_varrer_perm cabe yy x l c k :
  Js.varrer larguraRolo cabe yy x l = (c, k) ->
  l ≡ₚ (item_de <$> c) ++ k.
Proof.
  revert x c k. induction l as [|[w h] r IH]; intros x c k; cbn.
  - by intros [= <- <-].
  - destruct (Js.mais x w <=? larguraRolo).
    + destruct cabe.
      * destruct (Js.varrer _ _ _ _ _) as [c' k'] eqn:E.
        intros [= <- <-]. cbn. unfold item_de at 1. cbn.
        constructor. by eapply IH.
      * by intros [= <- <-].
    + destruct (Js.varrer _ _ _ _ _) as [c' k'] eqn:E.
      intros [= <- <-]. rewrite <- Permutation_middle.
      constructor. by eapply IH.
Qed.

Lemma js_varrer_sublist cabe yy x l c k :
  Js.varrer larguraRolo cabe yy x l = (c, k) -> sublist k l.
Proof.
  revert x c k. induction l as [|peca r IH]; intros x c k; cbn.
  - by intros [= <- <-].
  - destruct (Js.mais x (Item.largura peca) <=? larguraRolo).
    + destruct cabe.
      * destruct (Js.varrer _ _ _ _ _) as [c' k'] eqn:E.
        intros [= <- <-]. apply sublist_cons. by eapply IH.
      * by intros [= <- <-].
    + destruct (Js.varrer _ _ _ _ _) as [c' k'] eqn:E.
      intros [= <- <-]. apply sublist_skip. by eapply IH.
Qed.


(** On numbers for which the sums are exact the scan is the scan in
    exact arithmetic. *)
Lemma js_varrer_exato cabe yy x l :
  0 <= x -> larguraRolo < 2 ^ 53 ->
  Forall (fun it => 0 <= Item.largura it) l ->
  Js.varrer larguraRolo cabe yy x l = varrer larguraRolo cabe yy x l.
Proof.
  intros Hx HW Hl. revert x Hx.
  induction Hl as [|peca r Hp _ IH]; intros x Hx; cbn; [done|].
  unfold Js.mais at 1. rewrite arredondar_leb by lia.
  destruct (x + Item.largura peca <=? larguraRolo) eqn:E.
  - apply Z.leb_le in E. destruct cabe; [|done].
    unfold Js.mais. rewrite arredondar_exato by lia.
    by rewrite IH by lia.
  - by rewrite IH.
Qed.

End JsVarrerFatos.

(** ** The outer loop, on doubles *)

Section JsLaco.

Variable larguraRolo : Z.
Variable comprimentoMax : Limite.

Lemma js_prateleira_parou s h :
  maior (Js.mais (y s) h) comprimentoMax = true ->
  Js.prateleira larguraRolo comprimentoMax s h = s.
Proof.
  intros Hm. rewrite js_prateleira_varrer.
  rewrite menor_ou_igual_maior, Hm. cbn [negb].
  rewrite js_varrer_nao_cabe, app_nil_r. by destruct s.
Qed.

Lemma js_inv_inicial itens : InvJ itens (estado_inicial itens).
Proof.
  split; cbn; [apply ordenar_decrescente|by rewrite ordenar_perm|done].
Qed.

Lemma js_laco_inv itens n s s' :
  InvJ itens s ->
  Js.laco larguraRolo comprimentoMax n s = Some s' ->
  InvJ itens s'.
Proof.
  revert s. induction n as [|n IH]; intros s HI; cbn.
  - destruct (todasPecas s); [|done]. by intros [= <-].
  - destruct (todasPecas s) as [|peca r] eqn:Hs; [by intros [= <-]|].
    destruct (maior (Js.mais (y s) (Item.altura peca)) comprimentoMax) eqn:Hm.
    + intros [= <-]. by rewrite js_prateleira_parou.
    + apply IH. destruct HI as [Ho Hp Hy].
      rewrite js_prateleira_varrer, Hs.
      destruct (Js.varrer _ _ _ _ _) as [c k] eqn:E.
      split; unfold Js.avancar; cbn.
      * eapply decrescente_sublist; [|exact Ho]. rewrite Hs.
        by eapply js_varrer_sublist.
      * rewrite Hp, Hs. apply js_varrer_perm in E. rewrite E.
        rewrite fmap_app. by rewrite <- app_assoc.
      * by rewrite Hy.
Qed.

(** How the loop ends: nothing is left, or the shelf of the first piece
    left would pass the bound. *)
Lemma js_laco_fim n s s' :
  Js.laco larguraRolo comprimentoMax n s = Some s' ->
  todasPecas s' = []
  \/ exists peca r,
       todasPecas s' = peca :: r
       /\ maior (Js.mais (y s') (Item.altura peca)) comprimentoMax = true.
Proof.
  revert s. induction n as [|n IH]; intros s; cbn.
  - destruct (todasPecas s) eqn:E; [|done]. intros [= <-]. by left.
  - destruct (todasPecas s) as [|peca r] eqn:E; [intros [= <-]; by left|].
    destruct (maior (Js.mais (y s) (Item.altura peca)) comprimentoMax) eqn:Hm.
    + rewrite js_prateleira_parou by done. intros [= <-].
      right. by exists peca, r.
    + apply IH.
Qed.

(** The length stored is the sum of the shelves, accumulated in order. *)
Lemma js_laco_total n s s' :
  Js.laco larguraRolo comprimentoMax n s = Some s' ->
  comprimentoTotal s'
  = fold_left Js.mais (Js.prateleiras larguraRolo comprimentoMax n s)
              (comprimentoTotal s).
Proof.
  revert s. induction n as [|n IH]; intros s; cbn.
  - destruct (todasPecas s); [|done]. by intros [= <-].
  - destruct (todasPecas s) as [|peca r] eqn:E; [by intros [= <-]|].
    destruct (maior (Js.mais (y s) (Item.altura peca)) comprimentoMax) eqn:Hm.
    + rewrite js_prateleira_parou by done. by intros [= <-].
    + intros Hl. apply IH in Hl. rewrite Hl. cbn [fold_left].
      rewrite js_prateleira_varrer.
      by destruct (Js.varrer _ _ _ _ _).
Qed.

Lemma js_laco_limite n s s' :
  y s = comprimentoTotal s ->
  menor_ou_igual (y s) comprimentoMax = true ->
  Js.laco larguraRolo comprimentoMax n s = Some s' ->
  menor_ou_igual (comprimentoTotal s') comprimentoMax = true.
Proof.
  revert s. induction n as [|n IH]; intros s Hy Hm; cbn.
  - destruct (todasPecas s); [|done]. intros [= <-]. by rewrite <- Hy.
  - destruct (todasPecas s) as [|peca r]; [intros [= <-]; by rewrite <- Hy|].
    destruct (maior (Js.mais (y s) (Item.altura peca)) comprimentoMax) eqn:E.
    + rewrite js_prateleira_parou by done. intros [= <-]. by rewrite <- Hy.
    + apply IH.
      * rewrite js_prateleira_varrer. destruct (Js.varrer _ _ _ _ _). cbn.
        by rewrite Hy.
      * rewrite js_prateleira_varrer. destruct (Js.varrer _ _ _ _ _). cbn.
        by rewrite menor_ou_igual_maior, E.
Qed.

End JsLaco.

(** What a returning call went through. *)
Lemma js_calcularArranjo_retorna n pecas larguraRolo comprimentoRolo r :
  Js.calcularArranjo n pecas larguraRolo comprimentoRolo = Js.Retorna r ->
  exists itens comprimentoMax s,
    expandir pecas = Some itens
    /\ Js.comprimentoMax_de comprimentoRolo = Some comprimentoMax
    /\ Js.modelado itens larguraRolo = true
    /\ Js.laco larguraRolo comprimentoMax n (estado_inicial itens) = Some s
    /\ InvJ itens s
    /\ arranjo r = resultado s
    /\ comprimentoUtilizado r = comprimentoTotal s.
Proof.
  unfold Js.calcularArranjo.
  destruct (expandir pecas) as [itens|]; [|done].
  destruct (Js.comprimentoMax_de comprimentoRolo) as [m|]; [|done].
  destruct (Js.modelado itens larguraRolo) eqn:Em; [|done].
  destruct (Js.laco _ _ _ _) as [s|] eqn:El; [|done].
  intros [= <-]. exists itens, m, s.
  split; [done|]. split; [done|]. split; [done|]. split; [done|].
  split; [|done].
  exact (js_laco_inv _ _ _ _ _ _ (js_inv_inicial itens) El).
Qed.

(** ** When the sums are exact *)

Lemma soma_nao_negativa l : Forall (fun h => 0 <= h) l -> 0 <= soma l.
Proof. unfold soma. induction 1 as [|h l Hh _ IH]; cbn; lia. Qed.

Lemma soma_sublist k l :
  sublist k l -> Forall (fun h => 0 <= h) l -> soma k <= soma l.
Proof.
  unfold soma. induction 1 as [|h k l _ IH|h k l _ IH]; intros Hl; cbn.
  - lia.
  - apply Forall_cons in Hl as [_ Hl]. specialize (IH Hl). lia.
  - apply Forall_cons in Hl as [Hh Hl]. specialize (IH Hl). lia.
Qed.

Lemma soma_perm k l : k ≡ₚ l -> soma k = soma l.
Proof.
  unfold soma. induction 1 as [|h k l _ IH|h h' l|k l m _ IH1 _ IH2]; cbn; lia.
Qed.

Lemma Forall_sublist {A} (P : A -> Prop) k l :
  sublist k l -> Forall P l -> Forall P k.
Proof.
  intros Hs Hl. apply Forall_forall. intros a Ha.
  eapply (proj1 (Forall_forall _ _) Hl). by eapply elem_of_sublist.
Qed.

Lemma limite_caso (m : Limite) a b :
  (m = Infinity /\ a < b) \/ (m = Infinity -> b <= a).
Proof.
  destruct m as [c|]; [by right|].
  destruct (Z_lt_ge_dec a b); [by left|right; lia].
Qed.

Section Exatidao.

Variable larguraRolo : Z.

(** Without a length bound a piece wider than the roll never leaves
    [todasPecas], on doubles as well. *)
Lemma js_laco_nao_termina n s peca :
  larguraRolo < 2 ^ 53 ->
  Forall (fun it => 0 <= Item.largura it) (todasPecas s) ->
  peca ∈ todasPecas s -> larguraRolo < Item.largura peca ->
  Js.laco larguraRolo Infinity n s = None.
Proof.
  intros HW. revert s. induction n as [|n IH]; intros s Hl Hin Hw; cbn.
  - destruct (todasPecas s); [by apply elem_of_nil in Hin|done].
  - destruct (todasPecas s) as [|primeira r] eqn:E;
      [by apply elem_of_nil in Hin|].
    pose proof (varrer_larga larguraRolo true (y s) 0 (primeira :: r) peca
                  ltac:(lia) Hl Hin Hw) as Hk.
    rewrite js_prateleira_varrer. cbn [menor_ou_igual]. rewrite E.
    rewrite js_varrer_exato by (done || lia).
    destruct (varrer _ _ _ _ _) as [c k] eqn:Ev.
    apply varrer_sublist in Ev.
    apply IH; cbn; [|done..].
    by eapply Forall_sublist.
Qed.

Variable comprimentoMax : Limite.

Lemma exato_limite s : Exato larguraRolo comprimentoMax s -> limite_exato comprimentoMax.
Proof. intros [_ _ _ _ H]. by destruct comprimentoMax. Qed.

(** The tests of a shelf are those of exact arithmetic. *)
Lemma exato_teste s peca r :
  Exato larguraRolo comprimentoMax s ->
  todasPecas s = peca :: r ->
  maior (Js.mais (y s) (Item.altura peca)) comprimentoMax
  = maior (y s + Item.altura peca) comprimentoMax
  /\ menor_ou_igual (Js.mais (y s) (Item.altura peca)) comprimentoMax
     = menor_ou_igual (y s + Item.altura peca) comprimentoMax.
Proof.
  intros He Hs. pose proof (exato_limite _ He) as Hm.
  destruct He as [_ Hy _ Hp _]. rewrite Hs in Hp.
  apply Forall_cons in Hp as [[_ Ha] _]. unfold Js.mais.
  split; [apply maior_arredondar|apply menor_ou_igual_arredondar];
    (done || lia).
Qed.

Lemma exato_prateleira s peca r :
  Exato larguraRolo comprimentoMax s ->
  todasPecas s = peca :: r ->
  Js.prateleira larguraRolo comprimentoMax s (Item.altura peca)
  = prateleira larguraRolo comprimentoMax s (Item.altura peca).
Proof.
  intros He Hs. destruct (exato_teste _ _ _ He Hs) as [_ Hc].
  rewrite js_prateleira_varrer, prateleira_varrer, Hc.
  destruct He as [HW _ _ Hp _].
  rewrite js_varrer_exato; [done|lia|done|].
  eapply Forall_impl; [exact Hp|]. cbn. intros; lia.
Qed.

(** The shelf after which the loop goes on: the new state is that of
    exact arithmetic, provided, on an unbounded roll, that the first
    piece fits the roll width (it is then placed on this shelf). *)
Lemma exato_avancar s peca r :
  Exato larguraRolo comprimentoMax s ->
  todasPecas s = peca :: r ->
  maior (y s + Item.altura peca) comprimentoMax = false ->
  (comprimentoMax = Infinity -> Item.largura peca <= larguraRolo) ->
  Js.avancar (prateleira larguraRolo comprimentoMax s (Item.altura peca))
             (Item.altura peca)
  = avancar (prateleira larguraRolo comprimentoMax s (Item.altura peca))
            (Item.altura peca)
  /\ Exato larguraRolo comprimentoMax
           (avancar (prateleira larguraRolo comprimentoMax s (Item.altura peca))
                    (Item.altura peca)).
Proof.
  intros [HW Hy Ht Hp Hl] Hs Hm Hw.
  rewrite prateleira_varrer, menor_ou_igual_maior, Hm. cbn [negb].
  rewrite Hs in *.
  pose proof Hp as Hp'. apply Forall_cons in Hp' as [[Hw0 Ha0] Hr].
  assert (Forall (fun h => 0 <= h) (Item.altura <$> r)) as Hr'.
  { apply Forall_fmap. eapply Forall_impl; [exact Hr|]. cbn. intros; lia. }
  pose proof (soma_nao_negativa _ Hr') as Hsr.
  destruct (varrer larguraRolo true (y s) 0 (peca :: r)) as [c k] eqn:Ev.
  pose proof (varrer_sublist _ _ _ _ _ _ _ Ev) as Hk.
  assert (y s + Item.altura peca <= 2 ^ 53) as Hex.
  { destruct comprimentoMax as [b|].
    - cbn in Hm. lia.
    - change (soma (Item.altura <$> peca :: r))
        with (Item.altura peca + soma (Item.altura <$> r)) in Hl. lia. }
  unfold Js.avancar, avancar, Js.mais. cbn.
  rewrite <- Ht. rewrite arredondar_exato by lia.
  split; [done|]. split; cbn; [done|lia|lia|by eapply Forall_sublist|].
  destruct comprimentoMax as [b|]; [done|].
  specialize (Hw eq_refl). cbn [varrer] in Ev.
  replace (0 + Item.largura peca <=? larguraRolo) with true in Ev by lia.
  destruct (varrer larguraRolo true (y s) (0 + Item.largura peca) r)
    as [c' k'] eqn:Ev'.
  injection Ev as <- <-.
  apply varrer_sublist in Ev'.
  pose proof (soma_sublist _ _ (fmap_sublist Item.altura _ _ Ev') Hr').
  change (soma (Item.altura <$> peca :: r))
    with (Item.altura peca + soma (Item.altura <$> r)) in Hl.
  fold (soma (Item.altura <$> k')). lia.
Qed.

(** From such a state the loop on doubles is the loop in exact
    arithmetic: after any number of shelves both have returned the same
    state or neither has returned. *)
Lemma js_laco_exato n s :
  Exato larguraRolo comprimentoMax s ->
  Js.laco larguraRolo comprimentoMax n s = laco larguraRolo comprimentoMax n s.
Proof.
  revert s. induction n as [|n IH]; intros s He; [done|].
  destruct (todasPecas s) as [|peca r] eqn:Hs; [cbn; by rewrite Hs|].
  destruct (limite_caso comprimentoMax larguraRolo (Item.largura peca))
    as [[Hi Hw]|Hn].
  - destruct He as [HW _ _ Hp _]. subst comprimentoMax.
    assert (Forall (fun it => 0 <= Item.largura it) (todasPecas s)) as Hp'
      by (eapply Forall_impl; [exact Hp|]; cbn; intros; lia).
    rewrite (js_laco_nao_termina (S n) s peca); [|done|done|rewrite Hs; by left|done].
    rewrite (laco_nao_termina larguraRolo (S n) s peca); [done|done| |done].
    rewrite Hs. by left.
  - cbn [Js.laco laco]. rewrite Hs.
    destruct (exato_teste _ _ _ He Hs) as [-> _].
    rewrite (exato_prateleira _ _ _ He Hs).
    destruct (maior (y s + Item.altura peca) comprimentoMax) eqn:Hm; [done|].
    destruct (exato_avancar _ _ _ He Hs Hm Hn) as [-> He'].
    by apply IH.
Qed.

Lemma js_prateleiras_exato n s s' :
  Exato larguraRolo comprimentoMax s ->
  laco larguraRolo comprimentoMax n s = Some s' ->
  Js.prateleiras larguraRolo comprimentoMax n s
  = prateleiras larguraRolo comprimentoMax n s.
Proof.
  revert s. induction n as [|n IH]; intros s He; [done|].
  destruct (todasPecas s) as [|peca r] eqn:Hs; [cbn; by rewrite Hs|].
  destruct (limite_caso comprimentoMax larguraRolo (Item.largura peca))
    as [[Hi Hw]|Hn].
  - destruct He as [HW _ _ Hp _]. subst comprimentoMax.
    assert (Forall (fun it => 0 <= Item.largura it) (todasPecas s)) as Hp'
      by (eapply Forall_impl; [exact Hp|]; cbn; intros; lia).
    rewrite (laco_nao_termina larguraRolo (S n) s peca); [done|done| |done].
    rewrite Hs. by left.
  - cbn [Js.prateleiras prateleiras laco]. rewrite Hs.
    destruct (exato_teste _ _ _ He Hs) as [-> _].
    rewrite (exato_prateleira _ _ _ He Hs).
    destruct (maior (y s + Item.altura peca) comprimentoMax) eqn:Hm; [done|].
    destruct (exato_avancar _ _ _ He Hs Hm Hn) as [-> He'].
    intros Hl. f_equal. by apply IH.
Qed.

End Exatidao.

(** ** From the pieces entered to the loop, on doubles *)

Lemma soma_mais l1 l2 : soma (l1 ++ l2) = soma l1 + soma l2.
Proof. unfold soma. induction l1 as [|a l1 IH]; cbn; lia. Qed.

Lemma soma_replicate n v : soma (replicate n v) = Z.of_nat n * v.
Proof. unfold soma. induction n as [|n IH]; cbn [replicate foldr]; lia. Qed.

Lemma expandir_altura_total pecas itens :
  expandir pecas = Some itens ->
  soma (Item.altura <$> itens) = altura_total pecas.
Proof.
  revert itens. induction pecas as [|p pecas IH]; intros itens; cbn.
  - by intros [= <-].
  - unfold Array_fill.
    destruct ((0 <=? Peca.quantidade p) && (Peca.quantidade p <? 2 ^ 32)) eqn:E;
      [|done].
    destruct (expandir pecas) as [outras|]; [|done].
    intros [= <-]. rewrite fmap_app, soma_mais, fmap_replicate, soma_replicate.
    rewrite (IH _ eq_refl). unfold altura_total. cbn.
    apply andb_true_iff in E as [E _]. apply Z.leb_le in E.
    rewrite Z2Nat.id by done.
    change (soma (?a :: ?l)) with (a + soma l). done.
Qed.

Lemma medidas_inicial pecas larguraRolo comprimentoRolo itens comprimentoMax :
  medidas_exatas pecas larguraRolo comprimentoRolo ->
  expandir pecas = Some itens ->
  Js.comprimentoMax_de comprimentoRolo = Some comprimentoMax ->
  Exato larguraRolo comprimentoMax (estado_inicial itens)
  /\ Js.modelado itens larguraRolo = true.
Proof.
  intros (Hp & HW & c & Hc & Hc53 & Hc0) He Hm.
  assert (Forall (fun it => 0 <= Item.largura it <= 2 ^ 53
                            /\ 0 <= Item.altura it <= 2 ^ 53) itens) as Hi.
  { apply Forall_forall. intros it Hin.
    destruct (expandir_elem _ _ _ He Hin) as (p & Hin' & _ & -> & ->).
    exact (proj1 (Forall_forall _ _) Hp p Hin'). }
  split.
  - split; cbn; [lia|done|done| |].
    + rewrite ordenar_perm. eapply Forall_impl; [exact Hi|]. cbn. intros; lia.
    + unfold Js.comprimentoMax_de in Hm. rewrite Hc in Hm.
      injection Hm as <-. destruct (0 <? c) eqn:E; [done|].
      apply Z.ltb_ge in E.
      rewrite (soma_perm _ (Item.altura <$> itens))
        by (by rewrite ordenar_perm).
      rewrite (expandir_altura_total _ _ He). specialize (Hc0 E). lia.
  - unfold Js.modelado. apply andb_true_iff. split.
    + apply numero_exato. lia.
    + apply forallb_forall. intros it Hin. apply list_elem_of_In in Hin.
      pose proof (proj1 (Forall_forall _ _) Hi it Hin) as [Hw Ha].
      apply andb_true_iff. split; apply numero_exato; lia.
Qed.

(** On exact sizes a call on doubles is the call in exact arithmetic. *)
Lemma js_calcularArranjo_exato n pecas larguraRolo comprimentoRolo itens :
  medidas_exatas pecas larguraRolo comprimentoRolo ->
  expandir pecas = Some itens ->
  exists comprimentoMax,
    Js.comprimentoMax_de comprimentoRolo = Some comprimentoMax
    /\ Exato larguraRolo comprimentoMax (estado_inicial itens)
    /\ Js.calcularArranjo n pecas larguraRolo comprimentoRolo
       = match laco larguraRolo comprimentoMax n (estado_inicial itens) with
         | None => Js.EmCurso
         | Some s =>
             Js.Retorna {| arranjo := resultado s;
                           comprimentoUtilizado := comprimentoTotal s |}
         end.
Proof.
  intros Hm He.
  assert (exists m, Js.comprimentoMax_de comprimentoRolo = Some m) as [m Hc].
  { destruct Hm as (_ & _ & c & Hc & _). unfold Js.comprimentoMax_de.
    rewrite Hc. by eexists. }
  destruct (medidas_inicial _ _ _ _ _ Hm He Hc) as [Hex Hmod].
  exists m. split; [done|]. split; [done|].
  unfold Js.calcularArranjo. rewrite He, Hc, Hmod.
  by rewrite js_laco_exato.
Qed.

Lemma js_retorna_exato n pecas larguraRolo comprimentoRolo r :
  medidas_exatas pecas larguraRolo comprimentoRolo ->
  Js.calcularArranjo n pecas larguraRolo comprimentoRolo = Js.Retorna r ->
  exists itens comprimentoMax s,
    expandir pecas = Some itens
    /\ Js.comprimentoMax_de comprimentoRolo = Some comprimentoMax
    /\ laco larguraRolo comprimentoMax n (estado_inicial itens) = Some s
    /\ Js.prateleiras larguraRolo comprimentoMax n (estado_inicial itens)
       = prateleiras larguraRolo comprimentoMax n (estado_inicial itens)
    /\ Inv larguraRolo itens
           (prateleiras larguraRolo comprimentoMax n (estado_inicial itens)) s
    /\ arranjo r = resultado s
    /\ comprimentoUtilizado r = comprimentoTotal s.
Proof.
  intros Hm Hc.
  destruct (expandir pecas) as [itens|] eqn:He;
    [|unfold Js.calcularArranjo in Hc; by rewrite He in Hc].
  destruct (js_calcularArranjo_exato n _ _ _ _ Hm He) as (m & Hcm & Hex & Heq).
  rewrite Heq in Hc.
  destruct (laco larguraRolo m n (estado_inicial itens)) as [s|] eqn:El; [|done].
  injection Hc as <-. exists itens, m, s.
  split; [done|]. split; [done|]. split; [done|].
  split; [by eapply js_prateleiras_exato|]. split; [|done].
  apply (laco_inv _ _ _ _ _ _ [] (inv_inicial _ _)) in El. exact El.
Qed.

(** ** No overlap *)

(** C1 as stated fails: the sizes are doubles.  On a roll 2^53 wide, after
    the piece 2^53 wide the sum [x + 1] is rounded back to 2^53: two
    pieces of width 1 are placed at the same place, beyond the roll, and
    overlap. *)
Lemma calcularArranjo_sobrepoe :
  pecas_positivas [Peca.mk (2 ^ 53) 10 1; Peca.mk 1 10 2]
  /\ 0 < 2 ^ 53
  /\ Js.calcularArranjo 1 [Peca.mk (2 ^ 53) 10 1; Peca.mk 1 10 2] (2 ^ 53) "0"
     = Js.Retorna {| arranjo := [Posicao.mk 0 0 (2 ^ 53) 10;
                                 Posicao.mk (2 ^ 53) 0 1 10;
                                 Posicao.mk (2 ^ 53) 0 1 10];
                     comprimentoUtilizado := 10 |}
  /\ sobrepoe (Posicao.mk (2 ^ 53) 0 1 10) (Posicao.mk (2 ^ 53) 0 1 10) = true.
Proof.
  split; [repeat constructor|]. split; [done|].
  split; [vm_compute; reflexivity|reflexivity].
Qed.

(** C1, amended. For every list of pieces with positive integer widths
    and heights on which the sums are exact ([medidas_exatas]: sizes of
    at most 2^53, a roll width below 2^53, a roll length read as an
    integer below 2^53 and, on an unbounded roll, heights that add up to
    2^53 at most), no two placements of the sequence returned by
    [calcularArranjo] overlap: whenever [a] and [b] stand at different
    positions of [arranjo], the test
    [x1 < x2+w2 /\ x2 < x1+w1 /\ y1 < y2+h2 /\ y2 < y1+h1] is false
    (touching edges are not overlap). *)
Theorem calcularArranjo_sem_sobreposicao
    n pecas larguraRolo comprimentoRolo r i j a b :
  pecas_positivas pecas ->
  medidas_exatas pecas larguraRolo comprimentoRolo ->
  Js.calcularArranjo n pecas larguraRolo comprimentoRolo = Js.Retorna r ->
  i <> j ->
  arranjo r !! i = Some a ->
  arranjo r !! j = Some b ->
  sobrepoe a b = false.
Proof.
  intros Hp Hm Hc Hij Hi Hj.
  destruct (js_retorna_exato _ _ _ _ _ Hm Hc)
    as (itens & m & s & He & _ & _ & _ & HI & Ha & _).
  pose proof (expandir_nao_negativas _ _ (positivas_nao_negativas _ Hp) He)
    as Hpos.
  destruct (inv_geometria _ _ _ _ HI Hpos) as [_ Hs].
  rewrite Ha in Hi, Hj.
  destruct (Nat.lt_total i j) as [Hlt|[Heq|Hlt]]; [|done|].
  - apply (separadas_sobrepoe a b).
    by eapply (StronglySorted_lookup _ _ i j).
  - apply (separadas_sobrepoe b a).
    by eapply (StronglySorted_lookup _ _ j i).
Qed.

Lemma calcularArranjo_sem_sobreposicao_witness :
  sobrepoe (Posicao.mk 0 0 200 300) (Posicao.mk 400 0 150 200) = false.
Proof.
  apply (calcularArranjo_sem_sobreposicao 10
           [Peca.mk 200 300 2; Peca.mk 150 200 3; Peca.mk 100 100 5]
           1000 "800"
           {| arranjo :=
                [Posicao.mk 0 0 200 300; Posicao.mk 200 0 200 300;
                 Posicao.mk 400 0 150 200; Posicao.mk 550 0 150 200;
                 Posicao.mk 700 0 150 200; Posicao.mk 850 0 100 100;
                 Posicao.mk 0 300 100 100; Posicao.mk 100 300 100 100;
                 Posicao.mk 200 300 100 100; Posicao.mk 300 300 100 100];
              comprimentoUtilizado := 400 |}
           0%nat 2%nat).
  - repeat constructor.
  - split; [repeat constructor; cbn; lia|]. split; [lia|].
    exists 800. split; [reflexivity|]. split; lia.
  - reflexivity.
  - discriminate.
  - reflexivity.
  - reflexivity.
Defined.

(** ** Containment *)

Lemma js_comprimentoMax_de_finito comprimentoRolo b :
  Js.comprimentoMax_de comprimentoRolo = Some (Finito b) <->
  Js.Number comprimentoRolo = Some b /\ 0 < b.
Proof.
  unfold Js.comprimentoMax_de. destruct (Js.Number comprimentoRolo) as [n|].
  - destruct (0 <? n) eqn:E.
    + apply Z.ltb_lt in E. split; [intros [= <-]; done|].
      by intros [[= <-] _].
    + apply Z.ltb_ge in E. split; [done|]. intros [[= <-] ?]. lia.
  - split; [done|]. by intros [? _].
Qed.




(** On an unbounded roll ([comprimentoRolo] is 0) nothing limits [y]:
    the three pieces of the scenario are all placed, the last one beyond
    any length a bound of 600 would allow, and the consumed length is
    the sum of the two shelves. *)
Example cenario_comprimento_rastreado :
  Js.comprimentoMax_de "0" = Some Infinity
  /\ Js.calcularArranjo 3 [Peca.mk 200 400 1; Peca.mk 300 350 2] 360 "0"
     = Js.Retorna {| arranjo := [Posicao.mk 0 0 200 400; Posicao.mk 0 400 300 350;
                                 Posicao.mk 0 750 300 350];
                     comprimentoUtilizado := 1100 |}.
Proof. split; vm_compute; reflexivity. Qed.

(** ** The consumed length *)

(** C9 as stated fails: nothing keeps the heights positive.  With a piece
    of height -20, which [adicionarPeca] accepts, the second shelf brings
    the consumed length down to -10, below [y + altura = 10] of the
    first placement.  And the sizes are doubles: a shelf of height 1
    after one of height 2^53 leaves the consumed length at 2^53, below
    [y + altura = 2^53 + 1] of the piece placed on it. *)
Lemma comprimentoUtilizado_negativo :
  Js.adicionarPeca (Form.mk "10" "-20" "1") [Peca.mk 10 10 1]
  = Some ([Peca.mk 10 10 1; Peca.mk 10 (-20) 1],
          Form.mk EmptyString EmptyString EmptyString)
  /\ Js.calcularArranjo 2 [Peca.mk 10 10 1; Peca.mk 10 (-20) 1] 10 "0"
     = Js.Retorna {| arranjo := [Posicao.mk 0 0 10 10; Posicao.mk 0 10 10 (-20)];
                     comprimentoUtilizado := -10 |}
  /\ ~ Posicao.y (Posicao.mk 0 0 10 10) + Posicao.altura (Posicao.mk 0 0 10 10)
       <= -10
  /\ Js.calcularArranjo 2 [Peca.mk 10 (2 ^ 53) 1; Peca.mk 10 1 1] 10 "0"
     = Js.Retorna {| arranjo := [Posicao.mk 0 0 10 (2 ^ 53);
                                 Posicao.mk 0 (2 ^ 53) 10 1];
                     comprimentoUtilizado := 2 ^ 53 |}
  /\ ~ Posicao.y (Posicao.mk 0 (2 ^ 53) 10 1)
       + Posicao.altura (Posicao.mk 0 (2 ^ 53) 10 1) <= 2 ^ 53.
Proof.
  split; [vm_compute; reflexivity|]. split; [vm_compute; reflexivity|].
  split; [cbn; lia|]. split; [vm_compute; reflexivity|]. cbn. lia.
Qed.

(** C9, amended. The consumed length stored by [calcularArranjo] is the
    sum, accumulated in the order of the shelves with the addition of
    doubles, of the heights of the shelves after which the loop went on
    (those that did not trigger the length-bound stop), whether or not
    anything was placed on them; when the bound is finite it does not
    exceed the bound; and for pieces of non-negative integer height on
    which the sums are exact ([medidas_exatas]) it is the exact sum of
    those heights and is at least [y + altura] of every placement. *)
Theorem comprimentoUtilizado_soma n pecas larguraRolo comprimentoRolo r :
  Js.calcularArranjo n pecas larguraRolo comprimentoRolo = Js.Retorna r ->
  exists itens comprimentoMax,
    expandir pecas = Some itens
    /\ Js.comprimentoMax_de comprimentoRolo = Some comprimentoMax
    /\ comprimentoUtilizado r
       = fold_left Js.mais
           (Js.prateleiras larguraRolo comprimentoMax n (estado_inicial itens))
           0
    /\ menor_ou_igual (comprimentoUtilizado r) comprimentoMax = true
    /\ (medidas_exatas pecas larguraRolo comprimentoRolo ->
        comprimentoUtilizado r
        = soma (Js.prateleiras larguraRolo comprimentoMax n
                               (estado_inicial itens))
        /\ Forall (fun p => Posicao.y p + Posicao.altura p
                            <= comprimentoUtilizado r) (arranjo r)).
Proof.
  intros Hc.
  destruct (js_calcularArranjo_retorna _ _ _ _ _ Hc)
    as (itens & m & s & He & Hcm & _ & Hl & _ & Ha & Hu).
  exists itens, m. split; [done|]. split; [done|]. split; [|split].
  - rewrite Hu. by rewrite (js_laco_total _ _ _ _ _ Hl).
  - rewrite Hu. eapply js_laco_limite; [| |exact Hl]; [done|].
    cbn. destruct m as [b|]; [|done]. cbn.
    apply js_comprimentoMax_de_finito in Hcm. lia.
  - intros Hm.
    destruct (js_retorna_exato _ _ _ _ _ Hm Hc)
      as (itens' & m' & s' & He' & Hcm' & _ & Hpr & HI & Ha' & Hu').
    rewrite He in He'. injection He' as <-.
    rewrite Hcm in Hcm'. injection Hcm' as <-.
    rewrite Hpr, Ha', Hu'. split; [by destruct HI|].
    assert (Forall (fun it => 0 <= Item.altura it) itens) as Hi.
    { apply Forall_forall. intros it Hin.
      destruct (expandir_elem _ _ _ He Hin) as (p & Hin' & _ & _ & ->).
      destruct Hm as (Hp & _).
      pose proof (proj1 (Forall_forall _ _) Hp p Hin'). cbn in *. lia. }
    destruct (inv_itens (fun _ h => 0 <= h) _ _ _ _ HI Hi) as [_ Hh].
    destruct HI as [_ _ Hpilha _ _ Ht]. rewrite Ht.
    apply (Empilhado_topo _ _ _ Hpilha).
    eapply Forall_impl; [exact Hh|]. cbn. by intros h [_ ?].
Qed.

Lemma comprimentoUtilizado_soma_witness :
  exists itens comprimentoMax,
    expandir [Peca.mk 200 50 1; Peca.mk 60 40 1] = Some itens
    /\ Js.comprimentoMax_de "120" = Some comprimentoMax
    /\ 100 = fold_left Js.mais
               (Js.prateleiras 100 comprimentoMax 5 (estado_inicial itens)) 0
    /\ menor_ou_igual 100 comprimentoMax = true
    /\ (medidas_exatas [Peca.mk 200 50 1; Peca.mk 60 40 1] 100 "120" ->
        100 = soma (Js.prateleiras 100 comprimentoMax 5 (estado_inicial itens))
        /\ Forall (fun p => Posicao.y p + Posicao.altura p <= 100)
                  [Posicao.mk 0 0 60 40]).
Proof.
  apply (comprimentoUtilizado_soma 5 [Peca.mk 200 50 1; Peca.mk 60 40 1]
           100 "120"
           {| arranjo := [Posicao.mk 0 0 60 40]; comprimentoUtilizado := 100 |}).
  reflexivity.
Defined.

(** The sizes of the scenario above are exact sizes. *)
Example medidas_do_cenario :
  medidas_exatas [Peca.mk 200 50 1; Peca.mk 60 40 1] 100 "120".
Proof.
  split; [repeat constructor; cbn; lia|]. split; [lia|].
  exists 120. split; [reflexivity|]. split; lia.
Qed.

(** A shelf on which nothing is placed still counts: with a piece wider
    than the roll, two empty shelves of height 50 are consumed before
    the third one would pass the bound. *)
Example prateleiras_vazias :
  Js.calcularArranjo 5 [Peca.mk 200 50 1] 100 "120"
  = Js.Retorna {| arranjo := []; comprimentoUtilizado := 100 |}
  /\ Js.prateleiras 100 (Finito 120) 5 (estado_inicial [Item.mk 200 50])
     = [50; 50].
Proof. split; vm_compute; reflexivity. Qed.

(** ** The order of the placements *)

(** C10 as stated fails: positive heights are not enough.  Two pieces of
    width 0 (which [adicionarPeca] accepts) and height 10 land on the
    same shelf at the same [x].  And the sizes are doubles: on a roll
    2^53 wide, after a piece 2^53 wide, two pieces of width 1 land at the
    same [x = 2^53]. *)
Lemma arranjo_em_ordem_contraexemplo :
  Js.adicionarPeca (Form.mk "0" "10" "2") []
  = Some ([Peca.mk 0 10 2], Form.mk EmptyString EmptyString EmptyString)
  /\ Forall (fun p => 0 < Peca.altura p) [Peca.mk 0 10 2]
  /\ Js.calcularArranjo 1 [Peca.mk 0 10 2] 100 "0"
     = Js.Retorna {| arranjo := [Posicao.mk 0 0 0 10; Posicao.mk 0 0 0 10];
                     comprimentoUtilizado := 10 |}
  /\ ~ StronglySorted em_ordem [Posicao.mk 0 0 0 10; Posicao.mk 0 0 0 10]
  /\ Forall (fun p => 0 < Peca.altura p)
            [Peca.mk (2 ^ 53) 10 1; Peca.mk 1 10 2]
  /\ Js.calcularArranjo 1 [Peca.mk (2 ^ 53) 10 1; Peca.mk 1 10 2] (2 ^ 53) "0"
     = Js.Retorna {| arranjo := [Posicao.mk 0 0 (2 ^ 53) 10;
                                 Posicao.mk (2 ^ 53) 0 1 10;
                                 Posicao.mk (2 ^ 53) 0 1 10];
                     comprimentoUtilizado := 10 |}
  /\ ~ em_ordem (Posicao.mk (2 ^ 53) 0 1 10) (Posicao.mk (2 ^ 53) 0 1 10).
Proof.
  split; [vm_compute; reflexivity|]. split; [repeat constructor|].
  split; [vm_compute; reflexivity|]. split.
  { intros H. apply StronglySorted_inv in H as [_ H].
    apply Forall_cons in H as [H _]. unfold em_ordem in H. cbn in H. lia. }
  split; [repeat constructor|]. split; [vm_compute; reflexivity|].
  unfold em_ordem. cbn. lia.
Qed.

(** C10, amended. For every input whose pieces all have positive integer
    heights and widths on which the sums are exact ([medidas_exatas]),
    the sequence returned by the shelf strategy is the shelves one after
    the other ([Empilhado]: the placements of one shelf are contiguous,
    share the [y] of the shelf, and stand side by side from [x = 0]),
    the shelf heights are positive, and the sequence is strictly ordered
    by [y], then [x]: placements of one shelf have strictly increasing
    [x], and a placement of a later shelf has a strictly greater [y]
    than any placement of an earlier one. *)
Theorem arranjo_em_ordem n pecas larguraRolo comprimentoRolo r :
  pecas_positivas pecas ->
  medidas_exatas pecas larguraRolo comprimentoRolo ->
  Js.calcularArranjo n pecas larguraRolo comprimentoRolo = Js.Retorna r ->
  (exists itens comprimentoMax,
      expandir pecas = Some itens
      /\ Js.comprimentoMax_de comprimentoRolo = Some comprimentoMax
      /\ Empilhado larguraRolo
           (Js.prateleiras larguraRolo comprimentoMax n (estado_inicial itens))
           (arranjo r)
      /\ Forall (fun h => 0 < h)
           (Js.prateleiras larguraRolo comprimentoMax n (estado_inicial itens)))
  /\ StronglySorted em_ordem (arranjo r).
Proof.
  intros Hp Hm Hc.
  destruct (js_retorna_exato _ _ _ _ _ Hm Hc)
    as (itens & m & s & He & Hcm & Hl & Hpr & HI & Ha & Hu).
  pose proof (expandir_positivas _ _ Hp He) as Hpos.
  destruct (inv_itens (fun w h => 0 < w /\ 0 < h) _ _ _ _ HI Hpos) as [Hw Hh].
  rewrite Ha. split.
  - exists itens, m. split; [done|]. split; [done|]. rewrite Hpr.
    split; [by destruct HI|].
    eapply Forall_impl; [exact Hh|]. cbn. intros h [w ?]. lia.
  - destruct (inv_geometria _ _ _ _ HI) as [_ Hs].
    { eapply Forall_impl; [exact Hpos|]. cbn. intros; lia. }
    eapply StronglySorted_forte; [|exact Hw|exact Hs].
    cbn. intros a b [? ?]. by apply separadas_em_ordem.
Qed.

Lemma arranjo_em_ordem_witness :
  (exists itens comprimentoMax,
      expandir [Peca.mk 200 300 1; Peca.mk 150 200 2] = Some itens
      /\ Js.comprimentoMax_de "600" = Some comprimentoMax
      /\ Empilhado 360
           (Js.prateleiras 360 comprimentoMax 3 (estado_inicial itens))
           [Posicao.mk 0 0 200 300; Posicao.mk 200 0 150 200;
            Posicao.mk 0 300 150 200]
      /\ Forall (fun h => 0 < h)
           (Js.prateleiras 360 comprimentoMax 3 (estado_inicial itens)))
  /\ StronglySorted em_ordem
       [Posicao.mk 0 0 200 300; Posicao.mk 200 0 150 200;
        Posicao.mk 0 300 150 200].
Proof.
  apply (arranjo_em_ordem 3 [Peca.mk 200 300 1; Peca.mk 150 200 2] 360 "600"
           {| arranjo := [Posicao.mk 0 0 200 300; Posicao.mk 200 0 150 200;
                          Posicao.mk 0 300 150 200];
              comprimentoUtilizado := 500 |}).
  - repeat constructor.
  - split; [repeat constructor; cbn; lia|]. split; [lia|].
    exists 600. split; [reflexivity|]. split; lia.
  - reflexivity.
Defined.

(** ** Every instance is placed or left over *)

(** C2 as stated fails: with a roll 100 long, the piece 200 high is not
    placed, and what the call stores is what it stores for no piece at
    all: nothing reports the piece. *)
Lemma calcularArranjo_descarta :
  expandir [Peca.mk 100 200 1] = Some [Item.mk 100 200]
  /\ Js.calcularArranjo 1 [Peca.mk 100 200 1] 1200 "100"
     = Js.Retorna {| arranjo := []; comprimentoUtilizado := 0 |}
  /\ (Item.mk 100 200 ∉ item_de <$> [])
  /\ Js.calcularArranjo 1 [] 1200 "100"
     = Js.Retorna {| arranjo := []; comprimentoUtilizado := 0 |}.
Proof.
  split; [reflexivity|]. split; [vm_compute; reflexivity|].
  split; [|vm_compute; reflexivity]. cbn. apply not_elem_of_nil.
Qed.

(** C2, amended. Every requested instance is either placed exactly once
    in the returned sequence or left in the working list [todasPecas]
    when the loop stops; pieces are left over only when the roll length
    is read as a positive number [b] and the shelf of the tallest of them
    would pass it ([b < comprimentoUtilizado + altura], the sum being
    that of doubles).  The left-over pieces are not part of what
    [calcularArranjo] stores. *)
Theorem calcularArranjo_conserva n pecas larguraRolo comprimentoRolo r :
  Js.calcularArranjo n pecas larguraRolo comprimentoRolo = Js.Retorna r ->
  exists itens restantes,
    expandir pecas = Some itens
    /\ itens ≡ₚ (item_de <$> arranjo r) ++ restantes
    /\ (restantes = []
        \/ exists b peca,
             Js.Number comprimentoRolo = Some b /\ 0 < b
             /\ peca ∈ restantes
             /\ Forall (fun it => Item.altura it <= Item.altura peca) restantes
             /\ b < Js.mais (comprimentoUtilizado r) (Item.altura peca)).
Proof.
  intros Hc.
  destruct (js_calcularArranjo_retorna _ _ _ _ _ Hc)
    as (itens & m & s & He & Hcm & _ & Hl & HI & Ha & Hu).
  exists itens, (todasPecas s). rewrite Ha, Hu.
  split; [done|]. split; [by destruct HI|].
  destruct (js_laco_fim _ _ _ _ _ Hl) as [Hf|(peca & rr & Hf & Hm)]; [by left|].
  right. destruct m as [b|]; [|done].
  apply js_comprimentoMax_de_finito in Hcm as [Hn Hb].
  exists b, peca. split; [done|]. split; [done|].
  split; [rewrite Hf; by left|]. split.
  - rewrite Hf. apply decrescente_cabeca. rewrite <- Hf. by destruct HI.
  - cbn in Hm. destruct HI as [_ _ Hy]. rewrite <- Hy. lia.
Qed.

Lemma calcularArranjo_conserva_witness :
  exists itens restantes,
    expandir [Peca.mk 100 200 1; Peca.mk 100 50 1] = Some itens
    /\ itens ≡ₚ (item_de <$> []) ++ restantes
    /\ (restantes = []
        \/ exists b peca,
             Js.Number "100" = Some b /\ 0 < b
             /\ peca ∈ restantes
             /\ Forall (fun it => Item.altura it <= Item.altura peca) restantes
             /\ b < Js.mais 0 (Item.altura peca)).
Proof.
  apply (calcularArranjo_conserva 1 [Peca.mk 100 200 1; Peca.mk 100 50 1]
           1200 "100" {| arranjo := []; comprimentoUtilizado := 0 |}).
  reflexivity.
Defined.

(** The roll length is read as a number whatever its notation: with
    [1e2] the roll is 100 long and the piece 150 high is left over. *)
Example cenario_notacao_cientifica :
  Js.Number "1e2" = Some 100
  /\ Js.calcularArranjo 1 [Peca.mk 50 150 1] 100 "1e2"
     = Js.Retorna {| arranjo := []; comprimentoUtilizado := 0 |}.
Proof. split; vm_compute; reflexivity. Qed.

(** ** No rotation *)



(** On a roll 110 wide, after the piece 60 x 100 the piece 100 x 50 does
    not fit the first shelf; turned (50 wide, 100 high, the height of the
    shelf) it would.  It is placed as it was entered, on a second
    shelf. *)
Example cenario_sem_rotacao :
  Js.calcularArranjo 2 [Peca.mk 60 100 1; Peca.mk 100 50 1] 110 "0"
  = Js.Retorna {| arranjo := [Posicao.mk 0 0 60 100; Posicao.mk 0 100 100 50];
                  comprimentoUtilizado := 150 |}.
Proof. vm_compute; reflexivity. Qed.

(** ** Termination *)

Lemma js_calcularArranjo_RangeError n pecas larguraRolo comprimentoRolo :
  Js.calcularArranjo n pecas larguraRolo comprimentoRolo = Js.RangeError <->
  Exists (fun p => Peca.quantidade p < 0 \/ 2 ^ 32 <= Peca.quantidade p) pecas.
Proof.
  rewrite <- expandir_None. unfold Js.calcularArranjo.
  destruct (expandir pecas) as [itens|]; [|done].
  split; [|done].
  destruct (Js.comprimentoMax_de comprimentoRolo); [|done].
  destruct (Js.modelado itens larguraRolo); [|done].
  by destruct (Js.laco _ _ _ _).
Qed.

(** C3 as stated fails: a piece of 150 x 200 exceeds a roll 100 wide in
    both orientations.  On an unbounded roll the call never returns; on a
    roll 500 long it returns after two empty shelves, and what it stores
    does not mention the piece. *)
Lemma calcularArranjo_peca_larga :
  (forall n, Js.calcularArranjo n [Peca.mk 150 200 1] 100 "0" = Js.EmCurso)
  /\ Js.calcularArranjo 3 [Peca.mk 150 200 1] 100 "500"
     = Js.Retorna {| arranjo := []; comprimentoUtilizado := 400 |}.
Proof.
  split; [|vm_compute; reflexivity].
  intros n. unfold Js.calcularArranjo. cbn [expandir].
  change (Array_fill _ _) with (Some [Item.mk 150 200]). cbn [app].
  replace (Js.comprimentoMax_de "0") with (Some Infinity)
    by (vm_compute; reflexivity).
  replace (Js.modelado [Item.mk 150 200] 100) with true
    by (vm_compute; reflexivity).
  rewrite (js_laco_nao_termina 100 n _ (Item.mk 150 200)); [done|lia| | |done].
  - cbn. repeat constructor; cbn; lia.
  - cbn. by left.
Qed.

(** C3, amended. For every input with a roll length read as a positive
    integer [b] below 2^53, pieces of positive integer width and height
    of at most 2^53, and a roll width below 2^53, the shelf placement
    either throws the [RangeError] of the array constructor (exactly when
    a quantity is negative or at least 2^32) or returns within [b + 2]
    shelves.  In what it returns no placement is wider than the roll, and
    the sizes of the placements, with those of the pieces left over, are
    the requested instances as they were entered: a piece wider than the
    roll is never turned and never placed; it is among the pieces left
    over, which are not part of what is stored. *)
Theorem calcularArranjo_termina_limitado pecas larguraRolo comprimentoRolo b :
  Js.Number comprimentoRolo = Some b -> 0 < b < 2 ^ 53 ->
  pecas_positivas pecas ->
  Forall (fun p => Peca.largura p <= 2 ^ 53 /\ Peca.altura p <= 2 ^ 53) pecas ->
  - 2 ^ 53 <= larguraRolo < 2 ^ 53 ->
  (Exists (fun p => Peca.quantidade p < 0 \/ 2 ^ 32 <= Peca.quantidade p) pecas
   /\ forall n,
        Js.calcularArranjo n pecas larguraRolo comprimentoRolo = Js.RangeError)
  \/ (exists itens r restantes,
        expandir pecas = Some itens
        /\ Js.calcularArranjo (Z.to_nat b + 2) pecas larguraRolo comprimentoRolo
           = Js.Retorna r
        /\ itens ≡ₚ (item_de <$> arranjo r) ++ restantes
        /\ Forall (fun p => Posicao.largura p <= larguraRolo) (arranjo r)
        /\ Forall (fun it => larguraRolo < Item.largura it -> it ∈ restantes)
                  itens).
Proof.
  intros Hn Hb Hp Hmax HW.
  destruct (expandir pecas) as [itens|] eqn:He.
  2:{ left. apply expandir_None in He. split; [done|]. intros n.
      by apply js_calcularArranjo_RangeError. }
  right.
  assert (medidas_exatas pecas larguraRolo comprimentoRolo) as Hm.
  { split; [|split; [done|]].
    - apply Forall_forall. intros p Hin.
      pose proof (proj1 (Forall_forall _ _) Hp p Hin).
      pose proof (proj1 (Forall_forall _ _) Hmax p Hin). cbn in *. lia.
    - exists b. split; [done|]. split; lia. }
  destruct (js_calcularArranjo_exato (Z.to_nat b + 2) _ _ _ _ Hm He)
    as (m & Hcm & Hex & Heq).
  assert (m = Finito b) as ->.
  { assert (Js.comprimentoMax_de comprimentoRolo = Some (Finito b)) as H
      by (apply js_comprimentoMax_de_finito; split; [done|lia]).
    congruence. }
  destruct (laco_termina_limitado larguraRolo b (Z.to_nat b + 1)
              (estado_inicial itens)) as [s Hs].
  { cbn. rewrite ordenar_perm.
    eapply Forall_impl; [exact (expandir_positivas _ _ Hp He)|].
    cbn. intros; lia. }
  { cbn. lia. }
  replace (Z.to_nat b + 2)%nat with (S (Z.to_nat b + 1)) in Heq by lia.
  rewrite Hs in Heq.
  pose proof (laco_inv _ _ _ _ _ _ [] (inv_inicial _ _) Hs) as HI.
  destruct (inv_geometria _ _ _ _ HI) as [Hd _].
  { eapply expandir_nao_negativas; [|exact He].
    by apply positivas_nao_negativas. }
  assert (Forall (fun p => Posicao.largura p <= larguraRolo) (resultado s))
    as Hlarg.
  { eapply Forall_impl; [exact Hd|]. unfold dentro. intros; lia. }
  exists itens. eexists. exists (todasPecas s).
  split; [done|].
  split; [replace (Z.to_nat b + 2)%nat with (S (Z.to_nat b + 1)) by lia;
          exact Heq|].
  cbn. split; [by destruct HI|]. split; [done|].
  apply Forall_forall. intros it Hin Hw.
  rewrite (inv_perm _ _ _ _ HI) in Hin.
  apply elem_of_app in Hin as [Hin|Hin]; [|done].
  apply list_elem_of_fmap in Hin as (p & -> & Hin).
  pose proof (proj1 (Forall_forall _ _) Hlarg p Hin). cbn in *.
  unfold item_de in Hw. cbn in Hw. lia.
Qed.

Lemma calcularArranjo_termina_limitado_witness :
  (Exists (fun p => Peca.quantidade p < 0 \/ 2 ^ 32 <= Peca.quantidade p)
          [Peca.mk 150 200 1; Peca.mk 80 90 2]
   /\ forall n,
        Js.calcularArranjo n [Peca.mk 150 200 1; Peca.mk 80 90 2] 100 "500"
        = Js.RangeError)
  \/ (exists itens r restantes,
        expandir [Peca.mk 150 200 1; Peca.mk 80 90 2] = Some itens
        /\ Js.calcularArranjo (Z.to_nat 500 + 2)
             [Peca.mk 150 200 1; Peca.mk 80 90 2] 100 "500"
           = Js.Retorna r
        /\ itens ≡ₚ (item_de <$> arranjo r) ++ restantes
        /\ Forall (fun p => Posicao.largura p <= 100) (arranjo r)
        /\ Forall (fun it => 100 < Item.largura it -> it ∈ restantes) itens).
Proof.
  apply (calcularArranjo_termina_limitado
           [Peca.mk 150 200 1; Peca.mk 80 90 2] 100 "500" 500).
  - reflexivity.
  - lia.
  - repeat constructor.
  - repeat constructor; cbn; lia.
  - lia.
Defined.

(** The scenario of the witness: the two pieces 80 wide are placed, the
    piece 150 wide is not, and the call returns at the third shelf. *)
Example cenario_peca_larga :
  Js.calcularArranjo 3 [Peca.mk 150 200 1; Peca.mk 80 90 2] 100 "500"
  = Js.Retorna {| arranjo := [Posicao.mk 0 0 80 90; Posicao.mk 0 200 80 90];
                  comprimentoUtilizado := 400 |}.
Proof. vm_compute; reflexivity. Qed.

(** With a bound of 2^54 the loop does not end: once [y] has reached
    2^53, [y + 1] is rounded back to [y], the shelf of the piece wider
    than the roll (of height 1) never passes the bound and [y] stays. *)
Example cenario_y_parado :
  Js.mais (2 ^ 53) 1 = 2 ^ 53
  /\ Js.calcularArranjo 1000 [Peca.mk 10 (2 ^ 53) 1; Peca.mk 150 1 1] 100
                        "18014398509481984"
     = Js.EmCurso.
Proof. split; vm_compute; reflexivity. Qed.

(** ** The strategy and the reference procedure *)

Lemma ref_cabe_limite h v :
  0 <= h ->
  ref_cabe h v = menor_ou_igual v (if 0 <? h then Finito h else Infinity).
Proof.
  intros Hh. unfold ref_cabe. destruct (0 <? h) eqn:E; cbn.
  - apply Z.ltb_lt in E. by replace (h =? 0) with false by lia.
  - apply Z.ltb_ge in E. by replace (h =? 0) with true by lia.
Qed.

Lemma ref_varrer_varrer larguraRolo h yy x l :
  Forall (fun it => ref_cabe h (yy + Item.altura it) = true) l ->
  ref_varrer larguraRolo h yy x l = varrer larguraRolo true yy x l.
Proof.
  intros H. revert x. induction H as [|it l Hit _ IH]; intros x; cbn; [done|].
  rewrite Hit, andb_true_r.
  destruct (x + Item.largura it <=? larguraRolo); by rewrite IH.
Qed.

Lemma ref_prateleiras_laco larguraRolo h n s :
  0 <= h ->
  decrescente (todasPecas s) ->
  ref_prateleiras larguraRolo h n (y s) (resultado s) (todasPecas s)
  = resultado <$> laco larguraRolo (if 0 <? h then Finito h else Infinity) n s.
Proof.
  intros Hh. revert s. induction n as [|n IH]; intros s Hd.
  - cbn. by destruct (todasPecas s).
  - cbn [ref_prateleiras laco].
    destruct (todasPecas s) as [|a r] eqn:E; [done|].
    rewrite (ref_mais_alta_cabeca _ _ Hd).
    rewrite ref_cabe_limite, menor_ou_igual_maior by done.
    destruct (maior (y s + Item.altura a) _) eqn:Hm; cbn [negb].
    + rewrite prateleira_parou by done. done.
    + rewrite ref_varrer_varrer.
      2:{ eapply Forall_impl; [exact (decrescente_cabeca _ _ Hd)|].
          cbn. intros it Hit. rewrite ref_cabe_limite by done.
          apply (menor_ou_igual_mono _ (y s + Item.altura a)); [lia|].
          by rewrite menor_ou_igual_maior, Hm. }
      pose proof (prateleira_varrer larguraRolo
                    (if 0 <? h then Finito h else Infinity) s (Item.altura a))
        as Hp.
      rewrite menor_ou_igual_maior, Hm, E in Hp. cbn [negb] in Hp.
      destruct (varrer larguraRolo true (y s) 0 (a :: r)) as [c k] eqn:Ev.
      rewrite Hp. rewrite <- IH.
      * done.
      * cbn. eapply decrescente_sublist; [|exact Hd].
        by eapply varrer_sublist.
Qed.

(** C6 as stated fails: the procedure of the claim goes on to the next
    shelf whatever its height.  With two pieces 100 x 60 and one 100 x 30
    on a roll 100 wide and 100 long, the second shelf, 60 high, does not
    fit the roll: the code stops there with one placement, while the
    procedure scans on and places the piece 100 x 30 at y = 60, where it
    fits. *)
Lemma referencia_sem_parada_difere :
  Js.calcularArranjo 2 [Peca.mk 100 60 2; Peca.mk 100 30 1] 100 "100"
  = Js.Retorna {| arranjo := [Posicao.mk 0 0 100 60];
                  comprimentoUtilizado := 60 |}
  /\ forall n,
       referencia_sem_parada (S (S n)) [Peca.mk 100 60 2; Peca.mk 100 30 1]
                             100 100
       = [Posicao.mk 0 0 100 60; Posicao.mk 0 60 100 30].
Proof.
  split; [vm_compute; reflexivity|].
  intros n.
  assert (forall m yy, 120 <= yy ->
             ref_sem_parada 100 100 m yy
               [Posicao.mk 0 0 100 60; Posicao.mk 0 60 100 30]
               [Item.mk 100 60]
             = [Posicao.mk 0 0 100 60; Posicao.mk 0 60 100 30]) as H.
  { induction m as [|m IH]; intros yy Hy; [done|].
    cbn [ref_sem_parada ref_varrer Item.largura Item.altura].
    replace (ref_cabe 100 (yy + 60)) with false
      by (unfold ref_cabe; cbn; lia).
    rewrite andb_false_r. cbn. by rewrite IH by lia. }
  change (referencia_sem_parada (S (S n)) [Peca.mk 100 60 2; Peca.mk 100 30 1]
                                100 100)
    with (ref_sem_parada 100 100 n 120
            [Posicao.mk 0 0 100 60; Posicao.mk 0 60 100 30] [Item.mk 100 60]).
  apply H. lia.
Qed.

(** C6, amended. For every input on which the sums are exact
    ([medidas_exatas]; the piece records of the source carry no rotation
    permission; the quantities are counts below 2^32; the roll length is
    read as the stock height [h >= 0], 0 for unbounded), after any number
    [n] of shelves the placements of [calcularArranjo] are those of the
    reference procedure with the stop rule: both have returned the same
    sequence, or neither has returned. *)
Theorem calcularArranjo_referencia n pecas larguraRolo comprimentoRolo h :
  Forall (fun p => 0 <= Peca.quantidade p < 2 ^ 32) pecas ->
  medidas_exatas pecas larguraRolo comprimentoRolo ->
  Js.Number comprimentoRolo = Some h -> 0 <= h ->
  colocacoes (Js.calcularArranjo n pecas larguraRolo comprimentoRolo)
  = referencia n pecas larguraRolo h.
Proof.
  intros Hq Hm Hn Hh.
  pose proof (ref_expandir_expandir _ Hq) as He.
  destruct (js_calcularArranjo_exato n _ _ _ _ Hm He) as (m & Hcm & _ & ->).
  unfold Js.comprimentoMax_de in Hcm. rewrite Hn in Hcm. injection Hcm as <-.
  unfold referencia. rewrite ref_ordenar_ordenar.
  pose proof (ref_prateleiras_laco larguraRolo h n
                (estado_inicial (ref_expandir pecas)) Hh
                (ordenar_decrescente _)) as H.
  cbn in H. rewrite H.
  by destruct (laco _ _ _ _).
Qed.

Lemma calcularArranjo_referencia_witness :
  colocacoes (Js.calcularArranjo 10
                [Peca.mk 200 300 2; Peca.mk 150 200 3; Peca.mk 100 100 5]
                1000 "800")
  = referencia 10 [Peca.mk 200 300 2; Peca.mk 150 200 3; Peca.mk 100 100 5]
               1000 800.
Proof.
  apply (calcularArranjo_referencia 10
           [Peca.mk 200 300 2; Peca.mk 150 200 3; Peca.mk 100 100 5]
           1000 "800" 800).
  - repeat constructor; cbn; lia.
  - split; [repeat constructor; cbn; lia|]. split; [lia|].
    exists 800. split; [reflexivity|]. split; lia.
  - reflexivity.
  - lia.
Defined.

(** The stop rule at work, on the input of the counterexample: the
    reference procedure with the rule stops, as the code does, before the
    second shelf. *)
Example referencia_para :
  referencia 2 [Peca.mk 100 60 2; Peca.mk 100 30 1] 100 100
  = Some [Posicao.mk 0 0 100 60].
Proof. vm_compute; reflexivity. Qed.

(** ** No validation of the pieces *)

Lemma medidas_modeladas_itens pecas larguraRolo itens :
  medidas_modeladas pecas larguraRolo ->
  expandir pecas = Some itens ->
  Js.modelado itens larguraRolo = true
  /\ Forall (fun it => Js.numero (Item.largura it) = true
                       /\ Js.numero (Item.altura it) = true) itens.
Proof.
  intros [HW Hp] He.
  assert (Forall (fun it => Js.numero (Item.largura it) = true
                            /\ Js.numero (Item.altura it) = true) itens) as Hi.
  { apply Forall_forall. intros it Hin.
    destruct (expandir_elem _ _ _ He Hin) as (p & Hin' & _ & -> & ->).
    exact (proj1 (Forall_forall _ _) Hp p Hin'). }
  split; [|done]. unfold Js.modelado. rewrite HW. cbn.
  apply forallb_forall. intros it Hin. apply list_elem_of_In in Hin.
  destruct (proj1 (Forall_forall _ _) Hi it Hin) as [-> ->]. done.
Qed.






(** What [Number] makes of the texts of the fields: an exponent or a
    hexadecimal literal is a number like another, and an integer beyond
    2^53 is stored as the nearest double. *)
Example cenario_Number :
  Js.adicionarPeca (Form.mk "1e3" "0x10" "9007199254740993") []
  = Some ([Peca.mk 1000 16 (2 ^ 53)],
          Form.mk EmptyString EmptyString EmptyString).
Proof. vm_compute; reflexivity. Qed.

(** * The handler of the main process *)

(** ** The timer of the handler *)

Section HandlerFatos.

Variable Json : Type.
Variable JSON_parse : string -> option Json.
Variable truthy : Json -> bool.

Lemma resolve_assente p j m :
  promessa Json p = Rejeitada Json m ->
  promessa Json (resolve Json j p) = Rejeitada Json m.
Proof. unfold resolve. intros H. by rewrite H. Qed.

Lemma reject_assente p m' m :
  promessa Json p = Rejeitada Json m ->
  promessa Json (reject Json m' p) = Rejeitada Json m.
Proof. unfold reject. intros H. by rewrite H. Qed.

(** A rejected promise stays rejected with the same error. *)
Lemma reagir_assente p e m :
  promessa Json p = Rejeitada Json m ->
  promessa Json (reagir Json JSON_parse truthy p e) = Rejeitada Json m.
Proof.
  intros H. destruct e as [d|d|code|]; cbn; [done|done| |].
  - unfold ao_fechar.
    destruct code as [[| |]|];
      try (by apply reject_assente).
    destruct (analisar _ _ _) as [j|]; [|by apply reject_assente].
    destruct (truthy j); [by apply resolve_assente|by apply reject_assente].
  - unfold ao_expirar. destruct (timeout Json p); [|done].
    by apply reject_assente.
Qed.

Lemma fold_assente eventos p m :
  promessa Json p = Rejeitada Json m ->
  promessa Json (fold_left (reagir Json JSON_parse truthy) eventos p) = Rejeitada Json m.
Proof.
  revert p. induction eventos as [|e eventos IH]; intros p H; cbn; [done|].
  apply IH. by apply reagir_assente.
Qed.

(** Chunks of output leave the promise pending and the timer armed. *)
Lemma fold_dados eventos p :
  Forall (fun e => dados e = true) eventos ->
  promessa Json (fold_left (reagir Json JSON_parse truthy) eventos p) = promessa Json p
  /\ timeout Json (fold_left (reagir Json JSON_parse truthy) eventos p) = timeout Json p.
Proof.
  intros H. revert p. induction H as [|e eventos He _ IH]; intros p; cbn.
  - done.
  - destruct (IH (reagir Json JSON_parse truthy p e)) as [-> ->].
    by destruct e.
Qed.

(** C8, amended. When the 30-second timer fires before the Python
    process has closed, the handler kills the process and the
    optimize-cutting operation fails: its promise is rejected with the
    error [Timeout: Python process demorou muito para responder],
    whatever was received before and whatever happens afterwards; no
    result is returned. *)
Theorem optimize_cutting_timeout pythonScript antes depois :
  Forall (fun e => dados e = true) antes ->
  optimize_cutting Json JSON_parse truthy true pythonScript
                   (antes ++ Timeout :: depois)
  = Rejeitada Json "Timeout: Python process demorou muito para responder".
Proof.
  intros H. unfold optimize_cutting.
  rewrite fold_left_app. cbn [fold_left].
  apply fold_assente.
  destruct (fold_dados antes (processo_inicial Json) H) as [Hp Ht].
  cbn [reagir]. unfold ao_expirar. rewrite Ht. cbn.
  unfold reject. cbn. by rewrite Hp.
Qed.

End HandlerFatos.

Lemma optimize_cutting_timeout_witness :
  optimize_cutting string (fun s => Some s) (fun _ => true) true "main.py"
                   ([Stdout "{"; Stderr "aviso"] ++ Timeout :: [Close None])
  = Rejeitada string "Timeout: Python process demorou muito para responder".
Proof.
  apply (optimize_cutting_timeout string (fun s => Some s) (fun _ => true)
           "main.py" [Stdout "{"; Stderr "aviso"] [Close None]).
  repeat constructor.
Defined.

(** C8 as stated fails: the process has written a complete result, the
    timer fires before the process closes, and the operation ends with
    an error instead of that result, even with a parser that accepts
    any output. *)
Lemma optimize_cutting_timeout_erro :
  optimize_cutting string (fun s => Some s) (fun _ => true) true "main.py"
                   [Stdout "{}"; Timeout; Close None]
  = Rejeitada string "Timeout: Python process demorou muito para responder"
  /\ optimize_cutting string (fun s => Some s) (fun _ => true) true "main.py"
                      [Stdout "{}"; Close (Some 0)]
     = Resolvida string "{}"%string.
Proof. split; reflexivity. Qed.

(** * Further properties of the code *)

(** ** More on the loops with exact sums *)

Lemma expandir_contem pecas itens peca :
  expandir pecas = Some itens ->
  peca ∈ pecas -> 0 < Peca.quantidade peca ->
  Item.mk (Peca.largura peca) (Peca.altura peca) ∈ itens.
Proof.
  revert itens. induction pecas as [|p pecas IH]; intros itens He Hin Hq.
  - by apply elem_of_nil in Hin.
  - cbn in He. unfold Array_fill in He.
    destruct ((0 <=? Peca.quantidade p) && (Peca.quantidade p <? 2 ^ 32));
      [|done].
    destruct (expandir pecas) as [outras|] eqn:Eo; [|done].
    injection He as <-. apply elem_of_app.
    apply elem_of_cons in Hin as [->|Hin].
    + left. apply elem_of_replicate. split; [done|]. lia.
    + right. by apply IH.
Qed.

Lemma area_total_app l1 l2 :
  area_total (l1 ++ l2) = area_total l1 + area_total l2.
Proof.
  unfold area_total, soma. induction l1 as [|p l1 IH]; cbn; [done|].
  cbn in IH. rewrite IH. lia.
Qed.

Lemma encadeadas_area larguraRolo yy x0 h c :
  encadeadas larguraRolo yy x0 c ->
  x0 <= larguraRolo -> 0 <= h ->
  Forall (fun p => 0 <= Posicao.largura p /\ 0 <= Posicao.altura p) c ->
  Forall (fun p => Posicao.altura p <= h) c ->
  area_total c <= (larguraRolo - x0) * h.
Proof.
  intros Hc Hx Hh Hpos Halt. revert x0 Hc Hx.
  induction c as [|p c IH]; intros x0 Hc Hx.
  - unfold area_total. cbn. nia.
  - cbn in Hc. destruct Hc as (_ & _ & Hw & Hc).
    apply Forall_cons in Hpos as [[Hp1 Hp2] Hpos].
    apply Forall_cons in Halt as [Ha Halt].
    specialize (IH Hpos Halt _ Hc Hw).
    change (area_total (p :: c))
      with (Posicao.largura p * Posicao.altura p + area_total c).
    nia.
Qed.

Lemma Empilhado_area larguraRolo hs res :
  Empilhado larguraRolo hs res ->
  0 <= larguraRolo ->
  Forall (fun h => 0 <= h) hs ->
  Forall (fun p => 0 <= Posicao.largura p /\ 0 <= Posicao.altura p) res ->
  area_total res <= larguraRolo * soma hs.
Proof.
  induction 1 as [|hs res h c He IH Hc Hh]; intros HW Hpos Hres.
  - unfold area_total. cbn. lia.
  - apply Forall_app in Hpos as [Hpos1 Hpos2].
    apply Forall_cons in Hpos2 as [Hh0 _].
    apply Forall_app in Hres as [Hres1 Hres2].
    rewrite area_total_app, soma_app.
    pose proof (IH HW Hpos1 Hres1).
    pose proof (encadeadas_area _ _ _ _ _ Hc HW Hh0 Hres2 Hh). nia.
Qed.

Lemma varrer_cheia larguraRolo yy x l c k :
  0 <= x ->
  Forall (fun it => 0 <= Item.largura it) l ->
  varrer larguraRolo true yy x l = (c, k) ->
  0 <= soma (Posicao.largura <$> c)
  /\ Forall (fun it => larguraRolo
                       < x + soma (Posicao.largura <$> c) + Item.largura it) k.
Proof.
  intros Hx Hl. revert x c k Hx.
  induction Hl as [|it l Hit _ IH]; intros x c k Hx; cbn [varrer].
  - intros [= <- <-]. split; [done|constructor].
  - destruct (x + Item.largura it <=? larguraRolo) eqn:E.
    + destruct (varrer _ _ _ _ l) as [c' k'] eqn:Ev.
      intros [= <- <-].
      destruct (IH (x + Item.largura it) c' k' ltac:(lia) Ev) as [Hs Hk].
      change (soma (Posicao.largura <$> _ :: c'))
        with (Item.largura it + soma (Posicao.largura <$> c')).
      split; [lia|].
      eapply Forall_impl; [exact Hk|]. cbn. intros; lia.
    + apply Z.leb_gt in E.
      destruct (varrer _ _ _ _ l) as [c' k'] eqn:Ev.
      intros [= <- <-].
      destruct (IH _ _ _ Hx Ev) as [Hs Hk].
      split; [done|]. constructor; [lia|done].
Qed.

(** ** What is placed on an unbounded roll *)

(** When every piece fits the roll width, every shelf that does not stop
    the loop takes at least its first piece: as many shelves as pieces
    are enough. *)
Lemma js_laco_termina_cabem larguraRolo comprimentoMax n s :
  Forall (fun it => Js.numero (Item.largura it) = true
                    /\ Item.largura it <= larguraRolo) (todasPecas s) ->
  (length (todasPecas s) <= n)%nat ->
  exists s', Js.laco larguraRolo comprimentoMax n s = Some s'.
Proof.
  revert s. induction n as [|n IH]; intros s Hw Hn.
  - cbn. destruct (todasPecas s); [by eexists|cbn in Hn; lia].
  - cbn [Js.laco]. destruct (todasPecas s) as [|peca r] eqn:E; [by eexists|].
    destruct (maior (Js.mais (y s) (Item.altura peca)) comprimentoMax) eqn:Hm;
      [by eexists|].
    pose proof Hw as Hw'. apply Forall_cons in Hw' as [[Hp1 Hp2] _].
    rewrite js_prateleira_varrer, menor_ou_igual_maior, Hm, E. cbn [negb].
    destruct (Js.varrer _ _ _ _ _) as [c k] eqn:Ev.
    pose proof (js_varrer_sublist _ _ _ _ _ _ _ Ev) as Hk.
    cbn [Js.varrer] in Ev. rewrite (mais_zero _ Hp1) in Ev.
    replace (Item.largura peca <=? larguraRolo) with true in Ev by lia.
    destruct (Js.varrer larguraRolo true (y s) (Item.largura peca) r)
      as [c' k'] eqn:Ev'.
    injection Ev as <- <-. apply js_varrer_sublist in Ev'.
    apply IH; cbn.
    + by eapply Forall_sublist.
    + apply sublist_length in Ev'. cbn in Hn. lia.
Qed.

(** X1. On an unbounded roll, when every piece fits the roll width (the
    sizes being doubles of the model, and the quantities counts below
    2^32), [calcularArranjo] returns after at most as many shelves as
    there are instances, and every instance is placed exactly once: the
    placements are a rearrangement of the expanded pieces. *)
Theorem calcularArranjo_coloca_todas pecas larguraRolo comprimentoRolo :
  Js.comprimentoMax_de comprimentoRolo = Some Infinity ->
  medidas_modeladas pecas larguraRolo ->
  Forall (fun p => Peca.largura p <= larguraRolo) pecas ->
  Forall (fun p => 0 <= Peca.quantidade p < 2 ^ 32) pecas ->
  exists itens r,
    expandir pecas = Some itens
    /\ Js.calcularArranjo (length itens) pecas larguraRolo comprimentoRolo
       = Js.Retorna r
    /\ item_de <$> arranjo r ≡ₚ itens.
Proof.
  intros Hm Hmod Hw Hq. destruct (expandir_Some _ Hq) as [itens He].
  destruct (medidas_modeladas_itens _ _ _ Hmod He) as [Hmd Hi].
  destruct (js_laco_termina_cabem larguraRolo Infinity
              (length itens) (estado_inicial itens)) as [s Hs].
  { cbn. rewrite ordenar_perm. apply Forall_forall. intros it Hit.
    split; [exact (proj1 (proj1 (Forall_forall _ _) Hi it Hit))|].
    destruct (expandir_elem _ _ _ He Hit) as (p & Hp & _ & -> & _).
    exact (proj1 (Forall_forall _ _) Hw p Hp). }
  { cbn. by rewrite ordenar_perm. }
  exists itens. eexists. split; [done|]. split.
  { unfold Js.calcularArranjo. by rewrite He, Hm, Hmd, Hs. }
  cbn.
  pose proof (js_laco_inv _ _ _ _ _ _ (js_inv_inicial itens) Hs) as HI.
  destruct (js_laco_fim _ _ _ _ _ Hs) as [Hf|(peca & rr & _ & Habs)]; [|done].
  pose proof (invj_perm _ _ HI) as Hp. rewrite Hf, app_nil_r in Hp.
  by symmetry.
Qed.

Lemma calcularArranjo_coloca_todas_witness :
  exists itens r,
    expandir [Peca.mk 200 300 2; Peca.mk 150 200 3] = Some itens
    /\ Js.calcularArranjo (length itens) [Peca.mk 200 300 2; Peca.mk 150 200 3]
                          360 "0" = Js.Retorna r
    /\ item_de <$> arranjo r ≡ₚ itens.
Proof.
  apply (calcularArranjo_coloca_todas
           [Peca.mk 200 300 2; Peca.mk 150 200 3] 360 "0").
  - reflexivity.
  - split; [reflexivity|]. repeat constructor.
  - repeat constructor; cbn; lia.
  - repeat constructor; cbn; lia.
Defined.

(** X27. On an unbounded roll narrower than 2^53, a request with a piece
    wider than the roll (and no negative width; the sizes being doubles
    of the model) keeps [calcularArranjo] in its loop for ever: no number
    of shelves is enough for it to return. *)
Theorem calcularArranjo_nao_termina n pecas larguraRolo comprimentoRolo peca :
  Js.comprimentoMax_de comprimentoRolo = Some Infinity ->
  medidas_modeladas pecas larguraRolo ->
  larguraRolo < 2 ^ 53 ->
  Forall (fun p => 0 <= Peca.largura p) pecas ->
  Forall (fun p => 0 <= Peca.quantidade p < 2 ^ 32) pecas ->
  peca ∈ pecas -> 0 < Peca.quantidade peca ->
  larguraRolo < Peca.largura peca ->
  Js.calcularArranjo n pecas larguraRolo comprimentoRolo = Js.EmCurso.
Proof.
  intros Hm Hmod HW Hw Hq Hin Hq1 Hl.
  destruct (expandir_Some _ Hq) as [itens He].
  destruct (medidas_modeladas_itens _ _ _ Hmod He) as [Hmd _].
  unfold Js.calcularArranjo. rewrite He, Hm, Hmd.
  rewrite (js_laco_nao_termina larguraRolo n (estado_inicial itens)
             (Item.mk (Peca.largura peca) (Peca.altura peca))); [done|done| |..].
  - cbn. rewrite ordenar_perm. apply Forall_forall. intros it Hit.
    destruct (expandir_elem _ _ _ He Hit) as (p & Hp & _ & -> & _).
    exact (proj1 (Forall_forall _ _) Hw p Hp).
  - cbn. rewrite ordenar_perm. by eapply expandir_contem.
  - done.
Qed.

Lemma calcularArranjo_nao_termina_witness :
  Js.calcularArranjo 1000 [Peca.mk 150 200 1] 100 "0" = Js.EmCurso.
Proof.
  apply (calcularArranjo_nao_termina 1000 [Peca.mk 150 200 1] 100 "0"
           (Peca.mk 150 200 1)).
  - reflexivity.
  - split; [reflexivity|]. repeat constructor.
  - lia.
  - repeat constructor; cbn; lia.
  - repeat constructor; cbn; lia.
  - by left.
  - reflexivity.
  - reflexivity.
Defined.

(** ** The area covered *)

(** X2. For pieces of non-negative integer width and height on which the
    sums are exact ([medidas_exatas]), on a roll of non-negative width,
    the placements returned cover at most the area of the roll consumed:
    the sum of [largura * altura] over [arranjo] is at most
    [larguraRolo * comprimentoUtilizado]. *)
Theorem calcularArranjo_area n pecas larguraRolo comprimentoRolo r :
  medidas_exatas pecas larguraRolo comprimentoRolo ->
  0 <= larguraRolo ->
  Js.calcularArranjo n pecas larguraRolo comprimentoRolo = Js.Retorna r ->
  area_total (arranjo r) <= larguraRolo * comprimentoUtilizado r.
Proof.
  intros Hm HW Hc.
  destruct (js_retorna_exato _ _ _ _ _ Hm Hc)
    as (itens & m & s & He & _ & _ & _ & HI & Ha & Hu).
  assert (pecas_nao_negativas pecas) as Hp.
  { destruct Hm as (Hp & _). eapply Forall_impl; [exact Hp|].
    cbn. intros; lia. }
  pose proof (expandir_nao_negativas _ _ Hp He) as Hpos.
  destruct (inv_itens (fun w h => 0 <= w /\ 0 <= h) _ _ _ _ HI Hpos) as [Hw Hh].
  rewrite Ha, Hu, (inv_total _ _ _ _ HI).
  apply Empilhado_area; [by destruct HI|done| |done].
  eapply Forall_impl; [exact Hh|]. cbn. intros h [w ?]. lia.
Qed.

Lemma calcularArranjo_area_witness :
  area_total [Posicao.mk 0 0 200 300; Posicao.mk 200 0 150 200;
              Posicao.mk 0 300 150 200] <= 360 * 500.
Proof.
  apply (calcularArranjo_area 3 [Peca.mk 200 300 1; Peca.mk 150 200 2]
           360 "600"
           {| arranjo := [Posicao.mk 0 0 200 300; Posicao.mk 200 0 150 200;
                          Posicao.mk 0 300 150 200];
              comprimentoUtilizado := 500 |}).
  - split; [repeat constructor; cbn; lia|]. split; [lia|].
    exists 600. split; [reflexivity|]. split; lia.
  - lia.
  - reflexivity.
Defined.

(** ** A piece higher than the roll is long *)

(** X3. On a roll whose length is read as a positive number [b], when
    some requested piece is higher than [b] (the sizes being doubles of
    the model), nothing at all is placed: the first shelf, as high as the
    tallest piece, already passes the bound, the loop stops, and the call
    stores no placement and the length 0, whatever the other pieces
    are. *)
Theorem calcularArranjo_peca_alta n pecas larguraRolo comprimentoRolo b peca :
  Js.comprimentoMax_de comprimentoRolo = Some (Finito b) ->
  medidas_modeladas pecas larguraRolo ->
  Forall (fun p => 0 <= Peca.quantidade p < 2 ^ 32) pecas ->
  peca ∈ pecas -> 0 < Peca.quantidade peca -> b < Peca.altura peca ->
  Js.calcularArranjo (S n) pecas larguraRolo comprimentoRolo
  = Js.Retorna {| arranjo := []; comprimentoUtilizado := 0 |}.
Proof.
  intros Hm Hmod Hq Hin Hq1 Hb.
  destruct (expandir_Some _ Hq) as [itens He].
  destruct (medidas_modeladas_itens _ _ _ Hmod He) as [Hmd Hi].
  pose proof (expandir_contem _ _ _ He Hin Hq1) as Hit.
  unfold Js.calcularArranjo. rewrite He, Hm, Hmd.
  pose proof (ordenar_decrescente itens) as Hd.
  rewrite <- (ordenar_perm itens) in Hit, Hi.
  unfold estado_inicial. cbn [Js.laco todasPecas].
  destruct (ordenar itens) as [|a rest] eqn:Eo;
    [by apply elem_of_nil in Hit|].
  pose proof (decrescente_cabeca _ _ Hd) as Hmax.
  pose proof (proj1 (Forall_forall _ _) Hmax _ Hit) as Ha. cbn in Ha.
  apply Forall_cons in Hi as [[_ Hna] _].
  assert (maior (Js.mais 0 (Item.altura a)) (Finito b) = true) as Hbrk
    by (rewrite (mais_zero _ Hna); cbn; lia).
  cbn [y]. rewrite Hbrk.
  rewrite js_prateleira_parou by (cbn; exact Hbrk). done.
Qed.

Lemma calcularArranjo_peca_alta_witness :
  Js.calcularArranjo (S 4) [Peca.mk 50 80 3; Peca.mk 50 150 1] 100 "100"
  = Js.Retorna {| arranjo := []; comprimentoUtilizado := 0 |}.
Proof.
  apply (calcularArranjo_peca_alta 4 [Peca.mk 50 80 3; Peca.mk 50 150 1]
           100 "100" 100 (Peca.mk 50 150 1)).
  - reflexivity.
  - split; [reflexivity|]. repeat constructor.
  - repeat constructor; cbn; lia.
  - right. by left.
  - reflexivity.
  - reflexivity.
Defined.

(** ** The inner loop fills the shelf *)

(** X4. On a roll narrower than 2^53, a shelf that passes the length
    test is filled greedily: after the inner loop, no piece left in
    [todasPecas] fits the width that remains on the shelf (for pieces of
    non-negative integer width).  The placements made are appended to
    [resultado]. *)
Theorem prateleira_cheia larguraRolo comprimentoMax s shelfAltura :
  larguraRolo < 2 ^ 53 ->
  menor_ou_igual (Js.mais (y s) shelfAltura) comprimentoMax = true ->
  Forall (fun it => 0 <= Item.largura it) (todasPecas s) ->
  exists c,
    resultado (Js.prateleira larguraRolo comprimentoMax s shelfAltura)
    = resultado s ++ c
    /\ Forall (fun it => larguraRolo
                         < soma (Posicao.largura <$> c) + Item.largura it)
              (todasPecas (Js.prateleira larguraRolo comprimentoMax s
                                         shelfAltura)).
Proof.
  intros HW Hc Hl. rewrite js_prateleira_varrer, Hc.
  rewrite js_varrer_exato by (done || lia).
  destruct (varrer _ _ _ _ _) as [c k] eqn:Ev. cbn.
  exists c. split; [done|].
  destruct (varrer_cheia _ _ 0 _ _ _ ltac:(lia) Hl Ev) as [_ Hk].
  eapply Forall_impl; [exact Hk|]. cbn. intros; lia.
Qed.

Lemma prateleira_cheia_witness :
  exists c,
    resultado (Js.prateleira 100 Infinity
                 {| todasPecas := [Item.mk 60 50; Item.mk 70 40; Item.mk 30 20];
                    resultado := []; y := 0; comprimentoTotal := 0 |} 50)
    = [] ++ c
    /\ Forall (fun it => 100 < soma (Posicao.largura <$> c) + Item.largura it)
              (todasPecas (Js.prateleira 100 Infinity
                 {| todasPecas := [Item.mk 60 50; Item.mk 70 40; Item.mk 30 20];
                    resultado := []; y := 0; comprimentoTotal := 0 |} 50)).
Proof.
  apply (prateleira_cheia 100 Infinity
           {| todasPecas := [Item.mk 60 50; Item.mk 70 40; Item.mk 30 20];
              resultado := []; y := 0; comprimentoTotal := 0 |} 50).
  - lia.
  - reflexivity.
  - repeat constructor; cbn; lia.
Defined.

(** Beyond 2^53 the shelf is not filled to the width: on a roll 2^53 + 6
    wide, after the pieces 2^53 and 3 wide, [x] is 2^53 + 4 and a second
    piece 3 wide is refused although the three widths add up to the roll
    width. *)
Example prateleira_arredondada :
  Js.prateleira (2 ^ 53 + 6) Infinity
    {| todasPecas := [Item.mk (2 ^ 53) 10; Item.mk 3 10; Item.mk 3 10];
       resultado := []; y := 0; comprimentoTotal := 0 |} 10
  = {| todasPecas := [Item.mk 3 10];
       resultado := [Posicao.mk 0 0 (2 ^ 53) 10; Posicao.mk (2 ^ 53) 0 3 10];
       y := 0; comprimentoTotal := 0 |}.
Proof. vm_compute; reflexivity. Qed.

(** ** Termination on doubles *)

(** X29. On doubles as well, when every piece fits the roll width the
    call returns, whether the roll is bounded or not, after at most as
    many shelves as there are instances (the sizes and the roll length
    being numbers of the model, and the quantities counts below 2^32):
    the first piece of each shelf is placed at [x = 0], where no sum is
    rounded, or the loop stops. *)
Theorem calcularArranjo_retorna_cabem
    pecas larguraRolo comprimentoRolo comprimentoMax :
  Js.comprimentoMax_de comprimentoRolo = Some comprimentoMax ->
  medidas_modeladas pecas larguraRolo ->
  Forall (fun p => Peca.largura p <= larguraRolo) pecas ->
  Forall (fun p => 0 <= Peca.quantidade p < 2 ^ 32) pecas ->
  exists itens r,
    expandir pecas = Some itens
    /\ Js.calcularArranjo (length itens) pecas larguraRolo comprimentoRolo
       = Js.Retorna r.
Proof.
  intros Hm Hmod Hw Hq. destruct (expandir_Some _ Hq) as [itens He].
  destruct (medidas_modeladas_itens _ _ _ Hmod He) as [Hmd Hi].
  destruct (js_laco_termina_cabem larguraRolo comprimentoMax
              (length itens) (estado_inicial itens)) as [s Hs].
  { cbn. rewrite ordenar_perm. apply Forall_forall. intros it Hit.
    split; [exact (proj1 (proj1 (Forall_forall _ _) Hi it Hit))|].
    destruct (expandir_elem _ _ _ He Hit) as (p & Hp & _ & -> & _).
    exact (proj1 (Forall_forall _ _) Hw p Hp). }
  { cbn. by rewrite ordenar_perm. }
  exists itens. eexists. split; [done|].
  unfold Js.calcularArranjo. by rewrite He, Hm, Hmd, Hs.
Qed.

Lemma calcularArranjo_retorna_cabem_witness :
  exists itens r,
    expandir [Peca.mk (2 ^ 53) 10 1; Peca.mk 1 10 2] = Some itens
    /\ Js.calcularArranjo (length itens) [Peca.mk (2 ^ 53) 10 1; Peca.mk 1 10 2]
                          (2 ^ 53) "18014398509481984" = Js.Retorna r.
Proof.
  apply (calcularArranjo_retorna_cabem
           [Peca.mk (2 ^ 53) 10 1; Peca.mk 1 10 2] (2 ^ 53)
           "18014398509481984" (Finito (2 ^ 54))).
  - reflexivity.
  - split; [reflexivity|]. repeat constructor.
  - repeat constructor; cbn; lia.
  - repeat constructor; cbn; lia.
Defined.

(** ** [adicionarPeca] and [handleChange] *)

(** X5. Submitting twice in a row adds the piece once: after
    [adicionarPeca] the form is empty (or was refused for an empty
    field), so a second [adicionarPeca] on the resulting state changes
    nothing. *)
Theorem adicionarPeca_duas_vezes form pecas form' pecas' :
  adicionarPeca form pecas = Some (pecas', form') ->
  adicionarPeca form' pecas' = Some (pecas', form').
Proof.
  unfold adicionarPeca.
  destruct (falsy (Form.largura form) || falsy (Form.altura form)
            || falsy (Form.quantidade form)) eqn:E.
  - intros [= <- <-]. by rewrite E.
  - destruct (Number (Form.largura form)); [|done].
    destruct (Number (Form.altura form)); [|done].
    destruct (Number (Form.quantidade form)); [|done].
    by intros [= <- <-].
Qed.

Lemma adicionarPeca_duas_vezes_witness :
  adicionarPeca (Form.mk EmptyString EmptyString EmptyString)
                [Peca.mk 200 300 2]
  = Some ([Peca.mk 200 300 2], Form.mk EmptyString EmptyString EmptyString).
Proof.
  apply (adicionarPeca_duas_vezes (Form.mk "200" "300" "2") []).
  reflexivity.
Defined.

(** X6. [adicionarPeca] only appends: the pieces already entered are an
    unchanged prefix of the new list, which has at most one piece more. *)
Theorem adicionarPeca_acrescenta form pecas form' pecas' :
  adicionarPeca form pecas = Some (pecas', form') ->
  pecas `prefix_of` pecas'
  /\ (length pecas' <= S (length pecas))%nat.
Proof.
  unfold adicionarPeca.
  destruct (falsy (Form.largura form) || falsy (Form.altura form)
            || falsy (Form.quantidade form)).
  - intros [= <- <-]. split; [done|lia].
  - destruct (Number (Form.largura form)); [|done].
    destruct (Number (Form.altura form)); [|done].
    destruct (Number (Form.quantidade form)); [|done].
    intros [= <- <-]. split; [by apply prefix_app_r|].
    rewrite length_app. cbn. lia.
Qed.

Lemma adicionarPeca_acrescenta_witness :
  [Peca.mk 200 300 2] `prefix_of` [Peca.mk 200 300 2; Peca.mk 150 200 3]
  /\ (length [Peca.mk 200 300 2; Peca.mk 150 200 3]
      <= S (length [Peca.mk 200 300 2]))%nat.
Proof.
  apply (adicionarPeca_acrescenta (Form.mk "150" "200" "3")
           [Peca.mk 200 300 2]
           (Form.mk EmptyString EmptyString EmptyString)).
  reflexivity.
Defined.

(** X7. Typing the three fields and submitting: whatever the form held
    before, after [handleChange] on [largura], [altura] and [quantidade]
    with non-empty texts that [Number] reads as [l], [a] and [q],
    [adicionarPeca] appends the piece made of the three numbers and
    empties the form. *)
Theorem handleChange_adicionarPeca form pecas tl ta tq l a q :
  falsy tl = false -> falsy ta = false -> falsy tq = false ->
  Js.Number tl = Some l -> Js.Number ta = Some a -> Js.Number tq = Some q ->
  Js.adicionarPeca
    (handleChange "quantidade" tq
       (handleChange "altura" ta (handleChange "largura" tl form)))
    pecas
  = Some (pecas ++ [Peca.mk l a q],
          Form.mk EmptyString EmptyString EmptyString).
Proof.
  intros Fl Fa Fq Hl Ha Hq. unfold handleChange, Js.adicionarPeca. cbn.
  by rewrite Fl, Fa, Fq, Hl, Ha, Hq.
Qed.

Lemma handleChange_adicionarPeca_witness :
  Js.adicionarPeca
    (handleChange "quantidade" "2"
       (handleChange "altura" "3e2"
          (handleChange "largura" "9007199254740993"
                        (Form.mk "7" EmptyString "x"))))
    []
  = Some ([] ++ [Peca.mk (2 ^ 53) 300 2],
          Form.mk EmptyString EmptyString EmptyString).
Proof.
  apply (handleChange_adicionarPeca (Form.mk "7" EmptyString "x") []
           "9007199254740993" "3e2" "2" (2 ^ 53) 300 2); reflexivity.
Defined.

(** ** The drawing *)

(** X9. The hue tells the placement: for an index below 360,
    [23 * matiz idx] modulo 360 is the index again, so the first 360
    placements are drawn in pairwise distinct hues. *)
Theorem matiz_distinta i j :
  0 <= i < 360 -> 0 <= j < 360 -> matiz i = matiz j -> i = j.
Proof.
  assert (forall k, 0 <= k < 360 -> (23 * matiz k) mod 360 = k) as Hinv.
  { intros k Hk. unfold matiz.
    rewrite Z.mul_mod_idemp_r by lia.
    replace (23 * (k * 47)) with (k + (3 * k) * 360) by lia.
    rewrite Z.mod_add by lia. by apply Z.mod_small. }
  intros Hi Hj H.
  rewrite <- (Hinv i Hi), <- (Hinv j Hj). by rewrite H.
Qed.

Lemma matiz_distinta_witness : 7 = 7.
Proof.
  apply (matiz_distinta 7 7); [lia|lia|reflexivity].
Defined.

(** ** The handler: how the promise is settled *)

Lemma append_vazio_r (s : string) : (s ++ EmptyString)%string = s.
Proof. induction s as [|c s IH]; cbn; [done|]. by rewrite IH. Qed.

Lemma append_associativo (a b c : string) :
  ((a ++ b) ++ c)%string = (a ++ (b ++ c))%string.
Proof. induction a as [|x a IH]; cbn; [done|]. by rewrite IH. Qed.

Section HandlerMais.

Variable Json : Type.
Variable JSON_parse : string -> option Json.
Variable truthy : Json -> bool.

Lemma reagir_decidida p e :
  promessa Json p <> Pendente Json ->
  promessa Json (reagir Json JSON_parse truthy p e) = promessa Json p.
Proof.
  intros H. destruct e as [d|d|code|]; cbn; [done|done| |].
  - unfold ao_fechar, resolve, reject. cbn.
    destruct (promessa Json p) eqn:E; [done| |];
      destruct code as [[| |]|]; cbn; rewrite ?E; try done;
      destruct (analisar _ _ _) as [j|]; cbn; rewrite ?E; try done;
      destruct (truthy j); cbn; by rewrite ?E.
  - unfold ao_expirar, reject.
    destruct (timeout Json p); [|done]. cbn.
    by destruct (promessa Json p).
Qed.

Lemma fold_decidida eventos p :
  promessa Json p <> Pendente Json ->
  promessa Json (fold_left (reagir Json JSON_parse truthy) eventos p)
  = promessa Json p.
Proof.
  revert p. induction eventos as [|e eventos IH]; intros p H; cbn; [done|].
  rewrite IH; [by apply reagir_decidida|].
  by rewrite reagir_decidida.
Qed.

(** What chunks of output do to the state. *)
Lemma fold_dados_estado eventos p :
  Forall (fun e => dados e = true) eventos ->
  let p' := fold_left (reagir Json JSON_parse truthy) eventos p in
  result Json p' = (result Json p ++ stdout_de eventos)%string
  /\ error Json p' = (error Json p ++ stderr_de eventos)%string
  /\ timeout Json p' = timeout Json p
  /\ killed Json p' = killed Json p
  /\ promessa Json p' = promessa Json p.
Proof.
  intros H. revert p. induction H as [|e eventos He _ IH]; intros p; cbn.
  - by rewrite !append_vazio_r.
  - destruct (IH (reagir Json JSON_parse truthy p e))
      as (-> & -> & -> & -> & ->).
    destruct e; [| |done|done]; cbn; by rewrite ?append_associativo.
Qed.

(** The first [close] or timer callback settles the promise. *)
Lemma reagir_decide p e :
  dados e = false -> timeout Json p = true ->
  promessa Json (reagir Json JSON_parse truthy p e) <> Pendente Json.
Proof.
  intros He Ht. destruct e as [d|d|code|]; [done|done| |]; cbn.
  - unfold ao_fechar, resolve, reject. cbn.
    destruct (promessa Json p) eqn:E;
      destruct code as [[| |]|]; cbn; rewrite ?E; try done;
      destruct (analisar _ _ _) as [j|]; cbn; rewrite ?E; try done;
      destruct (truthy j); cbn; by rewrite ?E.
  - unfold ao_expirar, reject. rewrite Ht. cbn.
    by destruct (promessa Json p).
Qed.

(** X10. The outcome of the operation is decided by the first [close]
    or timer event and by the output received before it: whatever
    follows (more output, a late timer, the [close] after a kill) does
    not change the settled promise. *)
Theorem optimize_cutting_primeiro_evento pythonScript antes e depois :
  Forall (fun e => dados e = true) antes ->
  dados e = false ->
  optimize_cutting Json JSON_parse truthy true pythonScript
                   (antes ++ e :: depois)
  = optimize_cutting Json JSON_parse truthy true pythonScript (antes ++ [e])
  /\ optimize_cutting Json JSON_parse truthy true pythonScript (antes ++ [e])
     <> Pendente Json.
Proof.
  intros Ha He. unfold optimize_cutting.
  rewrite !fold_left_app. cbn [fold_left].
  destruct (fold_dados_estado antes (processo_inicial Json) Ha)
    as (_ & _ & Ht & _ & _).
  pose proof (reagir_decide _ e He Ht) as Hd.
  split; [|done]. by apply fold_decidida.
Qed.

(** X11. When the process closes with a code other than 0 (or is
    ended by a signal) before the timer fires, the operation fails with
    the message [Erro no Python: ] followed by everything the process
    wrote on stderr, in order; what it wrote on stdout is not used. *)
Theorem optimize_cutting_erro_python pythonScript antes code depois :
  Forall (fun e => dados e = true) antes ->
  code <> Some 0 ->
  optimize_cutting Json JSON_parse truthy true pythonScript
                   (antes ++ Close code :: depois)
  = Rejeitada Json ("Erro no Python: " ++ stderr_de antes).
Proof.
  intros Ha Hc. unfold optimize_cutting.
  rewrite fold_left_app. cbn [fold_left].
  destruct (fold_dados_estado antes (processo_inicial Json) Ha)
    as (_ & He & _ & _ & Hp).
  cbn in He, Hp.
  rewrite fold_decidida.
  - cbn. unfold ao_fechar, reject. cbn.
    destruct code as [[| |]|]; [done|..]; cbn; by rewrite Hp, He.
  - cbn. unfold ao_fechar, reject. cbn.
    destruct code as [[| |]|]; [done|..]; cbn; by rewrite Hp.
Qed.

(** X12. When the process closes with code 0 before the timer fires
    and the output read from stdout holds a JSON value that is truthy
    (the whole trimmed output, or else the first line that parses), the
    operation succeeds with that value. *)
Theorem optimize_cutting_sucesso pythonScript antes depois j :
  Forall (fun e => dados e = true) antes ->
  analisar Json JSON_parse (stdout_de antes) = Some j ->
  truthy j = true ->
  optimize_cutting Json JSON_parse truthy true pythonScript
                   (antes ++ Close (Some 0) :: depois)
  = Resolvida Json j.
Proof.
  intros Ha Hj Ht. unfold optimize_cutting.
  rewrite fold_left_app. cbn [fold_left].
  destruct (fold_dados_estado antes (processo_inicial Json) Ha)
    as (Hr & _ & _ & _ & Hp).
  cbn in Hr, Hp.
  assert (promessa Json
            (reagir Json JSON_parse truthy
               (fold_left (reagir Json JSON_parse truthy) antes
                          (processo_inicial Json))
               (Close (Some 0))) = Resolvida Json j) as Hs.
  { cbn. unfold ao_fechar. cbn. rewrite Hr, Hj, Ht.
    unfold resolve. cbn. by rewrite Hp. }
  rewrite fold_decidida; [done|]. by rewrite Hs.
Qed.

(** X13. A JSON value that is falsy ([null], [false], [0], an empty
    string) is not a result: when the whole trimmed output parses to
    such a value, the operation fails with [Não foi possível processar o
    resultado do Python] although the process ended with code 0, and the
    lines of the output are not searched. *)
Theorem optimize_cutting_falsy pythonScript antes depois j :
  Forall (fun e => dados e = true) antes ->
  JSON_parse (trim (stdout_de antes)) = Some j ->
  truthy j = false ->
  optimize_cutting Json JSON_parse truthy true pythonScript
                   (antes ++ Close (Some 0) :: depois)
  = Rejeitada Json "Não foi possível processar o resultado do Python".
Proof.
  intros Ha Hj Ht. unfold optimize_cutting.
  rewrite fold_left_app. cbn [fold_left].
  destruct (fold_dados_estado antes (processo_inicial Json) Ha)
    as (Hr & _ & _ & _ & Hp).
  cbn in Hr, Hp.
  assert (promessa Json
            (reagir Json JSON_parse truthy
               (fold_left (reagir Json JSON_parse truthy) antes
                          (processo_inicial Json))
               (Close (Some 0)))
          = Rejeitada Json "Não foi possível processar o resultado do Python")
    as Hs.
  { cbn. unfold ao_fechar, analisar. cbn. rewrite Hr, Hj, Ht.
    unfold reject. cbn. by rewrite Hp. }
  rewrite fold_decidida; [done|]. by rewrite Hs.
Qed.

(** X14. The search through the lines of the output returns the value
    of the first line that, once trimmed, starts with an opening brace
    or bracket and parses; lines before it either do not start so (they
    are never passed to [JSON.parse]) or do not parse. *)
Theorem procurar_primeira lines j :
  procurar Json JSON_parse lines = Some j <->
  exists l1 l l2,
    lines = l1 ++ l :: l2
    /\ startsWith_chave_ou_colchete (trim l) = true
    /\ JSON_parse (trim l) = Some j
    /\ Forall (fun l' => startsWith_chave_ou_colchete (trim l') = false
                         \/ JSON_parse (trim l') = None) l1.
Proof.
  induction lines as [|l lines IH]; cbn.
  - split; [done|]. intros (l1 & l' & l2 & H & _). by destruct l1.
  - destruct (startsWith_chave_ou_colchete (trim l)) eqn:Es.
    + destruct (JSON_parse (trim l)) as [j'|] eqn:Ep.
      * split.
        -- intros [= ->]. exists [], l, lines. repeat split; [done..|constructor].
        -- intros (l1 & l' & l2 & H & Hs & Hp & Hall).
           destruct l1 as [|a l1]; cbn in H; injection H as -> ->.
           ++ congruence.
           ++ apply Forall_cons in Hall as [[Hf|Hf] _]; congruence.
      * rewrite IH. split.
        -- intros (l1 & l' & l2 & -> & Hs & Hp & Hall).
           exists (l :: l1), l', l2. repeat split; [done..|].
           constructor; [by right|done].
        -- intros (l1 & l' & l2 & H & Hs & Hp & Hall).
           destruct l1 as [|a l1]; cbn in H; injection H as -> ->.
           ++ congruence.
           ++ apply Forall_cons in Hall as [_ Hall]. by exists l1, l', l2.
    + rewrite IH. split.
      * intros (l1 & l' & l2 & -> & Hs & Hp & Hall).
        exists (l :: l1), l', l2. repeat split; [done..|].
        constructor; [by left|done].
      * intros (l1 & l' & l2 & H & Hs & Hp & Hall).
        destruct l1 as [|a l1]; cbn in H; injection H as -> ->.
        -- congruence.
        -- apply Forall_cons in Hall as [_ Hall]. by exists l1, l', l2.
Qed.

Lemma ao_fechar_campos code p :
  killed Json (ao_fechar Json JSON_parse truthy code p) = killed Json p
  /\ timeout Json (ao_fechar Json JSON_parse truthy code p) = false.
Proof.
  unfold ao_fechar, resolve, reject. cbn.
  destruct code as [[| |]|]; cbn;
    try (by destruct (promessa Json p));
    destruct (analisar _ _ _) as [j|];
    try destruct (truthy j); by destruct (promessa Json p).
Qed.

(** X16. The handler kills the Python process exactly when the timer
    callback runs before any [close]: a process that has closed is
    never killed, and a timer that fires first always kills. *)
Theorem killed_expira_primeiro eventos :
  killed Json (fold_left (reagir Json JSON_parse truthy) eventos
                         (processo_inicial Json))
  = expira_primeiro eventos.
Proof.
  assert (forall p,
             killed Json (fold_left (reagir Json JSON_parse truthy) eventos p)
             = killed Json p || (timeout Json p && expira_primeiro eventos))
    as H.
  { induction eventos as [|e eventos IH]; intros p; cbn [fold_left].
    - cbn. by rewrite andb_false_r, orb_false_r.
    - rewrite IH. destruct e as [d|d|code|]; cbn [reagir expira_primeiro].
      + done.
      + done.
      + destruct (ao_fechar_campos code p) as [-> ->].
        by rewrite andb_false_r.
      + unfold ao_expirar, reject. destruct (timeout Json p) eqn:Et.
        * cbn. destruct (promessa Json p); cbn; by rewrite orb_true_r.
        * by rewrite Et, !orb_false_r. }
  by rewrite H.
Qed.

End HandlerMais.

Lemma optimize_cutting_primeiro_evento_witness :
  optimize_cutting string (fun s => Some s) (fun _ => true) true "main.py"
                   ([Stdout "{}"] ++ Close (Some 0) :: [Timeout; Close None])
  = optimize_cutting string (fun s => Some s) (fun _ => true) true "main.py"
                     ([Stdout "{}"] ++ [Close (Some 0)])
  /\ optimize_cutting string (fun s => Some s) (fun _ => true) true "main.py"
                      ([Stdout "{}"] ++ [Close (Some 0)])
     <> Pendente string.
Proof.
  apply (optimize_cutting_primeiro_evento string (fun s => Some s)
           (fun _ => true) "main.py" [Stdout "{}"] (Close (Some 0))
           [Timeout; Close None]).
  - repeat constructor.
  - reflexivity.
Defined.

Lemma optimize_cutting_erro_python_witness :
  optimize_cutting string (fun s => Some s) (fun _ => true) true "main.py"
                   ([Stderr "Traceback"; Stdout "{}"; Stderr ": erro"]
                      ++ Close (Some 1) :: [])
  = Rejeitada string
      ("Erro no Python: "
         ++ stderr_de [Stderr "Traceback"; Stdout "{}"; Stderr ": erro"]).
Proof.
  apply (optimize_cutting_erro_python string (fun s => Some s)
           (fun _ => true) "main.py"
           [Stderr "Traceback"; Stdout "{}"; Stderr ": erro"] (Some 1) []).
  - repeat constructor.
  - discriminate.
Defined.

Lemma optimize_cutting_sucesso_witness :
  optimize_cutting Z Number (fun n => negb (n =? 0)) true "main.py"
                   ([Stdout "4"; Stdout "2 "] ++ Close (Some 0) :: [Timeout])
  = Resolvida Z 42.
Proof.
  apply (optimize_cutting_sucesso Z Number (fun n => negb (n =? 0))
           "main.py" [Stdout "4"; Stdout "2 "] [Timeout] 42).
  - repeat constructor.
  - reflexivity.
  - reflexivity.
Defined.

Lemma optimize_cutting_falsy_witness :
  optimize_cutting Z Number (fun n => negb (n =? 0)) true "main.py"
                   ([Stdout "0"] ++ Close (Some 0) :: [])
  = Rejeitada Z "Não foi possível processar o resultado do Python".
Proof.
  apply (optimize_cutting_falsy Z Number (fun n => negb (n =? 0))
           "main.py" [Stdout "0"] [] 0).
  - repeat constructor.
  - reflexivity.
  - reflexivity.
Defined.

(** The output of a run with a log line before the result: the whole
    output is not JSON, the second line is. *)
Example analisar_linha_de_log :
  analisar string
    (fun s => if startsWith_chave_ou_colchete s then Some s else None)
    ("Otimizando..." ++ String (ascii_of_nat 10) "  {}  ")
  = Some "{}"%string.
Proof. reflexivity. Qed.

(** ** The file handlers *)

Section ArquivosFatos.

Variable Json : Type.
Variable JSON_stringify : Json -> string.
Variable JSON_parse : string -> Json + string.
Variable recusa : Fs -> string -> option (string * option string).
Variable ausente : string -> string.

(** X17. A configuration saved with [save-config] is read back by
    [load-config]: when the save reports success for the chosen path
    and [JSON.parse] inverts [JSON.stringify] on the configuration,
    choosing that file in the open dialog returns the same
    configuration and path. *)
Theorem save_load_config path outros config fs fs' :
  save_config Json JSON_stringify recusa (Some path) config fs
  = (fs', Sucesso Json path) ->
  JSON_parse (JSON_stringify config) = inl config ->
  load_config Json JSON_parse ausente (Some (path :: outros)) fs'
  = SucessoConfig Json config path.
Proof.
  unfold save_config, load_config, writeFileSync, readFileSync.
  destruct (falsy path); [done|].
  destruct (recusa fs path) as [[message resto]|]; [done|].
  intros [= <-] Hp. by rewrite String.eqb_refl, Hp.
Qed.

(** X18. [save-config] and [export-results] touch nothing but the
    chosen file: whatever the reply, every other path keeps its content
    (a write that fails may leave the chosen file changed); and when no
    file is chosen, no file changes at all and the reply is the failure
    [Nenhum arquivo selecionado]. *)
Theorem save_config_so_o_escolhido filePath config fs fs' resposta :
  save_config Json JSON_stringify recusa filePath config fs = (fs', resposta)
  \/ export_results Json JSON_stringify recusa filePath config fs
     = (fs', resposta) ->
  (forall q, filePath <> Some q -> fs' q = fs q)
  /\ (filePath = None \/ filePath = Some EmptyString ->
      fs' = fs /\ resposta = Falha Json "Nenhum arquivo selecionado").
Proof.
  assert (save_config Json JSON_stringify recusa filePath config fs
          = export_results Json JSON_stringify recusa filePath config fs)
    as <- by done.
  intros H. assert (save_config Json JSON_stringify recusa filePath config fs
                    = (fs', resposta)) as H' by (by destruct H).
  clear H. revert H'. unfold save_config, writeFileSync.
  destruct filePath as [path|]; [|by intros [= <- <-]].
  destruct (falsy path) eqn:Ef; [by intros [= <- <-]|].
  assert (forall f r,
             (fun q => if String.eqb q path then r else fs q, f) = (fs', resposta) ->
             (forall q, Some path <> Some q -> fs' q = fs q)
             /\ (Some path = None \/ Some path = Some EmptyString ->
                 fs' = fs /\ resposta = Falha Json "Nenhum arquivo selecionado"))
    as Hw.
  { intros f r [= <- <-]. split.
    - intros q Hq. destruct (String.eqb_spec q path) as [->|]; done.
    - intros [|[= ->]]; done. }
  destruct (recusa fs path) as [[message resto]|]; apply Hw.
Qed.

End ArquivosFatos.

Lemma save_load_config_witness :
  load_config string (fun s => inl s) (fun _ => "ENOENT"%string)
              (Some ("c.json"%string :: []))
              (fun q => if String.eqb q "c.json" then Some "cfg"%string
                        else None)
  = SucessoConfig string "cfg"%string "c.json"%string.
Proof.
  apply (save_load_config string (fun c => c) (fun s => inl s)
           (fun _ _ => None) (fun _ => "ENOENT"%string)
           "c.json"%string [] "cfg"%string (fun _ => None)
           (fun q => if String.eqb q "c.json" then Some "cfg"%string
                     else None)).
  - reflexivity.
  - reflexivity.
Defined.

Lemma save_config_so_o_escolhido_witness :
  (forall q, Some "c.json"%string <> Some q ->
     (fun q => if String.eqb q "c.json" then Some "cfg"%string
               else if String.eqb q "a.json" then Some "antes"%string
                    else None) q
     = (fun q => if String.eqb q "a.json" then Some "antes"%string else None) q)
  /\ (Some "c.json"%string = None \/ Some "c.json"%string = Some EmptyString ->
      (fun q => if String.eqb q "c.json" then Some "cfg"%string
                else if String.eqb q "a.json" then Some "antes"%string
                     else None)
      = (fun q => if String.eqb q "a.json" then Some "antes"%string else None)
      /\ Sucesso string "c.json" = Falha string "Nenhum arquivo selecionado").
Proof.
  apply (save_config_so_o_escolhido string (fun c => c) (fun _ _ => None)
           (Some "c.json"%string) "cfg"%string
           (fun q => if String.eqb q "a.json" then Some "antes"%string
                     else None)).
  left. reflexivity.
Defined.

(** A write that fails after the file was truncated: the reply is the
    failure, the chosen file is empty, and the other file is as before. *)
Example save_config_truncado :
  let fs := fun q => if String.eqb q "a.json" then Some "antes"%string
                     else if String.eqb q "c.json" then Some "velho"%string
                          else None in
  let '(fs', resposta) :=
    save_config string (fun c => c)
                (fun _ _ => Some ("ENOSPC"%string, Some EmptyString))
                (Some "c.json"%string) "cfg"%string fs in
  resposta = Falha string "ENOSPC"
  /\ fs' "c.json"%string = Some EmptyString
  /\ fs' "a.json"%string = Some "antes"%string.
Proof. repeat split. Qed.

(** ** The configuration panel of the Electron front end *)

Lemma imap_id_ext {A} (f : nat -> A -> A) (l : list A) :
  (forall i x, l !! i = Some x -> f i x = x) -> imap f l = l.
Proof.
  revert f. induction l as [|a l IH]; intros f H; cbn; [done|].
  rewrite (H 0%nat a eq_refl). f_equal.
  apply IH. intros i x Hi. by apply (H (S i)).
Qed.

(** X19. [updatePiece] with an index that is not one of a piece, or
    with a field number outside 0..4, changes nothing. *)
Theorem updatePiece_fora index field value prev :
  (length (Config.pieces prev) <= index)%nat \/ field < 0 \/ 4 < field ->
  updatePiece index field value prev = prev.
Proof.
  intros H. destruct prev as [w h ps t]. unfold updatePiece. cbn in *.
  f_equal. apply imap_id_ext. intros i [[[[p0 p1] p2] p3] p4] Hi.
  destruct (Nat.eqb_spec i index) as [->|]; [|done].
  destruct H as [H|H].
  - apply lookup_lt_Some in Hi. lia.
  - replace (field =? 0) with false by lia.
    replace (field =? 1) with false by lia.
    replace (field =? 2) with false by lia.
    replace (field =? 3) with false by lia.
    by replace (field =? 4) with false by lia.
Qed.

Lemma updatePiece_fora_witness :
  updatePiece 2 0 (VNumber 7) config_inicial = config_inicial.
Proof.
  apply (updatePiece_fora 2 0 (VNumber 7) config_inicial).
  left. cbn. lia.
Defined.

(** X20. Removing the piece that [addPiece] has just added gives the
    configuration back. *)
Theorem removePiece_addPiece prev :
  removePiece (length (Config.pieces prev)) (addPiece prev) = prev.
Proof.
  destruct prev as [w h ps t]. unfold removePiece, addPiece. cbn.
  f_equal. rewrite delete_take_drop.
  rewrite take_app_length.
  rewrite drop_ge by (rewrite length_app; cbn; lia). by rewrite app_nil_r.
Qed.

(** X21. [updatePiece] touches one piece only: the number of pieces,
    the pieces at the other indices, the stock and the time limit are
    unchanged. *)
Theorem updatePiece_so_uma index field value prev :
  length (Config.pieces (updatePiece index field value prev))
  = length (Config.pieces prev)
  /\ (forall j, j <> index ->
        Config.pieces (updatePiece index field value prev) !! j
        = Config.pieces prev !! j)
  /\ Config.stock_width (updatePiece index field value prev)
     = Config.stock_width prev
  /\ Config.stock_height (updatePiece index field value prev)
     = Config.stock_height prev
  /\ Config.time_limit (updatePiece index field value prev)
     = Config.time_limit prev.
Proof.
  unfold updatePiece. cbn. split; [by rewrite length_imap|].
  split; [|by repeat split]. intros j Hj. rewrite list_lookup_imap.
  destruct (Nat.eqb_spec j index) as [->|_]; [done|].
  change Piece with (Valor * Valor * Valor * Valor * Valor)%type.
  apply option_fmap_id.
Qed.

(** X22. The edits of the configuration panel other than the loading
    of a file keep the shape of the configuration: from a configuration
    in which every piece is [[number, number, number, boolean, string]]
    and the time limit is not 0 (the initial one is such), whatever the
    user types and clicks, apart from Carregar Config, every piece keeps
    that shape (a text that is not a number is stored as 0) and the time
    limit is never 0 (an empty, non-numeric or zero entry gives 60). *)
Theorem config_bem_tipada acoes c :
  Forall (fun a => edicao a = true) acoes ->
  Forall bem_tipada (Config.pieces c) /\ Config.time_limit c <> 0 ->
  Forall bem_tipada (Config.pieces (fold_left aplicar acoes c))
  /\ Config.time_limit (fold_left aplicar acoes c) <> 0.
Proof.
  intros Ha. revert c.
  induction Ha as [|a acoes Hed _ IH]; intros c Hc; [done|].
  cbn [fold_left]. apply IH. destruct Hc as [Hp Ht].
  assert (forall index field value,
             (field = 0 \/ field = 1 \/ field = 2) /\ (exists n, value = VNumber n)
             \/ field = 3 /\ (exists b, value = VBoolean b)
             \/ field = 4 /\ (exists s, value = VString s) ->
             Forall bem_tipada
                    (Config.pieces (updatePiece index field value c))) as Hu.
  { intros index field value Hv. unfold updatePiece. cbn.
    apply Forall_forall. intros piece Hin.
    apply elem_of_lookup_imap_1 in Hin as (i & q & -> & Eq).
    pose proof (proj1 (Forall_forall _ _) Hp q
                  (list_elem_of_lookup_2 _ _ _ Eq)) as Hq.
    destruct (i =? index)%nat; [|done].
    destruct q as [[[[p0 p1] p2] p3] p4].
    destruct p0, p1, p2, p3, p4; try done.
    destruct Hv as [[Hf [n' Hn]]|[[Hf [b' Hn]]|[Hf [s' Hn]]]]; subst value;
      [destruct Hf as [Hf|[Hf|Hf]]| |]; by subst field. }
  destruct a; cbn [aplicar]; try (split; [apply Hu; eauto 10|done]);
    try (by split).
  - split; [|done]. cbn. by apply Forall_delete.
  - split; [|done]. cbn. apply Forall_app. split; [done|].
    by repeat constructor.
  - split; [done|]. cbn. unfold parseInt_ou.
    destruct (parseInt value) as [n|]; [|done].
    destruct (Z.eqb_spec n 0); [done|done].
Qed.

Lemma config_bem_tipada_witness :
  Forall bem_tipada
    (Config.pieces
       (fold_left aplicar
          [MudaWidth 0 "abc"; ClicaAddPiece; MudaTimeLimit "0";
           ClicaRemovePiece 1; MudaRotation 0 false]
          config_inicial))
  /\ Config.time_limit
       (fold_left aplicar
          [MudaWidth 0 "abc"; ClicaAddPiece; MudaTimeLimit "0";
           ClicaRemovePiece 1; MudaRotation 0 false]
          config_inicial) <> 0.
Proof.
  apply (config_bem_tipada
           [MudaWidth 0 "abc"; ClicaAddPiece; MudaTimeLimit "0";
            ClicaRemovePiece 1; MudaRotation 0 false]
           config_inicial).
  - repeat constructor.
  - split; [repeat constructor|discriminate].
Defined.

(** Loading a file gives whatever the file holds: here a time limit of
    0 and a piece whose width is a string. *)
Example carregar_config_qualquer :
  let c := aplicar config_inicial
             (ClicaCarregarConfig
                (SucessoConfig Config.t
                   (Config.mk 1000 800
                      [(VString "200", VNumber 300, VNumber 2, VBoolean true,
                        VString "Prancha")] 0)
                   "config.json")) in
  Config.time_limit c = 0 /\ ~ Forall bem_tipada (Config.pieces c).
Proof.
  cbn. split; [done|]. intros H. by apply Forall_cons in H as [H _].
Qed.

(** ** [handleOptimize] and the handler *)

Section TelaFatos.

Variable Json : Type.
Variable JSON_parse : string -> option Json.
Variable truthy : Json -> bool.
Variable mensagem : string -> string.

(** X23. Once the process has closed or the timer has fired, an
    optimization started from the panel ends with [loading] false and
    with exactly one of a result and an error on the screen, whatever
    was shown before. *)
Theorem handleOptimize_decidido pythonScript antes e depois tela :
  Forall (fun e => dados e = true) antes ->
  dados e = false ->
  let tela' :=
    handleOptimize true mensagem
      (optimize_cutting Json JSON_parse truthy true pythonScript
                        (antes ++ e :: depois)) tela in
  Tela.loading Json tela' = false
  /\ ((exists j, Tela.result Json tela' = Some j
                 /\ Tela.error Json tela' = None)
      \/ (exists m, Tela.result Json tela' = None
                    /\ Tela.error Json tela' = Some m)).
Proof.
  intros Ha He. cbn zeta. unfold optimize_cutting.
  rewrite fold_left_app. cbn [fold_left].
  destruct (fold_dados_estado Json JSON_parse truthy antes
              (processo_inicial Json) Ha) as (_ & _ & Ht & _ & _).
  pose proof (reagir_decide Json JSON_parse truthy _ e He Ht) as Hd.
  rewrite fold_decidida by done.
  destruct (promessa Json _) as [|j|m]; [done| |]; cbn.
  - split; [done|]. left. by exists j.
  - split; [done|]. right. by eexists.
Qed.

(** X24. When the timer of the handler fires before the Python process
    closes, the panel ends with no result, even if one was shown before
    or had been written by the process, and with the error of the
    timeout. *)
Theorem handleOptimize_timeout pythonScript antes depois tela :
  Forall (fun e => dados e = true) antes ->
  handleOptimize true mensagem
    (optimize_cutting Json JSON_parse truthy true pythonScript
                      (antes ++ Timeout :: depois)) tela
  = Tela.mk Json None false
      (Some (mensagem "Timeout: Python process demorou muito para responder")).
Proof.
  intros Ha. unfold optimize_cutting.
  rewrite fold_left_app. cbn [fold_left].
  destruct (fold_dados_estado Json JSON_parse truthy antes
              (processo_inicial Json) Ha) as (_ & _ & Ht & _ & Hp).
  rewrite (fold_assente Json JSON_parse truthy depois _
             "Timeout: Python process demorou muito para responder").
  - done.
  - cbn [reagir]. unfold ao_expirar. rewrite Ht. cbn.
    unfold reject. cbn. by rewrite Hp.
Qed.

End TelaFatos.

Lemma handleOptimize_decidido_witness :
  Tela.loading Z
    (handleOptimize true (fun m => m)
       (optimize_cutting Z Number (fun n => negb (n =? 0)) true "main.py"
          ([Stdout "42"] ++ Close (Some 0) :: []))
       (Tela.mk Z None true None)) = false
  /\ ((exists j,
          Tela.result Z
            (handleOptimize true (fun m => m)
               (optimize_cutting Z Number (fun n => negb (n =? 0)) true
                  "main.py" ([Stdout "42"] ++ Close (Some 0) :: []))
               (Tela.mk Z None true None)) = Some j
          /\ Tela.error Z
               (handleOptimize true (fun m => m)
                  (optimize_cutting Z Number (fun n => negb (n =? 0)) true
                     "main.py" ([Stdout "42"] ++ Close (Some 0) :: []))
                  (Tela.mk Z None true None)) = None)
      \/ (exists m,
             Tela.result Z
               (handleOptimize true (fun m => m)
                  (optimize_cutting Z Number (fun n => negb (n =? 0)) true
                     "main.py" ([Stdout "42"] ++ Close (Some 0) :: []))
                  (Tela.mk Z None true None)) = None
             /\ Tela.error Z
                  (handleOptimize true (fun m => m)
                     (optimize_cutting Z Number (fun n => negb (n =? 0)) true
                        "main.py" ([Stdout "42"] ++ Close (Some 0) :: []))
                     (Tela.mk Z None true None)) = Some m)).
Proof.
  apply (handleOptimize_decidido Z Number (fun n => negb (n =? 0))
           (fun m => m) "main.py" [Stdout "42"] (Close (Some 0)) []
           (Tela.mk Z None true None)).
  - repeat constructor.
  - reflexivity.
Defined.

Lemma handleOptimize_timeout_witness :
  handleOptimize true (fun m => m)
    (optimize_cutting Z Number (fun n => negb (n =? 0)) true "main.py"
       ([Stdout "42"] ++ Timeout :: [Close None]))
    (Tela.mk Z (Some 7) false None)
  = Tela.mk Z None false
      (Some "Timeout: Python process demorou muito para responder"%string).
Proof.
  apply (handleOptimize_timeout Z Number (fun n => negb (n =? 0))
           (fun m => m) "main.py" [Stdout "42"] [Close None]
           (Tela.mk Z (Some 7) false None)).
  repeat constructor.
Defined.

(** ** The sort and the expansion *)

Lemma filter_inserir h a l :
  filter (fun it => Item.altura it = h) (inserir a l)
  = filter (fun it => Item.altura it = h) (a :: l).
Proof.
  induction l as [|b l IH]; [done|]. cbn [inserir].
  destruct (Item.altura a <? Item.altura b) eqn:E; [|done].
  apply Z.ltb_lt in E.
  rewrite (filter_cons _ b (inserir a l)), IH.
  rewrite !filter_cons.
  destruct (decide (Item.altura b = h)) as [Hb|Hb];
    destruct (decide (Item.altura a = h)) as [Ha|Ha]; try done.
  lia.
Qed.

(** X25. The sort of [calcularArranjo] keeps every instance, orders
    them by non-increasing height, and is stable: the instances of any
    given height come out in the order in which they went in. *)
Theorem ordenar_estavel l :
  ordenar l ≡ₚ l
  /\ decrescente (ordenar l)
  /\ forall h,
       filter (fun it => Item.altura it = h) (ordenar l)
       = filter (fun it => Item.altura it = h) l.
Proof.
  split; [apply ordenar_perm|]. split; [apply ordenar_decrescente|].
  intros h. induction l as [|a l IH]; [done|].
  change (ordenar (a :: l)) with (inserir a (ordenar l)).
  rewrite filter_inserir, !filter_cons. by rewrite IH.
Qed.

(** X26. A piece type entered with quantity 0 is ignored wherever it
    stands in the list: the call behaves as if the type were not
    there. *)
Theorem calcularArranjo_quantidade_zero
    n antes peca depois larguraRolo comprimentoRolo :
  Peca.quantidade peca = 0 ->
  calcularArranjo n (antes ++ peca :: depois) larguraRolo comprimentoRolo
  = calcularArranjo n (antes ++ depois) larguraRolo comprimentoRolo.
Proof.
  intros Hq.
  assert (expandir (antes ++ peca :: depois) = expandir (antes ++ depois))
    as He.
  { induction antes as [|p antes IH]; cbn.
    - unfold Array_fill at 1. rewrite Hq. cbn.
      by destruct (expandir depois).
    - by rewrite IH. }
  unfold calcularArranjo. by rewrite He.
Qed.

Lemma calcularArranjo_quantidade_zero_witness :
  calcularArranjo 3 ([Peca.mk 200 300 1] ++ Peca.mk 999 999 0
                       :: [Peca.mk 150 200 2]) 360 "600"
  = calcularArranjo 3 ([Peca.mk 200 300 1] ++ [Peca.mk 150 200 2]) 360 "600".
Proof.
  apply (calcularArranjo_quantidade_zero 3 [Peca.mk 200 300 1]
           (Peca.mk 999 999 0) [Peca.mk 150 200 2] 360 "600").
  reflexivity.
Defined.
